(** * Elemental: SafeScale, multi-shift Hessenberg solves and the IPF
      interior-point loop, embedded shallowly and checked against their
      documented behaviour.

    Scalars are modelled in exact arithmetic: rationals for SafeScale
    (every finite floating-point value is a rational), an arbitrary field
    for the Hessenberg solves (the code is a template over F), and the
    real numbers for the interior-point loop (it needs 2-norms).

    Part I embeds the three sources; Part II proves their properties. *)

From Stdlib Require Import ZArith Arith Bool List Lia Ring Field.
From Stdlib Require Import QArith Qabs Qround.
From Stdlib Require Qcanon Lqa Lra.
From Stdlib Require Import Reals.
Import ListNotations.

Declare Scope F_scope.
Delimit Scope F_scope with Fld.

(* ================================================================= *)
(** * Part I: the embedding *)

(* ================================================================= *)
(** ** El/blas_like/level1/SafeScale.hpp *)

Module SafeScaleModel.

Local Open Scope Q_scope.

(** Result of one call of [SafeScaleStep]: the returned flag and the three
    by-reference arguments after the call. *)
Record StepResult : Type := mkStep {
  done : bool;
  numerator' : Q;
  denominator' : Q;
  alpha : Q
}.

(** [Abs(a) > Abs(b)] on the real base type. *)
Definition AbsGt (a b : Q) : bool :=
  if Qlt_le_dec (Qabs b) (Qabs a) then true else false.

Definition SafeScaleStep (numerator denominator zero smallNum bigNum : Q)
  : StepResult :=
  let shrunkDenominator := denominator * smallNum in
  if AbsGt shrunkDenominator numerator && negb (Qeq_bool numerator zero)
  then mkStep false numerator shrunkDenominator smallNum
  else
    let shrunkNumerator := numerator / bigNum in
    if AbsGt shrunkNumerator denominator
    then mkStep false shrunkNumerator denominator bigNum
    else mkStep true numerator denominator (numerator / denominator).

Section Loop.
(** [limits::SafeMin<Real>()] is not part of the excerpt; it is a
    parameter of the development. *)
Variable SafeMin : Q.

(** The target of the scaling: a matrix, a sparse matrix, or the pair of
    arrays of [SafeScaleHermitianTridiagonal]; [scale a t] is [t *= a]. *)
Variable Target : Type.
Variable scale : Q -> Target -> Target.

(** The [while( !done )] loop shared by every overload of [SafeScale];
    [fuel] bounds the number of loop iterations. *)
Fixpoint SafeScale_loop (fuel : nat) (numerator denominator : Q)
    (zero smallNum bigNum : Q) (A : Target) : option Target :=
  match fuel with
  | O => None
  | S fuel' =>
      let r := SafeScaleStep numerator denominator zero smallNum bigNum in
      let A' := scale (alpha r) A in
      if done r then Some A'
      else SafeScale_loop fuel' (numerator' r) (denominator' r)
             zero smallNum bigNum A'
  end.

Definition SafeScale (fuel : nat) (numerator denominator : Q) (A : Target)
  : option Target :=
  let zero : Q := 0 in
  let smallNum := SafeMin in
  let bigNum := 1 / smallNum in
  SafeScale_loop fuel numerator denominator zero smallNum bigNum A.
End Loop.

(** Dense target: [A *= alpha] multiplies every entry. *)
Definition Matrix := list (list Q).
Definition MatScale (a : Q) (A : Matrix) : Matrix := map (map (Qmult a)) A.

(** The sequence of factors the loop applies, obtained by running the loop
    on a target that records them. *)
Definition record (a : Q) (l : list Q) : list Q := l ++ [a].
Definition SafeScale_factors (SafeMin : Q) (fuel : nat) (n d : Q)
  : option (list Q) :=
  SafeScale SafeMin (list Q) record fuel n d [].

Definition product (l : list Q) : Q := fold_right Qmult 1 l.

(** [SafeScaleHermitianTridiagonal]: the loop of [SafeScale] with
    [d *= alpha; e *= alpha] as its scaling. *)
Definition TridiagScale (a : Q) (de : Matrix * Matrix) : Matrix * Matrix :=
  (MatScale a (fst de), MatScale a (snd de)).

Definition SafeScaleHermitianTridiagonal (SafeMin : Q) (fuel : nat)
    (numerator denominator : Q) (d e : Matrix) : option (Matrix * Matrix) :=
  SafeScale SafeMin (Matrix * Matrix) TridiagScale fuel numerator denominator
    (d, e).

End SafeScaleModel.


(* ================================================================= *)
(** ** elemental/lapack-like/solve/MultiShiftHessSolve.hpp *)

Module Mshs.
Local Open Scope nat_scope.

(** The scalar type [F] of the templates, with its arithmetic and its
    conjugation ([Conj] is the identity on a real field). *)
Record Scalars : Type := mkScalars {
  F :> Type;
  Fzero : F;
  Fone : F;
  Fadd : F -> F -> F;
  Fmul : F -> F -> F;
  Fsub : F -> F -> F;
  Fopp : F -> F;
  Fdiv : F -> F -> F;
  Finv : F -> F;
  Conj : F -> F
}.
Bind Scope F_scope with F.
Arguments Fzero {_}.
Arguments Fone {_}.
Arguments Fadd {_} _ _.
Arguments Fmul {_} _ _.
Arguments Fsub {_} _ _.
Arguments Fopp {_} _.
Arguments Fdiv {_} _ _.
Arguments Finv {_} _.
Arguments Conj {_} _.

(** Exact arithmetic: the scalars form a field. *)
Definition FieldLaws (Fld : Scalars) : Prop :=
  field_theory (@Fzero Fld) (@Fone Fld) (@Fadd Fld) (@Fmul Fld) (@Fsub Fld) (@Fopp Fld)
    (@Fdiv Fld) (@Finv Fld) (@eq (F Fld)).

Section Solve.
Context {Fld : Scalars}.
Local Notation "0" := Fzero : F_scope.
Local Infix "+" := Fadd : F_scope.
Local Infix "*" := Fmul : F_scope.
Local Infix "-" := Fsub : F_scope.
Local Infix "/" := Fdiv : F_scope.
Local Notation "- x" := (Fopp x) : F_scope.
Local Open Scope F_scope.

(** Output of [lapack::ComputeGivens( phi, gamma, &c, &s, &rho )]. The
    routine itself belongs to the LAPACK wrappers, outside the excerpt,
    and is a parameter here. *)
Record Givens : Type := mkGivens { gc : Fld; gs : Fld; grho : Fld }.
Variable ComputeGivens : Fld -> Fld -> Givens.

Record Matrix : Type := mkMatrix {
  Height : nat;
  Width : nat;
  Get : nat -> nat -> Fld
}.

Definition Zeros (m n : nat) : Matrix := mkMatrix m n (fun _ _ => 0%Fld).

Definition Set_ (A : Matrix) (i j : nat) (v : Fld) : Matrix :=
  mkMatrix (Height A) (Width A)
    (fun i' j' => if (i' =? i) && (j' =? j) then v else Get A i' j').

Definition Update (A : Matrix) (i j : nat) (v : Fld) : Matrix :=
  Set_ A i j (Get A i j + v).

(** [Scale( alpha, X )] on a whole matrix. *)
Definition Scale (alpha : Fld) (A : Matrix) : Matrix :=
  mkMatrix (Height A) (Width A) (fun i j => alpha * Get A i j).

(** A view of one column slice of a matrix: rows
    [vi, vi + vheight) of column [vj]. Views alias the matrix they are
    taken from, so operations on a view return the updated matrix. *)
Record View : Type := mkView { vi : nat; vj : nat; vheight : nat }.

(** [ViewRange( A, iBeg, jBeg, iEnd, jEnd )], always one column wide here. *)
Definition ViewRange (iBeg jBeg iEnd jEnd : nat) : View :=
  mkView iBeg jBeg (iEnd - iBeg).

(** [View( A, i, j, height, width )], always with [width = 1] here. *)
Definition View_ (i j height width : nat) : View := mkView i j height.

Definition inView (v : View) (i j : nat) : bool :=
  (vi v <=? i) && (i <? vi v + vheight v) && (j =? vj v).

(** [Axpy( a, xView, yView )]: [y += a x] on views of [B] and [A]. *)
Definition Axpy (a : Fld) (B : Matrix) (vB : View) (A : Matrix) (vA : View)
  : Matrix :=
  mkMatrix (Height A) (Width A)
    (fun i j =>
       if inView vA i j
       then (a * Get B (vi vB + (i - vi vA)) (vj vB) + Get A i j)%Fld
       else Get A i j).

(** [Scale( a, view )]. *)
Definition ScaleView (a : Fld) (A : Matrix) (vA : View) : Matrix :=
  mkMatrix (Height A) (Width A)
    (fun i j => if inView vA i j then (a * Get A i j)%Fld else Get A i j).

(** [MemCopy( W.Buffer(0,j), H.LockedBuffer(0,jH), m )]: the first [m]
    entries of column [jH] of [H] are copied to column [j] of [W]. *)
Definition MemCopyCol (W : Matrix) (j : nat) (H : Matrix) (jH : nat)
    (m : nat) : Matrix :=
  mkMatrix (Height W) (Width W)
    (fun i' j' => if (i' <? m) && (j' =? j) then Get H i' jH else Get W i' j').

(** [for( i=lo; i<hi; ++i )] and the two descending loops, as folds over
    the list of indices visited. *)
Definition For {St : Type} (idx : list nat) (body : nat -> St -> St)
    (st : St) : St :=
  fold_left (fun s i => body i s) idx st.

Definition upto (lo hi : nat) : list nat := seq lo (hi - lo).
(** [for( k=hi-1; k>=lo; --k )] *)
Definition downfrom (hi lo : nat) : list nat := rev (seq lo (hi - lo)).

(** The local variables of [LN] and [UN]. *)
Record Frame : Type := mkFrame {
  fX : Matrix; fW : Matrix; fC : Matrix; fS : Matrix;
  ft1 : Matrix; ft2 : Matrix
}.

Definition withX (f : Frame) (X : Matrix) : Frame :=
  mkFrame X (fW f) (fC f) (fS f) (ft1 f) (ft2 f).
Definition withW (f : Frame) (W : Matrix) : Frame :=
  mkFrame (fX f) W (fC f) (fS f) (ft1 f) (ft2 f).
Definition withC (f : Frame) (C : Matrix) : Frame :=
  mkFrame (fX f) (fW f) C (fS f) (ft1 f) (ft2 f).
Definition withS (f : Frame) (S : Matrix) : Frame :=
  mkFrame (fX f) (fW f) (fC f) S (ft1 f) (ft2 f).
Definition witht1 (f : Frame) (t1 : Matrix) : Frame :=
  mkFrame (fX f) (fW f) (fC f) (fS f) t1 (ft2 f).
Definition witht2 (f : Frame) (t2 : Matrix) : Frame :=
  mkFrame (fX f) (fW f) (fC f) (fS f) (ft1 f) t2.

(* -------------------------------------------------------------- *)
(** *** mshs::LN *)

(** Initialise column [j] of the workspace with the shifted first column
    of [H]. *)
Definition LN_init (H shifts : Matrix) (m : nat) (j : nat) (f : Frame)
  : Frame :=
  let W := MemCopyCol (fW f) j H 0 m in
  let W := Update W 0 j (- Get shifts j 0) in
  withW f W.

(** Body of the doubly nested loop that finds the LQ factorization and
    solves against L. *)
Definition LN_eliminate (H shifts : Matrix) (m : nat) (k j : nat)
    (f : Frame) : Frame :=
  let hB := ViewRange (k+2) (k+1) m (k+2) in
  let etakkp1 := Get H k (k+1) in
  let etakp1kp1 := Get H (k+1) (k+1) in
  let X := fX f in
  let W := fW f in
  let g := ComputeGivens (Get W k j) etakkp1 in
  let c := gc g in
  let s := gs g in
  let C := Set_ (fC f) k j c in
  let S := Set_ (fS f) k j s in
  let lambdakk := c * Get W k j + s * etakkp1 in
  let X := Set_ X k j (Get X k j / lambdakk) in
  let mu := Get shifts j 0 in
  let xc := Get X k j * c in
  let xs := Get X k j * s in
  let X := Update X (k+1) j (- xc * Get W (k+1) j - xs * (etakp1kp1 - mu)) in
  let xB := ViewRange (k+2) j m (j+1) in
  let wB := ViewRange (k+2) j m (j+1) in
  let X := Axpy (- xc) W wB X xB in
  let X := Axpy (- xs) H hB X xB in
  let W := Set_ W (k+1) j (- Conj s * Get W (k+1) j + c * (etakp1kp1 - mu)) in
  let W := ScaleView (- Conj s) W wB in
  let W := Axpy c H hB W wB in
  mkFrame X W C S (ft1 f) (ft2 f).

(** Divide x(end) by L(end,end). *)
Definition LN_last (m : nat) (j : nat) (f : Frame) : Frame :=
  withX f (Set_ (fX f) (m-1) j (Get (fX f) (m-1) j / Get (fW f) (m-1) j)).

Definition LN_t1 (m : nat) (j : nat) (f : Frame) : Frame :=
  witht1 f (Set_ (ft1 f) j 0 (Get (fX f) (m-1) j)).

(** Body of the loop that solves against Q. *)
Definition LN_rotate (k j : nat) (f : Frame) : Frame :=
  let X := fX f in
  let C := fC f in
  let S := fS f in
  let t2 := Set_ (ft2 f) j 0 (Get X k j) in
  let X := Set_ X (k+1) j
             (Get C k j * Get (ft1 f) j 0 + Get S k j * Get t2 j 0) in
  let t1 := Set_ (ft1 f) j 0
             (Get C k j * Get t2 j 0 - Conj (Get S k j) * Get (ft1 f) j 0) in
  mkFrame X (fW f) C S t1 t2.

Definition LN_first (j : nat) (f : Frame) : Frame :=
  withX f (Set_ (fX f) 0 j (Get (ft1 f) j 0)).

Definition LN (alpha : Fld) (H shifts X : Matrix) : Matrix :=
  let X := Scale alpha X in
  let m := Height X in
  let n := Width X in
  if m =? 0 then X
  else
    let f := mkFrame X (Zeros m n) (Zeros m n) (Zeros m n)
               (Zeros 0 0) (Zeros 0 0) in
    let f := For (upto 0 n) (LN_init H shifts m) f in
    let f := For (upto 0 (m-1))
               (fun k => For (upto 0 n) (LN_eliminate H shifts m k)) f in
    let f := For (upto 0 n) (LN_last m) f in
    let f := witht2 (witht1 f (Zeros n 1)) (Zeros n 1) in
    let f := For (upto 0 n) (LN_t1 m) f in
    let f := For (downfrom (m-1) 0)
               (fun k => For (upto 0 n) (LN_rotate k)) f in
    let f := For (upto 0 n) LN_first f in
    fX f.

(* -------------------------------------------------------------- *)
(** *** mshs::UN *)

Definition UN_init (H shifts : Matrix) (m : nat) (j : nat) (f : Frame)
  : Frame :=
  let W := MemCopyCol (fW f) j H (m-1) m in
  let W := Update W (m-1) j (- Get shifts j 0) in
  withW f W.

(** Body of the doubly nested loop that forms the RQ factorization and
    solves against R. *)
Definition UN_eliminate (H shifts : Matrix) (k j : nat) (f : Frame)
  : Frame :=
  let hT := View_ 0 (k-1) (k-1) 1 in
  let etakkm1 := Get H k (k-1) in
  let etakm1km1 := Get H (k-1) (k-1) in
  let X := fX f in
  let W := fW f in
  let g := ComputeGivens (Get W k j) etakkm1 in
  let c := gc g in
  let s := gs g in
  let C := Set_ (fC f) k j c in
  let S := Set_ (fS f) k j s in
  let rhokk := c * Get W k j + s * etakkm1 in
  let X := Set_ X k j (Get X k j / rhokk) in
  let mu := Get shifts j 0 in
  let xc := Get X k j * c in
  let xs := Get X k j * s in
  let xT := View_ 0 j (k-1) 1 in
  let wT := View_ 0 j (k-1) 1 in
  let X := Axpy (- xc) W wT X xT in
  let X := Axpy (- xs) H hT X xT in
  let X := Update X (k-1) j (- xc * Get W (k-1) j - xs * (etakm1km1 - mu)) in
  let W := ScaleView (- Conj s) W wT in
  let W := Axpy c H hT W wT in
  let W := Set_ W (k-1) j (- Conj s * Get W (k-1) j + c * (etakm1km1 - mu)) in
  mkFrame X W C S (ft1 f) (ft2 f).

(** Divide x(0) by R(0,0). *)
Definition UN_last (j : nat) (f : Frame) : Frame :=
  withX f (Set_ (fX f) 0 j (Get (fX f) 0 j / Get (fW f) 0 j)).

Definition UN_t1 (j : nat) (f : Frame) : Frame :=
  witht1 f (Set_ (ft1 f) j 0 (Get (fX f) 0 j)).

Definition UN_rotate (k j : nat) (f : Frame) : Frame :=
  let X := fX f in
  let C := fC f in
  let S := fS f in
  let t2 := Set_ (ft2 f) j 0 (Get X k j) in
  let X := Set_ X (k-1) j
             (Get C k j * Get (ft1 f) j 0 + Get S k j * Get t2 j 0) in
  let t1 := Set_ (ft1 f) j 0
             (Get C k j * Get t2 j 0 - Conj (Get S k j) * Get (ft1 f) j 0) in
  mkFrame X (fW f) C S t1 t2.

Definition UN_final (m : nat) (j : nat) (f : Frame) : Frame :=
  withX f (Set_ (fX f) (m-1) j (Get (ft1 f) j 0)).

Definition UN (alpha : Fld) (H shifts X : Matrix) : Matrix :=
  let X := Scale alpha X in
  let m := Height X in
  let n := Width X in
  if m =? 0 then X
  else
    let f := mkFrame X (Zeros m n) (Zeros m n) (Zeros m n)
               (Zeros 0 0) (Zeros 0 0) in
    let f := For (upto 0 n) (UN_init H shifts m) f in
    let f := For (downfrom m 1)
               (fun k => For (upto 0 n) (UN_eliminate H shifts k)) f in
    let f := For (upto 0 n) UN_last f in
    let f := witht2 (witht1 f (Zeros n 1)) (Zeros n 1) in
    let f := For (upto 0 n) UN_t1 f in
    let f := For (upto 1 m)
               (fun k => For (upto 0 n) (UN_rotate k)) f in
    let f := For (upto 0 n) (UN_final m) f in
    fX f.



(* -------------------------------------------------------------- *)
(** *** MultiShiftHessSolve *)

Inductive UpperOrLower : Type := LOWER | UPPER.
Inductive Orientation : Type := NORMAL | TRANSPOSE | ADJOINT.

(** The matrix [X] on return, or
    [LogicError("This option is not yet supported")]. *)
Inductive Solve : Type :=
| Solved (X : Matrix)
| LogicError_NotSupported.

Definition MultiShiftHessSolve (uplo : UpperOrLower)
    (orientation : Orientation) (alpha : Fld) (H shifts X : Matrix)
  : Solve :=
  match uplo with
  | LOWER =>
      match orientation with
      | NORMAL => Solved (LN alpha H shifts X)
      | _ => LogicError_NotSupported
      end
  | UPPER =>
      match orientation with
      | NORMAL => Solved (UN alpha H shifts X)
      | _ => LogicError_NotSupported
      end
  end.

(** [sumn n f] is the sum of [f 0], ..., [f (n-1)]. *)
Fixpoint sumn (n : nat) (f : nat -> Fld) : Fld :=
  match n with
  | O => 0
  | S n' => sumn n' f + f n'
  end.

(** Entry [(i,l)] of [H - mu I]. *)
Definition shifted (H : Matrix) (mu : Fld) (i l : nat) : Fld :=
  if i =? l then Get H i l - mu else Get H i l.

(** Row [i] of [(H - mu I) x]. *)
Definition apply_shifted (H : Matrix) (mu : Fld) (m : nat)
    (x : nat -> Fld) (i : nat) : Fld :=
  sumn m (fun l => shifted H mu i l * x l).

Definition LowerHessenberg (m : nat) (H : Matrix) : Prop :=
  forall i l, (i < m)%nat -> (l < m)%nat -> (i + 1 < l)%nat ->
              Get H i l = 0.

Definition UpperHessenberg (m : nat) (H : Matrix) : Prop :=
  forall i l, (i < m)%nat -> (l < m)%nat -> (l + 1 < i)%nat ->
              Get H i l = 0.

Section LNcolumn.
(** One column of the solve in [LN]: shift [mu], right-hand side [b]. *)
Variable H : Matrix.
Variable mu : Fld.
Variable m : nat.

(** The working vector [W(:,j)] on entry to step [k] of the
    elimination. *)
Fixpoint LN_w (k : nat) (i : nat) : Fld :=
  match k with
  | O => shifted H mu i 0
  | S k' =>
      let g := ComputeGivens (LN_w k' k') (Get H k' (k'+1)) in
      - Conj (gs g) * LN_w k' i + gc g * shifted H mu i (k'+1)
  end.

Definition LN_g (k : nat) : Givens :=
  ComputeGivens (LN_w k k) (Get H k (k+1)).

(** The divisors used by [LN]: [lambdakk] at the steps [k < m-1] and
    [W(m-1,j)] at the end. *)
Definition LN_pivot (k : nat) : Fld :=
  if (k + 1 <? m)%nat
  then gc (LN_g k) * LN_w k k + gs (LN_g k) * Get H k (k+1)
  else LN_w k k.
End LNcolumn.

Section UNcolumn.
Variable H : Matrix.
Variable mu : Fld.
Variable m : nat.

(** The working vector [W(:,j)] on entry to the step [k = m-1-t] of the
    elimination in [UN]. *)
Fixpoint UN_w (t : nat) (i : nat) : Fld :=
  match t with
  | O => shifted H mu i (m-1)
  | S t' =>
      let k := (m - 1 - t')%nat in
      let g := ComputeGivens (UN_w t' k) (Get H k (k-1)) in
      - Conj (gs g) * UN_w t' i + gc g * shifted H mu i (k-1)
  end.

Definition UN_g (k : nat) : Givens :=
  ComputeGivens (UN_w (m-1-k) k) (Get H k (k-1)).

(** The divisors used by [UN]: [rhokk] at the steps [k > 0] and
    [W(0,j)] at the end. *)
Definition UN_pivot (k : nat) : Fld :=
  if (0 <? k)%nat
  then gc (UN_g k) * UN_w (m-1-k) k + gs (UN_g k) * Get H k (k-1)
  else UN_w (m-1) 0.
End UNcolumn.

(** The residual check of the specification: row [i] of
    [(H - shift_j I) Y_j], for an [m]-row matrix [Y]. *)
Definition substitute_back (H shifts Y : Matrix) (m i j : nat) : Fld :=
  apply_shifted H (Get shifts j 0) m (fun l => Get Y l j) i.

(** What [lapack::ComputeGivens] guarantees, as recorded in the comments
    of [LN] and [UN]: the rotation annihilates the second component. *)
Definition GivensContract : Prop :=
  forall phi gamma : Fld,
    let g := ComputeGivens phi gamma in
    - Conj (gs g) * phi + gc g * gamma = 0.

End Solve.

Arguments Givens : clear implicits.
Arguments Matrix : clear implicits.
Arguments Frame : clear implicits.
Arguments Solve : clear implicits.

End Mshs.

(* ================================================================= *)
(** ** src/optimization/solvers/LP/direct/IPM/IPF.cpp *)

Module IPFModel.

Local Open Scope R_scope.

(** Column vectors ([Matrix<Real>] of width one, [DistMultiVec<Real>]). *)
Definition Vector := list R.

(** *** The level-1 kernels the loop calls, in exact arithmetic *)

Fixpoint Dot (a b : Vector) : R :=
  match a, b with
  | ai :: a', bi :: b' => ai * bi + Dot a' b'
  | _, _ => 0
  end.

Definition Nrm2 (v : Vector) : R := sqrt (Dot v v).

(** [Axpy( alpha, x, y )]: [y += alpha x]. *)
Fixpoint Axpy (alpha : R) (x y : Vector) : Vector :=
  match x, y with
  | xi :: x', yi :: y' => (alpha * xi + yi) :: Axpy alpha x' y'
  | _, _ => y
  end.

(** [DiagonalScale( LEFT, NORMAL, d, x )]: [x_i *= d_i]. *)
Fixpoint DiagonalScale (d x : Vector) : Vector :=
  match d, x with
  | di :: d', xi :: x' => (di * xi) :: DiagonalScale d' x'
  | _, _ => x
  end.

(** [DiagonalSolve( LEFT, NORMAL, d, x )]: [x_i /= d_i]. *)
Fixpoint DiagonalSolve (d x : Vector) : Vector :=
  match d, x with
  | di :: d', xi :: x' => (xi / di) :: DiagonalSolve d' x'
  | _, _ => x
  end.

Definition Ones (m : nat) : Vector := repeat 1 m.

(** [v *= a], [v -= w] and [Shift( v, a )]. *)
Definition Scale (a : R) (v : Vector) : Vector := map (Rmult a) v.
Fixpoint Sub (v w : Vector) : Vector :=
  match v, w with
  | vi :: v', wi :: w' => (vi - wi) :: Sub v' w'
  | _, _ => v
  end.
Definition Shift (v : Vector) (a : R) : Vector := map (fun vi => vi + a) v.

Definition nonpositive (a : R) : bool := if Rle_dec a 0 then true else false.
Definition NumNonPositive (v : Vector) : nat := length (filter nonpositive v).

Inductive Orientation : Type := NORMAL | TRANSPOSE.

(** What the loop needs of the constraint matrix, dense or sparse:
    its size and [y := alpha op(A) x + beta y] ([Gemv] or [Multiply]). *)
Record MatrixOps (M : Type) : Type := mkMatrixOps {
  Height : M -> nat;
  Width : M -> nat;
  Multiply : Orientation -> R -> M -> Vector -> R -> Vector -> Vector
}.
Arguments Height {M} _ _.
Arguments Width {M} _ _.
Arguments Multiply {M} _ _ _ _ _ _ _.

(** Dense matrices and [Gemv]. *)
Record Matrix : Type := mkMatrix {
  mHeight : nat;
  mWidth : nat;
  Get : nat -> nat -> R
}.

Fixpoint Rsum (n : nat) (f : nat -> R) : R :=
  match n with
  | O => 0
  | S n' => Rsum n' f + f n'
  end.

Definition Gemv (o : Orientation) (alpha : R) (A : Matrix) (x : Vector)
    (beta : R) (y : Vector) : Vector :=
  match o with
  | NORMAL =>
      map (fun i => alpha * Rsum (mWidth A) (fun j => Get A i j * nth j x 0)
                    + beta * nth i y 0)
          (seq 0 (mHeight A))
  | TRANSPOSE =>
      map (fun j => alpha * Rsum (mHeight A) (fun i => Get A i j * nth i x 0)
                    + beta * nth j y 0)
          (seq 0 (mWidth A))
  end.

Definition DenseOps : MatrixOps Matrix := mkMatrixOps Matrix mHeight mWidth Gemv.

(** *** Control structure *)

(** The enumeration has three values; the trailing
    [else LogicError("Invalid KKT system choice")] of the source is not
    reachable from a value of this type. *)
Inductive KKTSystem : Type := FULL_KKT | AUGMENTED_KKT | NORMAL_KKT.

Record RegQSDCtrl : Type := mkQSD {
  regPrimal : R;
  regDual : R;
  relTolRefine : R;
  maxRefineIts : Z
}.

Record IPFCtrl (LineSearchCtrl : Type) : Type := mkCtrl {
  equilibrate : bool;
  primalInit : bool;
  dualInit : bool;
  centering : R;
  system : KKTSystem;
  maxIts : Z;
  targetTol : R;
  minTol : R;
  print : bool;
  qsdCtrl : RegQSDCtrl;
  lineSearchCtrl : LineSearchCtrl
}.
Arguments equilibrate {_} _.
Arguments primalInit {_} _.
Arguments dualInit {_} _.
Arguments centering {_} _.
Arguments system {_} _.
Arguments maxIts {_} _.
Arguments targetTol {_} _.
Arguments minTol {_} _.
Arguments print {_} _.
Arguments qsdCtrl {_} _.
Arguments lineSearchCtrl {_} _.

(** *** Errors and loop outcomes *)

Inductive Error : Type :=
| LogicError_NonPositive (xNumNonPos zNumNonPos : nat)
| RuntimeError_MaxIts
| RuntimeError_MinTol.

(** How one pass through the loop body ends: it falls through to the next
    iteration, it leaves the loop with [break], or it throws. *)
Inductive Outcome (St : Type) : Type :=
| Continue (s : St)
| Break (s : St)
| Throw (e : Error).
Arguments Continue {St} s.
Arguments Break {St} s.
Arguments Throw {St} e.

Inductive Result (St : Type) : Type :=
| Returned (s : St)
| Thrown (e : Error).
Arguments Returned {St} s.
Arguments Thrown {St} e.

(** [for( Int numIts=0; numIts<=maxIts; ++numIts )]: the indices visited
    when nothing leaves the loop early. *)
Definition iterations (maxIts : Z) : list Z :=
  map Z.of_nat (seq 0 (Z.to_nat (maxIts + 1))).

Fixpoint ForBreak {St : Type} (body : Z -> St -> Outcome St) (its : list Z)
    (s : St) : Result St :=
  match its with
  | [] => Returned s
  | numIts :: rest =>
      match body numIts s with
      | Continue s' => ForBreak body rest s'
      | Break s' => Returned s'
      | Throw e => Thrown e
      end
  end.

(** The iterate, and the data a regime carries from one iteration to the
    next besides it (nothing in the dense regimes; the symbolic
    factorization in the sparse ones). *)
Record Iterate (Aux : Type) : Type := mkIterate {
  ix : Vector;
  iy : Vector;
  iz : Vector;
  aux : Aux
}.
Arguments mkIterate {Aux} _ _ _ _.
Arguments ix {Aux} _.
Arguments iy {Aux} _.
Arguments iz {Aux} _.
Arguments aux {Aux} _.

Definition Direction : Type := (Vector * Vector * Vector)%type.

Section Loop.
Variable LineSearchCtrl : Type.
Variable M : Type.
Variable ops : MatrixOps M.
Variable Aux : Type.

(** [MaxStepInPositiveCone] and [IPFLineSearch] live in the utilities of
    the solver, outside the excerpt. *)
Variable MaxStepInPositiveCone : Vector -> Vector -> R -> R.
Variable IPFLineSearch :
  M -> Vector -> Vector -> Vector -> Vector -> Vector ->
  Vector -> Vector -> Vector -> R -> R -> R -> LineSearchCtrl -> R.

(** The regime's computation of the search direction: from the iteration
    number, the carried data, the iterate and the residuals [rc], [rb],
    [rmu], it gives the carried data afterwards and the direction, or
    [None] when the factorization or the solve inside [try] threw. *)
Variable direction :
  Z -> Aux -> Vector -> Vector -> Vector -> Vector -> Vector -> Vector ->
  Aux * option Direction.

Variable ctrl : IPFCtrl LineSearchCtrl.
Variables (A : M) (b c : Vector).
Variables (bNrm2 cNrm2 : R).

Definition objConv (x y : Vector) : R :=
  let primObj := Dot c x in
  let dualObj := - Dot b y in
  Rabs (primObj - dualObj) / (1 + Rabs primObj).

Definition residual_b (x : Vector) : Vector :=
  let rb := b in
  let rb := Scale (-1) rb in
  Multiply ops NORMAL 1 A x 1 rb.

Definition residual_c (y z : Vector) : Vector :=
  let rc := c in
  let rc := Multiply ops TRANSPOSE 1 A y 1 rc in
  Sub rc z.

Definition rbConv (x : Vector) : R := Nrm2 (residual_b x) / (1 + bNrm2).
Definition rcConv (y z : Vector) : R := Nrm2 (residual_c y z) / (1 + cNrm2).

Definition relError (x y z : Vector) : R :=
  Rmax (Rmax (objConv x y) (rbConv x)) (rcConv y z).

(** The soft-accept-or-fatal branch shared by the [catch] blocks and the
    zero step: [if( relError <= ctrl.minTol ) break; else RuntimeError]. *)
Definition acceptOrThrow (relErr : R) (s : Iterate Aux)
  : Outcome (Iterate Aux) :=
  if Rle_dec relErr (minTol ctrl) then Break s
  else Throw RuntimeError_MinTol.

(** The body of the loop. *)
Definition iteration (numIts : Z) (s : Iterate Aux)
  : Outcome (Iterate Aux) :=
  let x := ix s in
  let y := iy s in
  let z := iz s in
  let n := Width ops A in
  (* Ensure that x and z are in the cone *)
  let xNumNonPos := NumNonPositive x in
  let zNumNonPos := NumNonPositive z in
  if (0 <? xNumNonPos)%nat || (0 <? zNumNonPos)%nat
  then Throw (LogicError_NonPositive xNumNonPos zNumNonPos)
  else
  (* Compute the duality measure *)
  let mu := Dot x z / INR n in
  (* Check for convergence *)
  let rb := residual_b x in
  let rc := residual_c y z in
  let relErr := relError x y z in
  if Rle_dec relErr (targetTol ctrl) then Break s
  else
  if (numIts =? maxIts ctrl)%Z && (if Rgt_dec relErr (minTol ctrl) then true else false)
  then Throw RuntimeError_MaxIts
  else
  (* Compute the search direction *)
  let rmu := z in
  let rmu := DiagonalScale x rmu in
  let rmu := Shift rmu (- centering ctrl * mu) in
  match direction numIts (aux s) x y z rc rb rmu with
  | (aux', None) => acceptOrThrow relErr (mkIterate x y z aux')
  | (aux', Some (dx, dy, dz)) =>
      (* Take a step in the computed direction *)
      let alphaPrimal := MaxStepInPositiveCone x dx 1 in
      let alphaDual := MaxStepInPositiveCone z dz 1 in
      let alphaMax := Rmin alphaPrimal alphaDual in
      let alpha :=
        IPFLineSearch A b c x y z dx dy dz
          (99 / 100 * alphaMax)
          (targetTol ctrl * (1 + bNrm2))
          (targetTol ctrl * (1 + cNrm2)) (lineSearchCtrl ctrl) in
      let x := Axpy alpha dx x in
      let y := Axpy alpha dy y in
      let z := Axpy alpha dz z in
      if Req_dec_T alpha 0
      then acceptOrThrow relErr (mkIterate x y z aux')
      else Continue (mkIterate x y z aux')
  end.

(** Names for the intermediate values of the body. *)

(** The residual of centrality handed to the direction computation. *)
Definition rmu_of (s : Iterate Aux) : Vector :=
  Shift (DiagonalScale (ix s) (iz s))
    (- centering ctrl * (Dot (ix s) (iz s) / INR (Width ops A))).

(** What the direction computation returns in the iteration on [s]. *)
Definition direction_at (numIts : Z) (s : Iterate Aux)
  : Aux * option Direction :=
  direction numIts (aux s) (ix s) (iy s) (iz s)
    (residual_c (iy s) (iz s)) (residual_b (ix s))
    (rmu_of s).

(** The step length chosen for the direction [(dx,dy,dz)]. *)
Definition step_length (s : Iterate Aux) (d : Direction) : R :=
  let '(dx, dy, dz) := d in
  IPFLineSearch A b c (ix s) (iy s) (iz s) dx dy dz
    (99 / 100 * Rmin (MaxStepInPositiveCone (ix s) dx 1)
                     (MaxStepInPositiveCone (iz s) dz 1))
    (targetTol ctrl * (1 + bNrm2)) (targetTol ctrl * (1 + cNrm2))
    (lineSearchCtrl ctrl).

Definition stepped (s : Iterate Aux) (aux' : Aux) (d : Direction)
  : Iterate Aux :=
  let '(dx, dy, dz) := d in
  let alpha := step_length s d in
  mkIterate (Axpy alpha dx (ix s)) (Axpy alpha dy (iy s))
    (Axpy alpha dz (iz s)) aux'.

(** The iteration reaches the computation of the direction. *)
Definition reaches_direction (numIts : Z) (s : Iterate Aux) : Prop :=
  NumNonPositive (ix s) = 0%nat /\ NumNonPositive (iz s) = 0%nat /\
  relError (ix s) (iy s) (iz s) > targetTol ctrl /\
  ~ (numIts = maxIts ctrl /\ relError (ix s) (iy s) (iz s) > minTol ctrl).

End Loop.

Arguments residual_b {M} ops A b x.
Arguments residual_c {M} ops A c y z.
Arguments rbConv {M} ops A b bNrm2 x.
Arguments rcConv {M} ops A c cNrm2 y z.
Arguments relError {M} ops A b c bNrm2 cNrm2 x y z.
Arguments acceptOrThrow {LineSearchCtrl Aux} ctrl relErr s.
Arguments iteration {LineSearchCtrl M} ops {Aux} MaxStepInPositiveCone
  IPFLineSearch direction ctrl A b c bNrm2 cNrm2 numIts s.
Arguments rmu_of {LineSearchCtrl M} ops {Aux} ctrl A s.
Arguments direction_at {LineSearchCtrl M} ops {Aux} direction ctrl A b c
  numIts s.
Arguments step_length {LineSearchCtrl M Aux} MaxStepInPositiveCone
  IPFLineSearch ctrl A b c bNrm2 cNrm2 s d.
Arguments stepped {LineSearchCtrl M Aux} MaxStepInPositiveCone
  IPFLineSearch ctrl A b c bNrm2 cNrm2 s aux' d.
Arguments reaches_direction {LineSearchCtrl M} ops {Aux} ctrl A b c
  bNrm2 cNrm2 numIts s.


(** *** Equilibration of the problem and of the iterate (the same text in
    the four overloads) *)

Record Scaled (M : Type) : Type := mkScaled {
  eA : M; eb : Vector; ec : Vector;
  ex : Vector; ey : Vector; ez : Vector;
  dRow : Vector; dCol : Vector
}.
Arguments mkScaled {M} _ _ _ _ _ _ _ _.
Arguments eA {M} _.
Arguments eb {M} _.
Arguments ec {M} _.
Arguments ex {M} _.
Arguments ey {M} _.
Arguments ez {M} _.
Arguments dRow {M} _.
Arguments dCol {M} _.

Section Equilibration.
Variable LineSearchCtrl : Type.
Variable M : Type.
Variable ops : MatrixOps M.
(** [GeomEquil( A, dRow, dCol, print )], from the equilibration module. *)
Variable GeomEquil : M -> bool -> M * Vector * Vector.
Variable ctrl : IPFCtrl LineSearchCtrl.

Definition Equilibrate (APre : M) (bPre cPre x y z : Vector) : Scaled M :=
  let A := APre in
  let b := bPre in
  let c := cPre in
  let m := Height ops A in
  let n := Width ops A in
  if equilibrate ctrl then
    let '(A, dRow, dCol) := GeomEquil A (print ctrl) in
    let b := DiagonalSolve dRow b in
    let c := DiagonalSolve dCol c in
    let x := if primalInit ctrl then DiagonalScale dCol x else x in
    let y := if dualInit ctrl then DiagonalScale dRow y else y in
    let z := if dualInit ctrl then DiagonalSolve dCol z else z in
    mkScaled A b c x y z dRow dCol
  else
    mkScaled A b c x y z (Ones m) (Ones n).

(** The block after the loop. *)
Definition Unequilibrate (dRow dCol : Vector) (x y z : Vector)
  : Vector * Vector * Vector :=
  if equilibrate ctrl then
    let x := DiagonalSolve dCol x in
    let y := DiagonalSolve dRow y in
    let z := DiagonalScale dCol z in
    (x, y, z)
  else (x, y, z).

Definition finish {Aux : Type} (dRow dCol : Vector)
    (r : Result (Iterate Aux)) : Result (Vector * Vector * Vector) :=
  match r with
  | Thrown e => Thrown e
  | Returned s => Returned (Unequilibrate dRow dCol (ix s) (iy s) (iz s))
  end.
End Equilibration.

Arguments Equilibrate {LineSearchCtrl M} ops GeomEquil ctrl APre bPre cPre x y z.
Arguments Unequilibrate {LineSearchCtrl} ctrl dRow dCol x y z.
Arguments finish {LineSearchCtrl} ctrl {Aux} dRow dCol r.

(** *** The dense overloads ([Matrix] and [AbstractDistMatrix]) *)

(** The collaborators of the dense loop: KKT builders, the symmetric
    solver (which may throw), the line search. *)
Record DenseKernels (LineSearchCtrl : Type) : Type := mkDenseKernels {
  GeomEquil : Matrix -> bool -> Matrix * Vector * Vector;
  Initialize :
    Matrix -> Vector -> Vector -> Vector -> Vector -> Vector ->
    bool -> bool -> bool -> Vector * Vector * Vector;
  KKT : Matrix -> Vector -> Vector -> Matrix;
  KKTRHS : Vector -> Vector -> Vector -> Vector -> Vector;
  ExpandSolution : nat -> nat -> Vector -> Direction;
  AugmentedKKT : Matrix -> Vector -> Vector -> Matrix;
  AugmentedKKTRHS : Vector -> Vector -> Vector -> Vector -> Vector;
  ExpandAugmentedSolution :
    Vector -> Vector -> Vector -> Vector -> Direction;
  NormalKKT : Matrix -> Vector -> Vector -> Matrix;
  NormalKKTRHS :
    Matrix -> Vector -> Vector -> Vector -> Vector -> Vector -> Vector;
  ExpandNormalSolution :
    Matrix -> Vector -> Vector -> Vector -> Vector -> Vector -> Vector ->
    Direction;
  (** [symm_solve::Overwrite( LOWER, NORMAL, J, d )]; [None] when it
      throws. *)
  symm_solve_Overwrite : Matrix -> Vector -> option Vector;
  MaxStepInPositiveCone : Vector -> Vector -> R -> R;
  IPFLineSearch :
    Matrix -> Vector -> Vector -> Vector -> Vector -> Vector ->
    Vector -> Vector -> Vector -> R -> R -> R -> LineSearchCtrl -> R
}.
Arguments GeomEquil {_} _.
Arguments Initialize {_} _.
Arguments KKT {_} _.
Arguments KKTRHS {_} _.
Arguments ExpandSolution {_} _.
Arguments AugmentedKKT {_} _.
Arguments AugmentedKKTRHS {_} _.
Arguments ExpandAugmentedSolution {_} _.
Arguments NormalKKT {_} _.
Arguments NormalKKTRHS {_} _.
Arguments ExpandNormalSolution {_} _.
Arguments symm_solve_Overwrite {_} _.
Arguments MaxStepInPositiveCone {_} _.
Arguments IPFLineSearch {_} _.

Section Dense.
Variable LineSearchCtrl : Type.
Variable K : DenseKernels LineSearchCtrl.
Variable ctrl : IPFCtrl LineSearchCtrl.

Definition dense_direction (A : Matrix) (c : Vector)
    (numIts : Z) (a : unit) (x y z rc rb rmu : Vector)
  : unit * option Direction :=
  let m := mHeight A in
  let n := mWidth A in
  match system ctrl with
  | FULL_KKT =>
      let J := KKT K A x z in
      let d := KKTRHS K rc rb rmu z in
      match symm_solve_Overwrite K J d with
      | None => (a, None)
      | Some d => (a, Some (ExpandSolution K m n d))
      end
  | AUGMENTED_KKT =>
      let J := AugmentedKKT K A x z in
      let d := AugmentedKKTRHS K x rc rb rmu in
      match symm_solve_Overwrite K J d with
      | None => (a, None)
      | Some d => (a, Some (ExpandAugmentedSolution K x z rmu d))
      end
  | NORMAL_KKT =>
      let J := NormalKKT K A x z in
      let dy := NormalKKTRHS K A x z rc rb rmu in
      match symm_solve_Overwrite K J dy with
      | None => (a, None)
      | Some dy => (a, Some (ExpandNormalSolution K A c x z rc rmu dy))
      end
  end.

Definition dense_iteration (A : Matrix) (b c : Vector) (bNrm2 cNrm2 : R)
  : Z -> Iterate unit -> Outcome (Iterate unit) :=
  iteration DenseOps (MaxStepInPositiveCone K) (IPFLineSearch K)
    (dense_direction A c) ctrl A b c bNrm2 cNrm2.

(** Everything up to the end of the loop, with the scalings kept for the
    block after it. *)
Definition IPF_loop (APre : Matrix) (bPre cPre x y z : Vector)
  : Scaled Matrix * Result (Iterate unit) :=
  let e := Equilibrate DenseOps (GeomEquil K) ctrl APre bPre cPre x y z in
  let A := eA e in
  let b := eb e in
  let c := ec e in
  let bNrm2 := Nrm2 b in
  let cNrm2 := Nrm2 c in
  let standardShift := true in
  let '(x, y, z) :=
    Initialize K A b c (ex e) (ey e) (ez e)
      (primalInit ctrl) (dualInit ctrl) standardShift in
  (e, ForBreak (dense_iteration A b c bNrm2 cNrm2)
        (iterations (maxIts ctrl)) (mkIterate x y z tt)).

Definition IPF (APre : Matrix) (bPre cPre x y z : Vector)
  : Result (Vector * Vector * Vector) :=
  let '(e, r) := IPF_loop APre bPre cPre x y z in
  finish ctrl (dRow e) (dCol e) r.
End Dense.

Arguments dense_direction {LineSearchCtrl} K ctrl A c numIts a x y z rc rb rmu.
Arguments dense_iteration {LineSearchCtrl} K ctrl A b c bNrm2 cNrm2 _ _.
Arguments IPF_loop {LineSearchCtrl} K ctrl APre bPre cPre x y z.
Arguments IPF {LineSearchCtrl} K ctrl APre bPre cPre x y z.


(** *** The sparse overloads ([SparseMatrix] and [DistSparseMatrix]) *)

Inductive LDLFrontType : Type := LDL_2D | LDL_INTRAPIV_1D.

(** The storage classes and the collaborators of the sparse loops: the
    sparse matrix with its products, the symbolic analysis (ordering,
    separator tree, node information), the numeric front, the
    multiplication metadata of the distributed matrix, and the routines on
    them. [LDL] and the two solvers return [None] when they throw. *)
Record SparseKernels (LineSearchCtrl : Type) : Type := mkSparseKernels {
  SparseMatrix : Type;
  Graph : Type;
  Map : Type;
  Separator : Type;
  NodeInfo : Type;
  Front : Type;
  MultMeta : Type;
  sparseOps : MatrixOps SparseMatrix;
  emptyMap : Map;
  emptySeparator : Separator;
  emptyNodeInfo : NodeInfo;
  emptyMultMeta : MultMeta;
  sGeomEquil : SparseMatrix -> bool -> SparseMatrix * Vector * Vector;
  sInitialize :
    SparseMatrix -> Vector -> Vector -> Vector -> Vector -> Vector ->
    bool -> bool -> bool -> RegQSDCtrl ->
    (Vector * Vector * Vector) * (Map * Map * Separator * NodeInfo);
  sKKT : SparseMatrix -> Vector -> Vector -> bool -> SparseMatrix;
  sKKTRHS : Vector -> Vector -> Vector -> Vector -> Vector;
  sExpandSolution : nat -> nat -> Vector -> Direction;
  sAugmentedKKT : SparseMatrix -> Vector -> Vector -> bool -> SparseMatrix;
  sAugmentedKKTRHS : Vector -> Vector -> Vector -> Vector -> Vector;
  sExpandAugmentedSolution :
    Vector -> Vector -> Vector -> Vector -> Direction;
  sNormalKKT : SparseMatrix -> Vector -> Vector -> bool -> SparseMatrix;
  sNormalKKTRHS :
    SparseMatrix -> Vector -> Vector -> Vector -> Vector -> Vector ->
    Vector;
  sExpandNormalSolution :
    SparseMatrix -> Vector -> Vector -> Vector -> Vector -> Vector ->
    Vector -> Direction;
  SymmetricGeomEquil : SparseMatrix -> bool -> SparseMatrix * Vector;
  UpdateRealPartOfDiagonal : SparseMatrix -> R -> Vector -> SparseMatrix;
  LockedGraph : SparseMatrix -> Graph;
  NestedDissection : Graph -> Map * Separator * NodeInfo;
  InvertMap : Map -> Map;
  Pull : SparseMatrix -> Map -> NodeInfo -> Front;
  PullDist : SparseMatrix -> Map -> Separator -> NodeInfo -> Front;
  InitializeMultMeta : SparseMatrix -> SparseMatrix * MultMeta;
  SetMultMeta : SparseMatrix -> MultMeta -> SparseMatrix;
  LDL : NodeInfo -> Front -> LDLFrontType -> option Front;
  SolveAfter :
    SparseMatrix -> Vector -> Vector -> Map -> NodeInfo -> Front ->
    Vector -> RegQSDCtrl -> option Vector;
  SolveWithIterativeRefinement :
    SparseMatrix -> Map -> NodeInfo -> Front -> Vector -> R -> Z ->
    option Vector;
  sMaxStepInPositiveCone : Vector -> Vector -> R -> R;
  sIPFLineSearch :
    SparseMatrix -> Vector -> Vector -> Vector -> Vector -> Vector ->
    Vector -> Vector -> Vector -> R -> R -> R -> LineSearchCtrl -> R
}.
Arguments SparseMatrix {_} _.
Arguments Graph {_} _.
Arguments Map {_} _.
Arguments Separator {_} _.
Arguments NodeInfo {_} _.
Arguments Front {_} _.
Arguments MultMeta {_} _.
Arguments sparseOps {_} _.
Arguments emptyMap {_} _.
Arguments emptySeparator {_} _.
Arguments emptyNodeInfo {_} _.
Arguments emptyMultMeta {_} _.
Arguments sGeomEquil {_} _.
Arguments sInitialize {_} _.
Arguments sKKT {_} _.
Arguments sKKTRHS {_} _.
Arguments sExpandSolution {_} _.
Arguments sAugmentedKKT {_} _.
Arguments sAugmentedKKTRHS {_} _.
Arguments sExpandAugmentedSolution {_} _.
Arguments sNormalKKT {_} _.
Arguments sNormalKKTRHS {_} _.
Arguments sExpandNormalSolution {_} _.
Arguments SymmetricGeomEquil {_} _.
Arguments UpdateRealPartOfDiagonal {_} _.
Arguments LockedGraph {_} _.
Arguments NestedDissection {_} _.
Arguments InvertMap {_} _.
Arguments Pull {_} _.
Arguments PullDist {_} _.
Arguments InitializeMultMeta {_} _.
Arguments SetMultMeta {_} _.
Arguments LDL {_} _.
Arguments SolveAfter {_} _.
Arguments SolveWithIterativeRefinement {_} _.
Arguments sMaxStepInPositiveCone {_} _.
Arguments sIPFLineSearch {_} _.

Section Sparse.
Variable LineSearchCtrl : Type.
Variable K : SparseKernels LineSearchCtrl.
Variable ctrl : IPFCtrl LineSearchCtrl.

(** The variables [map], [invMap], [rootSep], [info] of the sparse
    overloads, and [metaOrig], [meta] of the distributed one. [ndCalls] is
    not a variable of the source: it records the iteration numbers at which
    [NestedDissection] was called inside the loop. *)
Record SparseAux : Type := mkSparseAux {
  map_ : Map K;
  invMap : Map K;
  rootSep : Separator K;
  info : NodeInfo K;
  metaOrig : MultMeta K;
  meta : MultMeta K;
  ndCalls : list Z
}.

(** [NestedDissection( J.LockedGraph(), map, rootSep, info );
     InvertMap( map, invMap );] *)
Definition runNestedDissection (J : SparseMatrix K) (numIts : Z)
    (a : SparseAux) : SparseAux :=
  let '(map', rootSep', info') := NestedDissection K (LockedGraph K J) in
  let invMap' := InvertMap K map' in
  mkSparseAux map' invMap' rootSep' info' (metaOrig a) (meta a)
    (ndCalls a ++ [numIts]).

(** The vector [reg] built before the loop. *)
Definition regVector (m n : nat) : Vector :=
  let entry (i : nat) : R :=
    if (i <? n)%nat then regPrimal (qsdCtrl ctrl)
    else - regDual (qsdCtrl ctrl) in
  match system ctrl with
  | FULL_KKT => List.map entry (seq 0 (m + 2 * n))
  | AUGMENTED_KKT => List.map entry (seq 0 (n + m))
  | NORMAL_KKT => []
  end.

(** The two calls inside [try] of the regularized systems. *)
Definition factorAndSolveAfter (JOrig : SparseMatrix K) (reg dInner : Vector)
    (a : SparseAux) (JFront : Front K) (d : Vector) : option Vector :=
  match LDL K (info a) JFront LDL_2D with
  | None => None
  | Some JFront =>
      SolveAfter K JOrig reg dInner (invMap a) (info a) JFront d
        (qsdCtrl ctrl)
  end.

Definition factorAndRefine (front : LDLFrontType) (J : SparseMatrix K)
    (a : SparseAux) (JFront : Front K) (dy : Vector) : option Vector :=
  match LDL K (info a) JFront front with
  | None => None
  | Some JFront =>
      SolveWithIterativeRefinement K J (invMap a) (info a) JFront dy
        (relTolRefine (qsdCtrl ctrl)) (maxRefineIts (qsdCtrl ctrl))
  end.

(** The direction in the sequential sparse overload. *)
Definition sparse_direction (A : SparseMatrix K) (c reg : Vector)
    (numIts : Z) (a : SparseAux) (x y z rc rb rmu : Vector)
  : SparseAux * option Direction :=
  let m := Height (sparseOps K) A in
  let n := Width (sparseOps K) A in
  match system ctrl with
  | FULL_KKT =>
      let JOrig := sKKT K A x z false in
      let J := JOrig in
      let '(J, dInner) := SymmetricGeomEquil K J (print ctrl) in
      let J := UpdateRealPartOfDiagonal K J 1 reg in
      let a := if (numIts =? 0)%Z then runNestedDissection J numIts a
               else a in
      let JFront := Pull K J (map_ a) (info a) in
      let d := sKKTRHS K rc rb rmu z in
      match factorAndSolveAfter JOrig reg dInner a JFront d with
      | None => (a, None)
      | Some d => (a, Some (sExpandSolution K m n d))
      end
  | AUGMENTED_KKT =>
      let JOrig := sAugmentedKKT K A x z false in
      let J := JOrig in
      let '(J, dInner) := SymmetricGeomEquil K J (print ctrl) in
      let J := UpdateRealPartOfDiagonal K J 1 reg in
      let a := if primalInit ctrl && dualInit ctrl && (numIts =? 0)%Z
               then runNestedDissection J numIts a
               else a in
      let JFront := Pull K J (map_ a) (info a) in
      let d := sAugmentedKKTRHS K x rc rb rmu in
      match factorAndSolveAfter JOrig reg dInner a JFront d with
      | None => (a, None)
      | Some d => (a, Some (sExpandAugmentedSolution K x z rmu d))
      end
  | NORMAL_KKT =>
      let J := sNormalKKT K A x z false in
      let a := if (numIts =? 0)%Z then runNestedDissection J numIts a
               else a in
      let JFront := Pull K J (map_ a) (info a) in
      let dy := sNormalKKTRHS K A x z rc rb rmu in
      match factorAndRefine LDL_2D J a JFront dy with
      | None => (a, None)
      | Some dy => (a, Some (sExpandNormalSolution K A c x z rc rmu dy))
      end
  end.

(** [if( numIts == 0 ) metaOrig = JOrig.InitializeMultMeta();
     else JOrig.multMeta = metaOrig;] *)
Definition cacheMetaOrig (JOrig : SparseMatrix K) (numIts : Z)
    (a : SparseAux) : SparseMatrix K * SparseAux :=
  if (numIts =? 0)%Z then
    let '(JOrig, mt) := InitializeMultMeta K JOrig in
    (JOrig, mkSparseAux (map_ a) (invMap a) (rootSep a) (info a) mt (meta a)
              (ndCalls a))
  else (SetMultMeta K JOrig (metaOrig a), a).

(** The direction in the distributed sparse overload. *)
Definition distsparse_direction (A : SparseMatrix K) (c reg : Vector)
    (numIts : Z) (a : SparseAux) (x y z rc rb rmu : Vector)
  : SparseAux * option Direction :=
  let m := Height (sparseOps K) A in
  let n := Width (sparseOps K) A in
  match system ctrl with
  | FULL_KKT =>
      let JOrig := sKKT K A x z false in
      let '(JOrig, a) := cacheMetaOrig JOrig numIts a in
      let J := JOrig in
      let '(J, dInner) := SymmetricGeomEquil K J (print ctrl) in
      let J := UpdateRealPartOfDiagonal K J 1 reg in
      let '(J, a) :=
        if (numIts =? 0)%Z then
          let '(J, mt) := InitializeMultMeta K J in
          let a := mkSparseAux (map_ a) (invMap a) (rootSep a) (info a)
                     (metaOrig a) mt (ndCalls a) in
          (J, runNestedDissection J numIts a)
        else (SetMultMeta K J (meta a), a) in
      let JFront := PullDist K J (map_ a) (rootSep a) (info a) in
      let d := sKKTRHS K rc rb rmu z in
      match factorAndSolveAfter JOrig reg dInner a JFront d with
      | None => (a, None)
      | Some d => (a, Some (sExpandSolution K m n d))
      end
  | AUGMENTED_KKT =>
      let JOrig := sAugmentedKKT K A x z false in
      let '(JOrig, a) := cacheMetaOrig JOrig numIts a in
      let J := JOrig in
      let '(J, dInner) := SymmetricGeomEquil K J (print ctrl) in
      let J := UpdateRealPartOfDiagonal K J 1 reg in
      let '(J, a) :=
        if (numIts =? 0)%Z then
          let '(J, mt) := InitializeMultMeta K J in
          let a := mkSparseAux (map_ a) (invMap a) (rootSep a) (info a)
                     (metaOrig a) mt (ndCalls a) in
          if primalInit ctrl && dualInit ctrl
          then (J, runNestedDissection J numIts a)
          else (J, a)
        else (SetMultMeta K J (meta a), a) in
      let JFront := PullDist K J (map_ a) (rootSep a) (info a) in
      let d := sAugmentedKKTRHS K x rc rb rmu in
      match factorAndSolveAfter JOrig reg dInner a JFront d with
      | None => (a, None)
      | Some d => (a, Some (sExpandAugmentedSolution K x z rmu d))
      end
  | NORMAL_KKT =>
      let J := sNormalKKT K A x z false in
      let '(J, a) :=
        if (numIts =? 0)%Z then
          let '(J, mt) := InitializeMultMeta K J in
          let a := mkSparseAux (map_ a) (invMap a) (rootSep a) (info a)
                     (metaOrig a) mt (ndCalls a) in
          (J, runNestedDissection J numIts a)
        else (SetMultMeta K J (meta a), a) in
      let JFront := PullDist K J (map_ a) (rootSep a) (info a) in
      let dy := sNormalKKTRHS K A x z rc rb rmu in
      match factorAndRefine LDL_INTRAPIV_1D J a JFront dy with
      | None => (a, None)
      | Some dy => (a, Some (sExpandNormalSolution K A c x z rc rmu dy))
      end
  end.

Inductive SparseRegime : Type := Sequential | Distributed.

Definition regime_direction (r : SparseRegime) :=
  match r with
  | Sequential => sparse_direction
  | Distributed => distsparse_direction
  end.

(** What the [try] block of an iteration computes, as a function of the
    symbolic analysis it works with: the front is pulled from the (in the
    regularized systems, equilibrated and regularized) matrix with the
    ordering and the node information held in [an], factored by [LDL], and
    the solver is run on the right-hand side of the system. [a] is the data
    the iteration received; the distributed overload takes from it the
    multiplication metadata it stores in [JOrig] and in [J]. *)
Definition sparse_solve (r : SparseRegime) (A : SparseMatrix K)
    (reg : Vector) (numIts : Z) (a an : SparseAux) (x z rc rb rmu : Vector)
  : option Vector :=
  let original (JOrig : SparseMatrix K) : SparseMatrix K :=
    match r with
    | Sequential => JOrig
    | Distributed => fst (cacheMetaOrig JOrig numIts a)
    end in
  let withMeta (J : SparseMatrix K) : SparseMatrix K :=
    match r with
    | Sequential => J
    | Distributed =>
        if (numIts =? 0)%Z then fst (InitializeMultMeta K J)
        else SetMultMeta K J (meta a)
    end in
  let pull (J : SparseMatrix K) : Front K :=
    match r with
    | Sequential => Pull K J (map_ an) (info an)
    | Distributed => PullDist K J (map_ an) (rootSep an) (info an)
    end in
  match system ctrl with
  | FULL_KKT =>
      let JOrig := original (sKKT K A x z false) in
      let '(J, dInner) := SymmetricGeomEquil K JOrig (print ctrl) in
      let J := withMeta (UpdateRealPartOfDiagonal K J 1 reg) in
      let d := sKKTRHS K rc rb rmu z in
      factorAndSolveAfter JOrig reg dInner an (pull J) d
  | AUGMENTED_KKT =>
      let JOrig := original (sAugmentedKKT K A x z false) in
      let '(J, dInner) := SymmetricGeomEquil K JOrig (print ctrl) in
      let J := withMeta (UpdateRealPartOfDiagonal K J 1 reg) in
      let d := sAugmentedKKTRHS K x rc rb rmu in
      factorAndSolveAfter JOrig reg dInner an (pull J) d
  | NORMAL_KKT =>
      let J := withMeta (sNormalKKT K A x z false) in
      let dy := sNormalKKTRHS K A x z rc rb rmu in
      let front :=
        match r with
        | Sequential => LDL_2D
        | Distributed => LDL_INTRAPIV_1D
        end in
      factorAndRefine front J an (pull J) dy
  end.

(** The expansion of the solution of the system into [(dx,dy,dz)], after
    the [try] block. *)
Definition sparse_expand (A : SparseMatrix K) (c x z rc rmu d : Vector)
  : Direction :=
  match system ctrl with
  | FULL_KKT =>
      sExpandSolution K (Height (sparseOps K) A) (Width (sparseOps K) A) d
  | AUGMENTED_KKT => sExpandAugmentedSolution K x z rmu d
  | NORMAL_KKT => sExpandNormalSolution K A c x z rc rmu d
  end.

Definition sparse_iteration (r : SparseRegime) (A : SparseMatrix K)
    (b c : Vector) (bNrm2 cNrm2 : R) (reg : Vector)
  : Z -> Iterate SparseAux -> Outcome (Iterate SparseAux) :=
  iteration (sparseOps K) (sMaxStepInPositiveCone K) (sIPFLineSearch K)
    (regime_direction r A c reg) ctrl A b c bNrm2 cNrm2.

(** The data carried into the loop: the analysis of [Initialize] when the
    system is the augmented one, default-constructed objects otherwise. *)
Definition initialAux
    (analysis : Map K * Map K * Separator K * NodeInfo K) : SparseAux :=
  match system ctrl with
  | AUGMENTED_KKT =>
      let '(map0, invMap0, rootSep0, info0) := analysis in
      mkSparseAux map0 invMap0 rootSep0 info0
        (emptyMultMeta K) (emptyMultMeta K) []
  | _ =>
      mkSparseAux (emptyMap K) (emptyMap K) (emptySeparator K)
        (emptyNodeInfo K) (emptyMultMeta K) (emptyMultMeta K) []
  end.

Definition IPF_sparse_loop (r : SparseRegime) (APre : SparseMatrix K)
    (bPre cPre x y z : Vector)
  : Scaled (SparseMatrix K) * Result (Iterate SparseAux) :=
  let e := Equilibrate (sparseOps K) (sGeomEquil K) ctrl
             APre bPre cPre x y z in
  let A := eA e in
  let b := eb e in
  let c := ec e in
  let m := Height (sparseOps K) A in
  let n := Width (sparseOps K) A in
  let bNrm2 := Nrm2 b in
  let cNrm2 := Nrm2 c in
  let standardShift := true in
  let '((x, y, z), analysis) :=
    sInitialize K A b c (ex e) (ey e) (ez e)
      (primalInit ctrl) (dualInit ctrl) standardShift (qsdCtrl ctrl) in
  let reg := regVector m n in
  (e, ForBreak (sparse_iteration r A b c bNrm2 cNrm2 reg)
        (iterations (maxIts ctrl)) (mkIterate x y z (initialAux analysis))).

Definition IPF_sparse (r : SparseRegime) (APre : SparseMatrix K)
    (bPre cPre x y z : Vector) : Result (Vector * Vector * Vector) :=
  let '(e, res) := IPF_sparse_loop r APre bPre cPre x y z in
  finish ctrl (dRow e) (dCol e) res.
End Sparse.

Arguments SparseAux {LineSearchCtrl} K.
Arguments mkSparseAux {LineSearchCtrl K} _ _ _ _ _ _ _.
Arguments map_ {LineSearchCtrl K} _.
Arguments invMap {LineSearchCtrl K} _.
Arguments rootSep {LineSearchCtrl K} _.
Arguments info {LineSearchCtrl K} _.
Arguments metaOrig {LineSearchCtrl K} _.
Arguments meta {LineSearchCtrl K} _.
Arguments ndCalls {LineSearchCtrl K} _.
Arguments runNestedDissection {LineSearchCtrl K} J numIts a.
Arguments regVector {LineSearchCtrl} ctrl m n.
Arguments sparse_direction {LineSearchCtrl} K ctrl A c reg numIts a
  x y z rc rb rmu.
Arguments distsparse_direction {LineSearchCtrl} K ctrl A c reg numIts a
  x y z rc rb rmu.
Arguments regime_direction {LineSearchCtrl} K ctrl r A c reg numIts a
  x y z rc rb rmu.
Arguments sparse_solve {LineSearchCtrl} K ctrl r A reg numIts a an
  x z rc rb rmu.
Arguments sparse_expand {LineSearchCtrl} K ctrl A c x z rc rmu d.
Arguments sparse_iteration {LineSearchCtrl} K ctrl r A b c bNrm2 cNrm2 reg
  _ _.
Arguments initialAux {LineSearchCtrl} K ctrl analysis.
Arguments IPF_sparse_loop {LineSearchCtrl} K ctrl r APre bPre cPre x y z.
Arguments IPF_sparse {LineSearchCtrl} K ctrl r APre bPre cPre x y z.

(** *** The two halves of a run: everything before the loop, and the
    body of the loop on the equilibrated problem *)

(** The equilibrated problem and the initialized iterate with which the
    loop is entered. *)
Definition dense_entry {LS : Type} (K : DenseKernels LS) (ctrl : IPFCtrl LS)
    (APre : Matrix) (bPre cPre x y z : Vector)
  : Scaled Matrix * Iterate unit :=
  let e := Equilibrate DenseOps (GeomEquil K) ctrl APre bPre cPre x y z in
  let '(x0, y0, z0) :=
    Initialize K (eA e) (eb e) (ec e) (ex e) (ey e) (ez e)
      (primalInit ctrl) (dualInit ctrl) true in
  (e, mkIterate x0 y0 z0 tt).

Definition sparse_entry {LS : Type} (K : SparseKernels LS) (ctrl : IPFCtrl LS)
    (APre : SparseMatrix K) (bPre cPre x y z : Vector)
  : Scaled (SparseMatrix K) * Iterate (SparseAux K) :=
  let e := Equilibrate (sparseOps K) (sGeomEquil K) ctrl
             APre bPre cPre x y z in
  let '((x0, y0, z0), analysis) :=
    sInitialize K (eA e) (eb e) (ec e) (ex e) (ey e) (ez e)
      (primalInit ctrl) (dualInit ctrl) true (qsdCtrl ctrl) in
  (e, mkIterate x0 y0 z0 (initialAux K ctrl analysis)).

(** The loop body of a run, on the equilibrated problem. *)
Definition dense_body {LS : Type} (K : DenseKernels LS) (ctrl : IPFCtrl LS)
    (e : Scaled Matrix) :=
  dense_iteration K ctrl (eA e) (eb e) (ec e) (Nrm2 (eb e)) (Nrm2 (ec e)).

Definition sparse_body {LS : Type} (K : SparseKernels LS) (ctrl : IPFCtrl LS)
    (r : SparseRegime) (e : Scaled (SparseMatrix K)) :=
  sparse_iteration K ctrl r (eA e) (eb e) (ec e) (Nrm2 (eb e)) (Nrm2 (ec e))
    (regVector ctrl (Height (sparseOps K) (eA e))
       (Width (sparseOps K) (eA e))).

End IPFModel.

(* ================================================================= *)
(** * Part II: properties *)

(* ================================================================= *)
(** ** SafeScale: termination and aggregate factor *)

Module SafeScaleProofs.
Import SafeScaleModel.
Import Lqa.
Local Open Scope Q_scope.

Lemma AbsGt_true a b : AbsGt a b = true <-> Qabs b < Qabs a.
Proof.
  unfold AbsGt. destruct (Qlt_le_dec (Qabs b) (Qabs a)); split; intros; try easy.
  lra.
Qed.

Lemma AbsGt_false a b : AbsGt a b = false <-> Qabs a <= Qabs b.
Proof.
  unfold AbsGt. destruct (Qlt_le_dec (Qabs b) (Qabs a)); split; intros; try easy.
  lra.
Qed.

Lemma Qabs_scale q s : 0 < s -> Qabs (q * s) == Qabs q * s.
Proof.
  intros Hs. rewrite Qabs_Qmult. rewrite (Qabs_pos s); [reflexivity | lra].
Qed.

Lemma div_big q s : 0 < s -> q / (1 / s) == q * s.
Proof. intros. field. lra. Qed.

Lemma Qabs_pos_nz q : ~ q == 0 -> 0 < Qabs q.
Proof.
  intros H. apply Qabs_case; intros H1.
  - destruct (Q_dec q 0) as [[H2|H2]|H2]; [lra | lra | contradiction].
  - destruct (Q_dec q 0) as [[H2|H2]|H2]; [lra | lra | contradiction].
Qed.

Lemma Qabs_zero q : q == 0 -> Qabs q == 0.
Proof. intros H. rewrite H. reflexivity. Qed.

Lemma nz_of_Qabs_pos q : 0 < Qabs q -> ~ q == 0.
Proof. intros H E. rewrite E in H. unfold Qabs in H; simpl in H. lra. Qed.

Ltac nzQ := first [assumption | let HH := fresh in intro HH; lra].

Section Facts.
Variable s : Q.
Hypothesis s_pos : 0 < s.
Hypothesis s_lt1 : s < 1.

Local Abbreviation step n d := (SafeScaleStep n d 0 s (1 / s)).

Lemma step_shrink_den n d :
  Qabs n < Qabs d * s -> ~ n == 0 ->
  step n d = mkStep false n (d * s) s.
Proof.
  intros H Hn. unfold SafeScaleStep.
  assert (E1 : AbsGt (d * s) n = true).
  { apply AbsGt_true. rewrite Qabs_scale; auto. }
  assert (E2 : Qeq_bool n 0 = false).
  { destruct (Qeq_bool n 0) eqn:E; auto. apply Qeq_bool_eq in E. contradiction. }
  rewrite E1, E2. reflexivity.
Qed.

Lemma step_first_guard_false n d :
  Qabs d * s <= Qabs n \/ n == 0 ->
  AbsGt (d * s) n && negb (Qeq_bool n 0) = false.
Proof.
  intros [H|H].
  - assert (E : AbsGt (d * s) n = false).
    { apply AbsGt_false. rewrite Qabs_scale; auto. }
    rewrite E. reflexivity.
  - assert (E : Qeq_bool n 0 = true) by (apply Qeq_eq_bool; exact H).
    rewrite E. apply andb_false_r.
Qed.

Lemma step_shrink_num n d :
  (Qabs d * s <= Qabs n \/ n == 0) -> Qabs d < Qabs n * s ->
  step n d = mkStep false (n / (1 / s)) d (1 / s).
Proof.
  intros H1 H2. unfold SafeScaleStep.
  rewrite step_first_guard_false by exact H1.
  assert (E : AbsGt (n / (1 / s)) d = true).
  { apply AbsGt_true. rewrite div_big, Qabs_scale; auto. }
  rewrite E. reflexivity.
Qed.

Lemma step_final n d :
  (Qabs d * s <= Qabs n \/ n == 0) -> Qabs n * s <= Qabs d ->
  step n d = mkStep true n d (n / d).
Proof.
  intros H1 H2. unfold SafeScaleStep.
  rewrite step_first_guard_false by exact H1.
  assert (E : AbsGt (n / (1 / s)) d = false).
  { apply AbsGt_false. rewrite div_big, Qabs_scale; auto. }
  rewrite E. reflexivity.
Qed.

(** Every call of the step falls in one of the three cases. *)
Lemma step_cases n d :
  (Qabs n < Qabs d * s /\ ~ n == 0 /\ step n d = mkStep false n (d * s) s) \/
  ((Qabs d * s <= Qabs n \/ n == 0) /\ Qabs d < Qabs n * s /\
     step n d = mkStep false (n / (1 / s)) d (1 / s)) \/
  ((Qabs d * s <= Qabs n \/ n == 0) /\ Qabs n * s <= Qabs d /\
     step n d = mkStep true n d (n / d)).
Proof.
  destruct (Qlt_le_dec (Qabs n) (Qabs d * s)) as [H1|H1].
  - destruct (Qeq_dec n 0) as [H0|H0].
    + assert (G : Qabs d * s <= Qabs n \/ n == 0) by (right; exact H0).
      destruct (Qlt_le_dec (Qabs d) (Qabs n * s)) as [H2|H2].
      * right; left. repeat split; auto using step_shrink_num.
      * right; right. repeat split; auto using step_final.
    + left. repeat split; auto using step_shrink_den.
  - assert (G : Qabs d * s <= Qabs n \/ n == 0) by (left; exact H1).
    destruct (Qlt_le_dec (Qabs d) (Qabs n * s)) as [H2|H2].
    * right; left. repeat split; auto using step_shrink_num.
    * right; right. repeat split; auto using step_final.
Qed.


Definition apply_factors (T : Type) (scale : Q -> T -> T)
    (fs : list Q) (A : T) : T :=
  fold_left (fun A a => scale a A) fs A.

Local Abbreviation loop T scale fuel n d A :=
  (SafeScale_loop T scale fuel n d 0 s (1 / s) A).

Lemma loop_S T scale fuel n d A :
  loop T scale (S fuel) n d A =
  if done (step n d) then Some (scale (alpha (step n d)) A)
  else loop T scale fuel (numerator' (step n d)) (denominator' (step n d))
         (scale (alpha (step n d)) A).
Proof. reflexivity. Qed.

Lemma bernoulli_step (a b k : Q) :
  0 < b -> 0 <= k ->
  a * s * s <= b * (s + (k + 1) * (1 - s)) ->
  a * s * s * s <= b * (s + k * (1 - s)).
Proof.
  intros Hb Hk H.
  assert (H1 : a * s * s * s <= b * (s + (k + 1) * (1 - s)) * s) by nra.
  assert (H2 : 0 <= b * k * ((1 - s) * (1 - s))).
  { apply Qmult_le_0_compat; nra. }
  nra.
Qed.

Lemma inject_nat_nonneg N : 0 <= inject_Z (Z.of_nat N).
Proof. change 0 with (inject_Z 0). rewrite <- Zle_Qle. lia. Qed.

Lemma inject_nat_S N :
  inject_Z (Z.of_nat (S N)) == inject_Z (Z.of_nat N) + 1.
Proof. rewrite Nat2Z.inj_succ. unfold Z.succ. rewrite inject_Z_plus. reflexivity. Qed.

(** Reduction phase on the denominator: [|d| s / |n|] is at most
    [1 + N (1/s - 1)], so at most [N] shrinking steps remain. *)
Lemma den_phase N : forall n d,
  ~ n == 0 -> ~ d == 0 -> Qabs n <= Qabs d ->
  Qabs d * s * s <= Qabs n * (s + inject_Z (Z.of_nat N) * (1 - s)) ->
  exists fs,
    (forall T scale A,
       loop T scale (S N) n d A = Some (apply_factors T scale fs A))
    /\ product fs == n / d.
Proof.
  induction N as [|N IH]; intros n d Hn Hd Hle Hb.
  - assert (Hfin : step n d = mkStep true n d (n / d)).
    { apply step_final.
      + left. simpl in Hb. unfold inject_Z in Hb.
        assert (0 < Qabs n) by (apply Qabs_pos_nz; auto).
        nra.
      + assert (0 <= Qabs n) by apply Qabs_nonneg. nra. }
    exists [n / d]. split; [|cbn; ring].
    intros T scale A. rewrite loop_S, Hfin. reflexivity.
  - destruct (step_cases n d) as [(H1 & H2 & E)|[(H1 & H2 & E)|(H1 & H2 & E)]].
    + assert (Hd' : ~ d * s == 0).
      { intros E0. apply Hd. apply Qmult_integral in E0. destruct E0; [auto|lra]. }
      destruct (IH n (d * s) Hn Hd') as (fs & Hr & Hp).
      * rewrite Qabs_scale by auto. lra.
      * rewrite Qabs_scale by auto. rewrite inject_nat_S in Hb.
        apply bernoulli_step; auto using inject_nat_nonneg.
        apply Qabs_pos_nz; auto.
      * exists (s :: fs). split.
        -- intros T scale A. rewrite loop_S, E.
           cbn [done alpha numerator' denominator']. rewrite Hr. reflexivity.
        -- cbn [product fold_right]. unfold product in Hp. rewrite Hp.
           field. split; nzQ.
    + exfalso. assert (0 <= Qabs n) by apply Qabs_nonneg. nra.
    + exists [n / d]. split; [|cbn; ring].
      intros T scale A. rewrite loop_S, E. reflexivity.
Qed.

(** Reduction phase on the numerator, symmetric to [den_phase]. *)
Lemma num_phase N : forall n d,
  ~ n == 0 -> ~ d == 0 -> Qabs d <= Qabs n ->
  Qabs n * s * s <= Qabs d * (s + inject_Z (Z.of_nat N) * (1 - s)) ->
  exists fs,
    (forall T scale A,
       loop T scale (S N) n d A = Some (apply_factors T scale fs A))
    /\ product fs == n / d.
Proof.
  induction N as [|N IH]; intros n d Hn Hd Hle Hb.
  - assert (Hfin : step n d = mkStep true n d (n / d)).
    { apply step_final.
      + left. assert (0 <= Qabs d) by apply Qabs_nonneg. nra.
      + simpl in Hb. unfold inject_Z in Hb.
        assert (0 < Qabs d) by (apply Qabs_pos_nz; auto).
        nra. }
    exists [n / d]. split; [|cbn; ring].
    intros T scale A. rewrite loop_S, Hfin. reflexivity.
  - destruct (step_cases n d) as [(H1 & H2 & E)|[(H1 & H2 & E)|(H1 & H2 & E)]].
    + exfalso. assert (0 <= Qabs d) by apply Qabs_nonneg. nra.
    + assert (Hn' : ~ n / (1 / s) == 0).
      { rewrite div_big by auto.
        intros E0. apply Hn. apply Qmult_integral in E0. destruct E0; [auto|lra]. }
      destruct (IH (n / (1 / s)) d Hn' Hd) as (fs & Hr & Hp).
      * rewrite div_big, Qabs_scale by auto. lra.
      * rewrite div_big, Qabs_scale by auto. rewrite inject_nat_S in Hb.
        apply bernoulli_step; auto using inject_nat_nonneg.
        apply Qabs_pos_nz; auto.
      * exists ((1 / s) :: fs). split.
        -- intros T scale A. rewrite loop_S, E.
           cbn [done alpha numerator' denominator']. rewrite Hr. reflexivity.
        -- cbn [product fold_right]. unfold product in Hp. rewrite Hp.
           field. split; nzQ.
    + exists [n / d]. split; [|cbn; ring].
      intros T scale A. rewrite loop_S, E. reflexivity.
Qed.

Lemma nat_above (q : Q) : exists N : nat, q <= inject_Z (Z.of_nat N).
Proof.
  exists (Z.to_nat (Qceiling q)).
  apply Qle_trans with (inject_Z (Qceiling q)); [apply Qle_ceiling|].
  rewrite <- Zle_Qle. lia.
Qed.

Lemma budget (a b : Q) :
  0 <= a -> 0 < b ->
  exists N : nat, a * s * s <= b * (s + inject_Z (Z.of_nat N) * (1 - s)).
Proof.
  intros Ha Hb.
  destruct (nat_above (a * s * s / (b * (1 - s)))) as [N HN].
  exists N.
  assert (Hc : 0 < b * (1 - s)) by nra.
  assert (a * s * s <= inject_Z (Z.of_nat N) * (b * (1 - s))).
  { assert (E : a * s * s == a * s * s / (b * (1 - s)) * (b * (1 - s)))
      by (field; repeat split; nzQ).
    rewrite E at 1. apply Qmult_le_compat_r; [exact HN | lra]. }
  nra.
Qed.

(** The loop of [SafeScale] stops for every numerator and every nonzero
    denominator, and the factors it applied multiply to the ratio. *)
Lemma SafeScale_runs n d :
  ~ d == 0 ->
  exists fuel fs,
    (forall T scale A,
       SafeScale s T scale fuel n d A = Some (apply_factors T scale fs A))
    /\ product fs == n / d.
Proof.
  intros Hd. unfold SafeScale.
  destruct (Qeq_dec n 0) as [Hn|Hn].
  - exists 1%nat, [n / d]. split; [|cbn; ring].
    intros T scale A. rewrite loop_S, step_final; [reflexivity | right; exact Hn |].
    rewrite (Qabs_zero n Hn). assert (0 <= Qabs d) by apply Qabs_nonneg. lra.
  - destruct (Qlt_le_dec (Qabs d) (Qabs n)) as [Hlt|Hle].
    + destruct (budget (Qabs n) (Qabs d)) as [N HN];
        [apply Qabs_nonneg | apply Qabs_pos_nz; exact Hd |].
      destruct (num_phase N n d Hn Hd) as (fs & Hr & Hp); [lra | exact HN |].
      exists (S N), fs. split; assumption.
    + destruct (budget (Qabs d) (Qabs n)) as [N HN];
        [apply Qabs_nonneg | apply Qabs_pos_nz; exact Hn |].
      destruct (den_phase N n d Hn Hd) as (fs & Hr & Hp); [lra | exact HN |].
      exists (S N), fs. split; assumption.
Qed.
End Facts.

Definition MatEq (A B : Matrix) : Prop := Forall2 (Forall2 Qeq) A B.

Lemma apply_factors_record fs : forall l0,
  apply_factors (list Q) record fs l0 = l0 ++ fs.
Proof.
  induction fs as [|a fs IH]; intros l0; cbn.
  - now rewrite app_nil_r.
  - unfold apply_factors in IH. rewrite IH. unfold record.
    now rewrite <- app_assoc.
Qed.

Lemma MatScale_compose a b (A : Matrix) :
  MatEq (MatScale b (MatScale a A)) (MatScale (a * b) A).
Proof.
  unfold MatEq, MatScale. induction A as [|row A IH]; cbn; constructor; auto.
  clear IH. induction row as [|e row IH]; cbn; constructor; auto. ring.
Qed.

Lemma MatScale_proper a b (A B : Matrix) :
  a == b -> MatEq A B -> MatEq (MatScale a A) (MatScale b B).
Proof.
  intros Hab H. unfold MatEq, MatScale in *.
  induction H as [|r1 r2 A B Hr HAB IH]; cbn; constructor; auto.
  clear IH HAB. induction Hr as [|x y r1 r2 Hxy Hr IH]; cbn; constructor; auto.
  rewrite Hab, Hxy. reflexivity.
Qed.

Lemma MatEq_refl A : MatEq A A.
Proof.
  unfold MatEq. induction A as [|r A IH]; constructor; auto.
  induction r; constructor; auto. reflexivity.
Qed.

Lemma MatEq_trans A B C : MatEq A B -> MatEq B C -> MatEq A C.
Proof.
  unfold MatEq. intros H; revert C.
  induction H as [|r1 r2 A B Hr HAB IH]; intros C HC; inversion HC; subst;
    constructor; auto.
  clear - Hr H1. revert y H1.
  induction Hr as [|x y r1 r2 Hxy Hr IH]; intros l Hl; inversion Hl; subst;
    constructor; auto.
  rewrite Hxy. assumption.
Qed.

Lemma MatScale_one A : MatEq A (MatScale 1 A).
Proof.
  unfold MatEq, MatScale. induction A as [|r A IH]; cbn; constructor; auto.
  clear IH. induction r; cbn; constructor; auto. symmetry. apply Qmult_1_l.
Qed.

Lemma apply_factors_MatScale fs : forall A,
  MatEq (apply_factors Matrix MatScale fs A) (MatScale (product fs) A).
Proof.
  induction fs as [|a fs IH]; intros A; cbn.
  - apply MatScale_one.
  - eapply MatEq_trans; [apply IH|].
    eapply MatEq_trans; [apply MatScale_compose|].
    apply MatScale_proper; [unfold product; cbn [fold_right]; ring | apply MatEq_refl].
Qed.

(** C8. For every numerator and every nonzero denominator the loop of
    [SafeScale] stops, and the factors it applied to the target multiply to
    exactly [numerator / denominator]: the matrix it returns is the input
    scaled entrywise by that ratio. [SafeMin] is the machine constant
    [limits::SafeMin], strictly between 0 and 1. *)
Theorem SafeScale_aggregate_ratio (SafeMin : Q) :
  0 < SafeMin -> SafeMin < 1 ->
  forall numerator denominator : Q, ~ denominator == 0 ->
  exists fuel factors,
    SafeScale_factors SafeMin fuel numerator denominator = Some factors /\
    product factors == numerator / denominator /\
    forall A : Matrix, exists A',
      SafeScale SafeMin Matrix MatScale fuel numerator denominator A = Some A' /\
      A' = apply_factors Matrix MatScale factors A /\
      MatEq A' (MatScale (numerator / denominator) A).
Proof.
  intros Hpos Hlt n d Hd.
  destruct (SafeScale_runs SafeMin Hpos Hlt n d Hd) as (fuel & fs & Hrun & Hp).
  exists fuel, fs. split; [|split; [exact Hp|]].
  - unfold SafeScale_factors. rewrite Hrun, apply_factors_record. reflexivity.
  - intros A. eexists. split; [apply Hrun|]. split; [reflexivity|].
    eapply MatEq_trans; [apply apply_factors_MatScale|].
    apply MatScale_proper; [exact Hp | apply MatEq_refl].
Qed.

Lemma SafeScale_aggregate_ratio_witness :
  exists fuel factors,
    SafeScale_factors (1 # 4) fuel 100 (1 # 3) = Some factors /\
    product factors == 100 / (1 # 3) /\
    forall A : Matrix, exists A',
      SafeScale (1 # 4) Matrix MatScale fuel 100 (1 # 3) A = Some A' /\
      A' = apply_factors Matrix MatScale factors A /\
      MatEq A' (MatScale (100 / (1 # 3)) A).
Proof.
  apply (SafeScale_aggregate_ratio (1 # 4)); [reflexivity | reflexivity |].
  intros H; discriminate H.
Defined.

(** C9. For every numerator and every nonzero denominator the loop of
    [SafeScale] terminates, whatever the target; and a step that does not
    finish keeps the denominator nonzero and strictly shrinks the magnitude
    of the denominator (numerator untouched) or of the numerator
    (denominator untouched). *)
Theorem SafeScale_terminates (SafeMin : Q) :
  0 < SafeMin -> SafeMin < 1 ->
  forall numerator denominator : Q, ~ denominator == 0 ->
  (exists fuel, forall (T : Type) (scale : Q -> T -> T) (A : T),
      SafeScale SafeMin T scale fuel numerator denominator A <> None) /\
  (forall r,
      r = SafeScaleStep numerator denominator 0 SafeMin (1 / SafeMin) ->
      done r = false ->
      ~ denominator' r == 0 /\
      ((numerator' r = numerator /\ Qabs (denominator' r) < Qabs denominator) \/
       (denominator' r = denominator /\ Qabs (numerator' r) < Qabs numerator))).
Proof.
  intros Hpos Hlt n d Hd. split.
  - destruct (SafeScale_runs SafeMin Hpos Hlt n d Hd) as (fuel & fs & Hrun & _).
    exists fuel. intros T scale A. rewrite Hrun. discriminate.
  - intros r Hr Hdone.
    assert (Hd0 : 0 < Qabs d) by (apply Qabs_pos_nz; exact Hd).
    destruct (step_cases SafeMin Hpos n d)
      as [(H1 & H2 & E)|[(H1 & H2 & E)|(H1 & H2 & E)]];
      rewrite E in Hr; subst r; cbn [done numerator' denominator'] in *.
    + split.
      * intros E0. apply Qmult_integral in E0. destruct E0; [auto|lra].
      * left. split; [reflexivity|]. rewrite Qabs_scale by auto. nra.
    + split; [exact Hd|]. right. split; [reflexivity|].
      rewrite div_big, Qabs_scale by auto. nra.
    + discriminate.
Qed.

Lemma SafeScale_terminates_witness :
  (exists fuel, forall (T : Type) (scale : Q -> T -> T) (A : T),
      SafeScale (1 # 4) T scale fuel 100 (1 # 3) A <> None) /\
  (forall r,
      r = SafeScaleStep 100 (1 # 3) 0 (1 # 4) (1 / (1 # 4)) ->
      done r = false ->
      ~ denominator' r == 0 /\
      ((numerator' r = 100 /\ Qabs (denominator' r) < Qabs (1 # 3)) \/
       (denominator' r = (1 # 3) /\ Qabs (numerator' r) < Qabs 100))).
Proof.
  apply (SafeScale_terminates (1 # 4)); [reflexivity | reflexivity |].
  intros H; discriminate H.
Defined.


(** *** The sequence of factors, for every number of iterations *)

Section Trace.
Variable s : Q.
Hypothesis s_pos : 0 < s.

Local Abbreviation step n d := (SafeScaleStep n d 0 s (1 / s)).

(** The factors of a run of at most [fuel] iterations. *)
Fixpoint trace (fuel : nat) (n d : Q) : option (list Q) :=
  match fuel with
  | O => None
  | S fuel' =>
      let r := step n d in
      if done r then Some [alpha r]
      else option_map (cons (alpha r))
             (trace fuel' (numerator' r) (denominator' r))
  end.

Lemma loop_trace (T : Type) (scale : Q -> T -> T) fuel : forall n d A,
  SafeScale_loop T scale fuel n d 0 s (1 / s) A
  = option_map (fun fs => apply_factors T scale fs A) (trace fuel n d).
Proof.
  induction fuel as [|fuel IH]; intros n d A; [reflexivity|].
  cbn [SafeScale_loop trace]. cbv zeta.
  destruct (done (step n d)); [reflexivity|].
  rewrite IH. destruct (trace fuel _ _) as [fs|]; reflexivity.
Qed.

Lemma factors_trace fuel n d : SafeScale_factors s fuel n d = trace fuel n d.
Proof.
  unfold SafeScale_factors, SafeScale. rewrite loop_trace.
  destruct (trace fuel n d) as [fs|]; [|reflexivity].
  cbn. rewrite apply_factors_record. reflexivity.
Qed.

Lemma trace_nonempty fuel : forall n d fs,
  trace fuel n d = Some fs -> fs <> [].
Proof.
  destruct fuel as [|fuel]; intros n d fs; [discriminate|].
  cbn [trace]. cbv zeta. destruct (done (step n d)).
  - intros E; injection E as <-. discriminate.
  - destruct (trace fuel _ _); cbn; [|discriminate].
    intros E; injection E as <-. discriminate.
Qed.

Definition well_scaled (n d : Q) : Prop :=
  (n == 0 \/ Qabs d * s <= Qabs n) /\ Qabs n * s <= Qabs d.

Lemma trace_single fuel n d :
  trace (S fuel) n d = Some [n / d] <-> well_scaled n d.
Proof.
  unfold well_scaled. cbn [trace]. cbv zeta.
  destruct (step_cases s s_pos n d)
    as [(H1 & H2 & E)|[(H1 & H2 & E)|(H1 & H2 & E)]];
    rewrite E; cbn [done alpha numerator' denominator'].
  - split.
    + destruct (trace fuel n (d * s)) as [fs|] eqn:Et; cbn; [|discriminate].
      intros Ef. injection Ef as _ Ef. apply trace_nonempty in Et.
      contradiction.
    + intros [[H0|H0] _]; [contradiction | lra].
  - split.
    + destruct (trace fuel _ d) as [fs|] eqn:Et; cbn; [|discriminate].
      intros Ef. injection Ef as _ Ef. apply trace_nonempty in Et.
      contradiction.
    + intros [_ H0]. lra.
  - split; [|reflexivity]. intros _. split; [|exact H2].
    destruct H1 as [H1|H1]; [right|left]; assumption.
Qed.

Hypothesis s_lt1 : s < 1.

Definition safe_factor (a : Q) : Prop := s <= Qabs a /\ Qabs a <= 1 / s.

Lemma inv_big : 1 < 1 / s.
Proof.
  assert (E : 1 == s * (1 / s)) by (field; lra).
  assert (0 < 1 / s).
  { unfold Qdiv. rewrite Qmult_1_l. apply Qinv_lt_0_compat. exact s_pos. }
  nra.
Qed.

Lemma trace_safe fuel : forall n d fs,
  ~ n == 0 -> ~ d == 0 ->
  trace fuel n d = Some fs -> Forall safe_factor fs.
Proof.
  pose proof inv_big as Hb.
  induction fuel as [|fuel IH]; intros n d fs Hn Hd; [discriminate|].
  cbn [trace]. cbv zeta.
  destruct (step_cases s s_pos n d)
    as [(H1 & H2 & E)|[(H1 & H2 & E)|(H1 & H2 & E)]];
    rewrite E; cbn [done alpha numerator' denominator'].
  - destruct (trace fuel n (d * s)) as [fs'|] eqn:Et; cbn; [|discriminate].
    intros Ef; injection Ef as <-. constructor.
    + unfold safe_factor. rewrite Qabs_pos by lra. lra.
    + apply (IH n (d * s)); [exact Hn | | exact Et].
      intros E0. apply Qmult_integral in E0. destruct E0; [auto|lra].
  - destruct (trace fuel _ d) as [fs'|] eqn:Et; cbn; [|discriminate].
    intros Ef; injection Ef as <-. constructor.
    + unfold safe_factor. rewrite Qabs_pos by lra. lra.
    + apply (IH (n / (1 / s)) d); [| exact Hd | exact Et].
      rewrite div_big by auto.
      intros E0. apply Qmult_integral in E0. destruct E0; [auto|lra].
  - intros Ef; injection Ef as <-. constructor; [|constructor].
    destruct H1 as [H1|H1]; [|contradiction].
    assert (Hd0 : 0 < Qabs d) by (apply Qabs_pos_nz; exact Hd).
    assert (Ea : Qabs (n / d) == Qabs n / Qabs d).
    { unfold Qdiv. rewrite Qabs_Qmult, Qabs_Qinv. reflexivity. }
    unfold safe_factor. rewrite Ea. split.
    + apply Qle_shift_div_l; [exact Hd0 | lra].
    + apply Qle_shift_div_r; [exact Hd0|].
      assert (E1 : 1 / s * Qabs d == Qabs d / s) by (field; lra).
      rewrite E1. apply Qle_shift_div_l; [exact s_pos | lra].
Qed.

Lemma Qabs_div (a b : Q) : Qabs (a / b) == Qabs a / Qabs b.
Proof. unfold Qdiv. rewrite Qabs_Qmult, Qabs_Qinv. reflexivity. Qed.

(** With [|n| <= |d|] only the denominator is ever shrunk, and when it was
    shrunk the last factor is below 1 in magnitude. *)
Lemma trace_small fuel : forall n d fs,
  Qabs n <= Qabs d ->
  trace fuel n d = Some fs ->
  exists k r, fs = repeat s k ++ [r] /\
    (k = 0%nat -> r = n / d) /\ (k <> 0%nat -> Qabs r < 1).
Proof.
  induction fuel as [|fuel IH]; intros n d fs Hle; [discriminate|].
  cbn [trace]. cbv zeta.
  destruct (step_cases s s_pos n d)
    as [(H1 & H2 & E)|[(H1 & H2 & E)|(H1 & H2 & E)]];
    rewrite E; cbn [done alpha numerator' denominator'].
  - destruct (trace fuel n (d * s)) as [fs'|] eqn:Et; cbn; [|discriminate].
    intros Ef; injection Ef as <-.
    destruct (IH n (d * s) fs') as (k & r & -> & H0 & Hk); [|exact Et|].
    + rewrite Qabs_scale by exact s_pos. lra.
    + exists (S k), r. split; [reflexivity|]. split; [discriminate|].
      intros _. destruct k as [|k]; [|apply Hk; discriminate].
      rewrite (H0 eq_refl), Qabs_div, Qabs_scale by exact s_pos.
      assert (0 <= Qabs n) by apply Qabs_nonneg.
      apply Qlt_shift_div_r; lra.
  - exfalso. assert (0 <= Qabs d) by apply Qabs_nonneg. nra.
  - intros Ef; injection Ef as <-. exists 0%nat, (n / d).
    split; [reflexivity|]. split; [reflexivity | intros H; contradiction].
Qed.

(** With [|d| <= |n|] only the numerator is ever shrunk, and when it was
    shrunk the last factor is above 1 in magnitude. *)
Lemma trace_large fuel : forall n d fs,
  ~ d == 0 -> Qabs d <= Qabs n ->
  trace fuel n d = Some fs ->
  exists k r, fs = repeat (1 / s) k ++ [r] /\
    (k = 0%nat -> r = n / d) /\ (k <> 0%nat -> 1 < Qabs r).
Proof.
  induction fuel as [|fuel IH]; intros n d fs Hd Hle; [discriminate|].
  cbn [trace]. cbv zeta.
  destruct (step_cases s s_pos n d)
    as [(H1 & H2 & E)|[(H1 & H2 & E)|(H1 & H2 & E)]];
    rewrite E; cbn [done alpha numerator' denominator'].
  - exfalso. assert (0 <= Qabs n) by apply Qabs_nonneg. nra.
  - destruct (trace fuel _ d) as [fs'|] eqn:Et; cbn; [|discriminate].
    intros Ef; injection Ef as <-.
    destruct (IH (n / (1 / s)) d fs') as (k & r & -> & H0 & Hk);
      [exact Hd | | exact Et |].
    + rewrite div_big, Qabs_scale by exact s_pos. lra.
    + exists (S k), r. split; [reflexivity|]. split; [discriminate|].
      intros _. destruct k as [|k]; [|apply Hk; discriminate].
      rewrite (H0 eq_refl), Qabs_div, div_big, Qabs_scale by exact s_pos.
      assert (0 < Qabs d) by (apply Qabs_pos_nz; exact Hd).
      apply Qlt_shift_div_l; lra.
  - intros Ef; injection Ef as <-. exists 0%nat, (n / d).
    split; [reflexivity|]. split; [reflexivity | intros H; contradiction].
Qed.
End Trace.

Lemma apply_factors_pair fs : forall d e,
  apply_factors (Matrix * Matrix) TridiagScale fs (d, e)
  = (apply_factors Matrix MatScale fs d, apply_factors Matrix MatScale fs e).
Proof.
  induction fs as [|a fs IH]; intros d e; [reflexivity|].
  cbn. unfold apply_factors in IH. unfold TridiagScale at 2. cbn [fst snd].
  apply IH.
Qed.

(** X1. In exact arithmetic (products and quotients of rationals, not
    rounded), for [0 < SafeMin] and a nonzero denominator: when the ratio
    is representable, that is when the numerator is zero or
    [|denominator| SafeMin <= |numerator|], and
    [|numerator| SafeMin <= |denominator|], the loop makes a single pass
    and multiplies the target once, by [numerator / denominator]; and the
    sequence of factors is that single ratio in this case only. *)
Theorem SafeScale_single_step (SafeMin : Q) :
  0 < SafeMin ->
  forall (numerator denominator : Q) (fuel : nat),
  ~ denominator == 0 ->
  let well_scaled :=
    (numerator == 0 \/ Qabs denominator * SafeMin <= Qabs numerator) /\
    Qabs numerator * SafeMin <= Qabs denominator in
  (well_scaled ->
   forall (T : Type) (scale : Q -> T -> T) (A : T),
     SafeScale SafeMin T scale (S fuel) numerator denominator A
     = Some (scale (numerator / denominator) A)) /\
  (SafeScale_factors SafeMin (S fuel) numerator denominator
   = Some [numerator / denominator] <-> well_scaled).
Proof.
  intros Hpos n d fuel _ ws. split.
  - intros Hw T scale A. unfold SafeScale. rewrite (loop_trace SafeMin).
    apply (trace_single SafeMin Hpos fuel) in Hw. rewrite Hw. reflexivity.
  - rewrite factors_trace. apply trace_single. exact Hpos.
Qed.

Lemma SafeScale_single_step_witness :
  SafeScale (1 # 4) Matrix MatScale 1 3 2 [[1; 2]]
  = Some (MatScale (3 / 2) [[1; 2]]) /\
  ((3 == 0 \/ Qabs 2 * (1 # 4) <= Qabs 3) /\ Qabs 3 * (1 # 4) <= Qabs 2).
Proof.
  assert (Hd : ~ 2 == 0) by (intros H; discriminate H).
  split.
  - apply (SafeScale_single_step (1 # 4) eq_refl 3 2 0 Hd).
    split; [right|]; vm_compute; discriminate.
  - apply (proj2 (SafeScale_single_step (1 # 4) eq_refl 3 2 0 Hd)).
    reflexivity.
Defined.

(** X2. For a nonzero numerator and a nonzero denominator the loop stops,
    and every factor it multiplies the target by, whatever the number of
    passes, has a magnitude between [SafeMin] and [1 / SafeMin]. *)
Theorem SafeScale_factors_bounded (SafeMin : Q) :
  0 < SafeMin -> SafeMin < 1 ->
  forall numerator denominator : Q,
  ~ numerator == 0 -> ~ denominator == 0 ->
  (exists fuel factors,
     SafeScale_factors SafeMin fuel numerator denominator = Some factors) /\
  (forall fuel factors,
     SafeScale_factors SafeMin fuel numerator denominator = Some factors ->
     Forall (fun a => SafeMin <= Qabs a /\ Qabs a <= 1 / SafeMin) factors).
Proof.
  intros Hpos Hlt n d Hn Hd. split.
  - destruct (SafeScale_runs SafeMin Hpos Hlt n d Hd) as (fuel & fs & Hrun & _).
    exists fuel, fs. unfold SafeScale_factors.
    rewrite Hrun, apply_factors_record. reflexivity.
  - intros fuel fs Hf. rewrite factors_trace in Hf.
    exact (trace_safe SafeMin Hpos Hlt fuel n d fs Hn Hd Hf).
Qed.

Lemma SafeScale_factors_bounded_witness :
  exists fuel factors,
    SafeScale_factors (1 # 4) fuel 100 (1 # 3) = Some factors /\
    Forall (fun a => (1 # 4) <= Qabs a /\ Qabs a <= 1 / (1 # 4)) factors.
Proof.
  assert (Hn : ~ 100 == 0) by (intros H; discriminate H).
  assert (Hd : ~ (1 # 3) == 0) by (intros H; discriminate H).
  destruct (SafeScale_factors_bounded (1 # 4) eq_refl eq_refl 100 (1 # 3)
              Hn Hd) as [(fuel & fs & Hf) Hb].
  exists fuel, fs. split; [exact Hf | exact (Hb fuel fs Hf)].
Defined.

(** X3. A run never mixes the two intermediate factors, and makes no pass
    more than needed: with [|numerator| <= |denominator|] its factors are
    copies of [SafeMin] followed by one last factor, which is below 1 in
    magnitude if any copy was applied; with
    [|denominator| <= |numerator|] they are copies of [1 / SafeMin]
    followed by one last factor, which is above 1 in magnitude if any copy
    was applied. *)
Theorem SafeScale_one_direction (SafeMin : Q) :
  0 < SafeMin -> SafeMin < 1 ->
  forall numerator denominator : Q, ~ denominator == 0 ->
  (exists fuel factors,
     SafeScale_factors SafeMin fuel numerator denominator = Some factors) /\
  (forall fuel factors,
     SafeScale_factors SafeMin fuel numerator denominator = Some factors ->
     (Qabs numerator <= Qabs denominator ->
      exists k r, factors = repeat SafeMin k ++ [r] /\
                  (k <> 0%nat -> Qabs r < 1)) /\
     (Qabs denominator <= Qabs numerator ->
      exists k r, factors = repeat (1 / SafeMin) k ++ [r] /\
                  (k <> 0%nat -> 1 < Qabs r))).
Proof.
  intros Hpos Hlt n d Hd. split.
  - destruct (SafeScale_runs SafeMin Hpos Hlt n d Hd) as (fuel & fs & Hrun & _).
    exists fuel, fs. unfold SafeScale_factors.
    rewrite Hrun, apply_factors_record. reflexivity.
  - intros fuel fs Hf. rewrite factors_trace in Hf. split; intros Hle.
    + destruct (trace_small SafeMin Hpos Hlt fuel n d fs Hle Hf)
        as (k & r & E & _ & Hk).
      exists k, r. split; assumption.
    + destruct (trace_large SafeMin Hpos Hlt fuel n d fs Hd Hle Hf)
        as (k & r & E & _ & Hk).
      exists k, r. split; assumption.
Qed.

Lemma SafeScale_one_direction_witness :
  exists fuel k r,
    SafeScale_factors (1 # 4) fuel 100 (1 # 3)
    = Some (repeat (1 / (1 # 4)) k ++ [r]) /\
    (k <> 0%nat -> 1 < Qabs r).
Proof.
  assert (Hd : ~ (1 # 3) == 0) by (intros H; discriminate H).
  destruct (SafeScale_one_direction (1 # 4) eq_refl eq_refl 100 (1 # 3) Hd)
    as [(fuel & fs & Hf) Hs].
  destruct (Hs fuel fs Hf) as [_ Hl].
  destruct Hl as (k & r & E & Hk); [vm_compute; discriminate|].
  exists fuel, k, r. rewrite Hf, E. split; [reflexivity | exact Hk].
Defined.

(** X4. [SafeScaleHermitianTridiagonal] stops for every nonzero
    denominator and scales [d] and [e] in lockstep: each of them ends as
    [SafeScale] alone leaves it, scaled entrywise by
    [numerator / denominator]. *)
Theorem SafeScaleHermitianTridiagonal_ratio (SafeMin : Q) :
  0 < SafeMin -> SafeMin < 1 ->
  forall numerator denominator : Q, ~ denominator == 0 ->
  exists fuel, forall d e : Matrix, exists d' e',
    SafeScaleHermitianTridiagonal SafeMin fuel numerator denominator d e
    = Some (d', e') /\
    SafeScale SafeMin Matrix MatScale fuel numerator denominator d = Some d' /\
    SafeScale SafeMin Matrix MatScale fuel numerator denominator e = Some e' /\
    MatEq d' (MatScale (numerator / denominator) d) /\
    MatEq e' (MatScale (numerator / denominator) e).
Proof.
  intros Hpos Hlt n den Hd.
  destruct (SafeScale_runs SafeMin Hpos Hlt n den Hd) as (fuel & fs & Hrun & Hp).
  exists fuel. intros d e.
  exists (apply_factors Matrix MatScale fs d),
         (apply_factors Matrix MatScale fs e).
  unfold SafeScaleHermitianTridiagonal. rewrite !Hrun, apply_factors_pair.
  repeat split.
  - eapply MatEq_trans; [apply apply_factors_MatScale|].
    apply MatScale_proper; [exact Hp | apply MatEq_refl].
  - eapply MatEq_trans; [apply apply_factors_MatScale|].
    apply MatScale_proper; [exact Hp | apply MatEq_refl].
Qed.

Lemma SafeScaleHermitianTridiagonal_ratio_witness :
  exists fuel, forall d e : Matrix, exists d' e',
    SafeScaleHermitianTridiagonal (1 # 4) fuel 100 (1 # 3) d e
    = Some (d', e') /\
    SafeScale (1 # 4) Matrix MatScale fuel 100 (1 # 3) d = Some d' /\
    SafeScale (1 # 4) Matrix MatScale fuel 100 (1 # 3) e = Some e' /\
    MatEq d' (MatScale (100 / (1 # 3)) d) /\
    MatEq e' (MatScale (100 / (1 # 3)) e).
Proof.
  apply (SafeScaleHermitianTridiagonal_ratio (1 # 4)); [reflexivity | reflexivity |].
  intros H; discriminate H.
Defined.

End SafeScaleProofs.

(* ================================================================= *)
(** ** Multi-shift Hessenberg solves: the output solves the systems *)

Module MshsProofs.
Import Mshs.
Import Qcanon.
Local Open Scope nat_scope.

Section Math.
Context {Fld : Scalars}.
Variable ComputeGivens : Fld -> Fld -> Givens Fld.
Hypothesis Fth : FieldLaws Fld.
Add Field Fld_field :
  (Fth : field_theory (@Fzero Fld) Fone Fadd Fmul Fsub Fopp Fdiv Finv eq).
Local Notation "0" := Fzero : F_scope.
Local Infix "+" := Fadd : F_scope.
Local Infix "*" := Fmul : F_scope.
Local Infix "-" := Fsub : F_scope.
Local Infix "/" := Fdiv : F_scope.
Local Notation "- x" := (Fopp x) : F_scope.
Local Open Scope F_scope.


Lemma sumn_ext n (f g : nat -> Fld) :
  (forall l, (l < n)%nat -> f l = g l) -> sumn n f = sumn n g.
Proof.
  induction n as [|n IH]; intros E; cbn; [reflexivity|].
  rewrite IH by (intros; apply E; lia). rewrite E by lia. reflexivity.
Qed.

Lemma sumn_swap2 n k (f g : nat -> Fld) :
  (S k < n)%nat ->
  (forall l, (l < n)%nat -> l <> k -> l <> S k -> f l = g l) ->
  f k + f (S k) = g k + g (S k) ->
  sumn n f = sumn n g.
Proof.
  induction n as [|n IH]; intros Hk E Hs; [lia|].
  cbn. destruct (Nat.eq_dec n (S k)) as [->|Hn].
  - cbn. rewrite (sumn_ext k f g) by (intros; apply E; lia).
    replace (sumn k g + f k + f (S k))
      with (sumn k g + (f k + f (S k))) by ring.
    rewrite Hs. ring.
  - rewrite IH; [| lia | intros; apply E; lia | exact Hs].
    rewrite E by lia. reflexivity.
Qed.

Lemma div_cancel (x p : Fld) : p <> 0 -> p * (x / p) = x.
Proof. intros. field. assumption. Qed.

Section LN.
Variable H : Matrix Fld.
Variable mu : Fld.
Variable m : nat.
Variable b : nat -> Fld.

Local Abbreviation w := (LN_w ComputeGivens H mu).
Local Abbreviation g := (LN_g ComputeGivens H mu).
Local Abbreviation pivot :=
  (LN_pivot ComputeGivens H mu m).

(** Column [k] of the triangular factor, for [k < m-1]. *)
Definition LN_col (k i : nat) : Fld :=
  gc (g k) * w k i + gs (g k) * shifted H mu i (k+1).

(** Column [j] of [X] on entry to step [K] of the elimination. *)
Fixpoint LN_x (K : nat) (i : nat) : Fld :=
  match K with
  | O => b i
  | S K' =>
      let y := LN_x K' K' / pivot K' in
      if (i <? K')%nat then LN_x K' i
      else if (i =? K')%nat then y
      else LN_x K' i - y * LN_col K' i
  end.

(** The solution of the triangular system. *)
Definition LN_y (l : nat) : Fld := LN_x l l / pivot l.

Fixpoint LN_t_from (d : nat) (k : nat) : Fld :=
  match d with
  | O => LN_y k
  | S d' => gc (g k) * LN_y k - Conj (gs (g k)) * LN_t_from d' (S k)
  end.

(** [t1(j)] when the rotation loop is about to treat index [k-1]. *)
Definition LN_t (k : nat) : Fld := LN_t_from (m - 1 - k) k.

(** Column [j] of [X] on exit of [LN]. *)
Definition LN_out (i : nat) : Fld :=
  match i with
  | O => LN_t 0
  | S k => gc (g k) * LN_t (S k) + gs (g k) * LN_y k
  end.

Hypothesis Hhess : LowerHessenberg m H.
Hypothesis Hgiv : GivensContract ComputeGivens.
Hypothesis Hpiv : forall k, (k < m)%nat -> pivot k <> 0.

Lemma shifted_off i l : i <> l -> shifted H mu i l = Get H i l.
Proof.
  intros Hne. unfold Mshs.shifted.
  destruct (Nat.eqb_spec i l); [contradiction | reflexivity].
Qed.

Lemma LN_w_zero k : forall i, (k < m)%nat -> (i < k)%nat -> w k i = 0.
Proof.
  induction k as [|k IH]; intros i Hk Hi; [lia|].
  cbn [LN_w]. destruct (Nat.eq_dec i k) as [->|Hne].
  - rewrite shifted_off by lia. apply Hgiv.
  - rewrite (IH i) by lia. rewrite shifted_off by lia.
    rewrite (Hhess i (k + 1)%nat) by lia. ring.
Qed.

Lemma LN_col_zero k i : (k + 1 < m)%nat -> (i < k)%nat -> LN_col k i = 0.
Proof.
  intros Hk Hi. unfold LN_col.
  rewrite LN_w_zero by lia. rewrite shifted_off by lia.
  rewrite (Hhess i (k + 1)%nat) by lia. ring.
Qed.

Lemma LN_col_diag k : (k + 1 < m)%nat -> LN_col k k = pivot k.
Proof.
  intros Hk. unfold LN_col, LN_pivot.
  destruct (Nat.ltb_spec (k + 1) m); [|lia].
  rewrite shifted_off by lia. reflexivity.
Qed.

Lemma LN_x_done K : forall l, (l < K)%nat -> LN_x K l = LN_y l.
Proof.
  induction K as [|K IH]; intros l Hl; [lia|].
  cbn [LN_x]. destruct (Nat.ltb_spec l K).
  - apply IH; lia.
  - destruct (Nat.eqb_spec l K); [subst; reflexivity | lia].
Qed.

Lemma LN_forward K :
  (K < m)%nat ->
  forall i, (i < m)%nat ->
    ((K <= i)%nat ->
       LN_x K i + sumn K (fun l => LN_col l i * LN_y l) = b i) /\
    ((i < K)%nat -> sumn K (fun l => LN_col l i * LN_y l) = b i).
Proof.
  induction K as [|K IH]; intros HK i Hi.
  - split; intros; [cbn; ring | lia].
  - destruct (IH ltac:(lia) i Hi) as [IH1 IH2].
    cbn [Mshs.sumn LN_x]. split; intros Hle.
    + destruct (Nat.ltb_spec i K); [lia|].
      destruct (Nat.eqb_spec i K); [lia|].
      fold (LN_y K). rewrite <- IH1 by lia. ring.
    + destruct (Nat.eq_dec i K) as [->|Hne].
      * rewrite LN_col_diag by lia. unfold LN_y at 2.
        rewrite div_cancel by (apply Hpiv; lia).
        rewrite <- IH1 by lia. ring.
      * rewrite LN_col_zero by lia. rewrite IH2 by lia. ring.
Qed.

Lemma LN_triangular_solved i :
  (i < m)%nat ->
  sumn (m - 1) (fun l => LN_col l i * LN_y l) + w (m - 1) i * LN_y (m - 1)
  = b i.
Proof.
  intros Hi. destruct (LN_forward (m - 1) ltac:(lia) i Hi) as [H1 H2].
  destruct (Nat.eq_dec i (m - 1)) as [->|Hne].
  - unfold LN_y at 2. unfold LN_pivot.
    destruct (Nat.ltb_spec (m - 1 + 1) m); [lia|].
    rewrite div_cancel.
    + rewrite <- H1 by lia. ring.
    + specialize (Hpiv (m - 1) ltac:(lia)). unfold LN_pivot in Hpiv.
      destruct (Nat.ltb_spec (m - 1 + 1) m); [lia | exact Hpiv].
  - rewrite LN_w_zero by lia. rewrite H2 by lia. ring.
Qed.

Lemma LN_t_last : LN_t (m - 1) = LN_y (m - 1).
Proof. unfold LN_t. replace (m - 1 - (m - 1))%nat with 0%nat by lia. reflexivity. Qed.

Lemma LN_t_step k :
  (S k < m)%nat ->
  LN_t k = gc (g k) * LN_y k - Conj (gs (g k)) * LN_t (S k).
Proof.
  intros Hk. unfold LN_t.
  replace (m - 1 - k)%nat with (S (m - 1 - S k)) by lia. reflexivity.
Qed.

(** The terms of row [i] of the system while the rotation loop is at
    index [k]: columns before [k] belong to the triangular factor,
    column [k] is the working vector, later columns are those of the
    shifted matrix. *)
Definition LN_term (k i l : nat) : Fld :=
  if (l <? k)%nat then LN_col l i * LN_y l
  else if (l =? k)%nat then w k i * LN_t k
  else shifted H mu i l * LN_out l.

Lemma LN_backward d :
  forall k, (k + d = m - 1)%nat ->
  forall i, (i < m)%nat -> sumn m (LN_term k i) = b i.
Proof.
  induction d as [|d IH]; intros k Hk i Hi.
  - assert (k = (m - 1)%nat) by lia. subst k.
    replace m with (S (m - 1)) at 1 by lia. cbn [Mshs.sumn].
    rewrite (sumn_ext (m - 1) _ (fun l => LN_col l i * LN_y l)).
    + unfold LN_term at 1.
      destruct (Nat.ltb_spec (m - 1) (m - 1)); [lia|].
      rewrite Nat.eqb_refl, LN_t_last. apply LN_triangular_solved; exact Hi.
    + intros l Hl. unfold LN_term.
      destruct (Nat.ltb_spec l (m - 1)); [reflexivity | lia].
  - rewrite <- (IH (S k) ltac:(lia) i Hi).
    apply sumn_swap2 with (k := k); [lia | |].
    + intros l Hl H1 H2. unfold LN_term.
      destruct (Nat.ltb_spec l k), (Nat.ltb_spec l (S k)); try lia;
        try reflexivity.
      destruct (Nat.eqb_spec l k), (Nat.eqb_spec l (S k)); try lia.
      reflexivity.
    + unfold LN_term.
      destruct (Nat.ltb_spec k k); [lia|].
      destruct (Nat.ltb_spec (S k) k); [lia|].
      destruct (Nat.ltb_spec k (S k)); [|lia].
      destruct (Nat.ltb_spec (S k) (S k)); [lia|].
      rewrite !Nat.eqb_refl.
      destruct (Nat.eqb_spec (S k) k); [lia|].
      rewrite LN_t_step by lia.
      cbn [LN_out LN_w]. unfold LN_col, LN_g. rewrite <- !(Nat.add_1_r k). ring.
Qed.

(** The output column solves the shifted system. *)
Lemma LN_column_solves i :
  (i < m)%nat ->
  apply_shifted H mu m LN_out i = b i.
Proof.
  intros Hi. unfold apply_shifted.
  rewrite <- (LN_backward (m - 1) 0%nat ltac:(lia) i Hi).
  apply sumn_ext. intros l Hl. unfold LN_term.
  destruct (Nat.ltb_spec l 0); [lia|].
  destruct (Nat.eqb_spec l 0); [subst; reflexivity | reflexivity].
Qed.
End LN.

Lemma sumn_shift k (g : nat -> Fld) :
  sumn (S k) g = g 0%nat + sumn k (fun l => g (S l)).
Proof.
  induction k as [|k IH]; [cbn; ring|].
  change (sumn (S (S k)) g) with (sumn (S k) g + g (S k)).
  rewrite IH. cbn. ring.
Qed.

Lemma sumn_rev n (f : nat -> Fld) :
  sumn n f = sumn n (fun l => f (n - 1 - l)%nat).
Proof.
  induction n as [|n IH]; [reflexivity|].
  rewrite (sumn_shift n (fun l => f (S n - 1 - l)%nat)).
  rewrite (sumn_ext n (fun l => f (S n - 1 - S l)%nat)
             (fun l => f (n - 1 - l)%nat))
    by (intros l Hl; f_equal; lia).
  rewrite <- IH. cbn [Mshs.sumn].
  replace (S n - 1 - 0)%nat with n by lia. ring.
Qed.

(** *** [UN] as [LN] on the matrix with rows and columns reversed *)
Section UN.
Variable H : Matrix Fld.
Variable mu : Fld.
Variable m : nat.
Variable b : nat -> Fld.

Definition flip : Matrix Fld :=
  mkMatrix (Height H) (Width H)
    (fun i l => Get H (m - 1 - i) (m - 1 - l)).
Definition flipv (i : nat) : Fld := b (m - 1 - i).

Local Abbreviation lw := (LN_w ComputeGivens flip mu).
Local Abbreviation lg := (LN_g ComputeGivens flip mu).
Local Abbreviation lpivot :=
  (LN_pivot ComputeGivens flip mu m).

Definition UN_wk (k i : nat) : Fld := lw (m - 1 - k) (m - 1 - i).
Definition UN_gk (k : nat) : Givens Fld := lg (m - 1 - k).
Definition UN_x (k i : nat) : Fld :=
  LN_x flip mu m flipv (m - 1 - k) (m - 1 - i).
Definition UN_y (l : nat) : Fld := LN_y flip mu m flipv (m - 1 - l).
Definition UN_t (k : nat) : Fld := LN_t flip mu m flipv (m - 1 - k).
Definition UN_out (i : nat) : Fld := LN_out flip mu m flipv (m - 1 - i).
Definition UN_rcol (k i : nat) : Fld :=
  gc (UN_gk k) * UN_wk k i + gs (UN_gk k) * shifted H mu i (k - 1).

Lemma shifted_flip i l :
  (i < m)%nat -> (l < m)%nat ->
  shifted flip mu i l = shifted H mu (m - 1 - i) (m - 1 - l).
Proof.
  intros Hi Hl. unfold Mshs.shifted, flip. cbn [Mshs.Get].
  destruct (Nat.eqb_spec i l), (Nat.eqb_spec (m - 1 - i) (m - 1 - l));
    try lia; reflexivity.
Qed.

Lemma flip_lower :
  UpperHessenberg m H -> LowerHessenberg m flip.
Proof.
  intros HU i l Hi Hl Hil. unfold flip. cbn [Mshs.Get]. apply HU; lia.
Qed.

Lemma UN_gk_eq k :
  (0 < k < m)%nat ->
  UN_gk k = ComputeGivens (UN_wk k k) (Get H k (k - 1)).
Proof.
  intros Hk. unfold UN_gk, UN_wk, LN_g, flip. cbn [Mshs.Get].
  replace (m - 1 - (m - 1 - k))%nat with k by lia.
  replace (m - 1 - (m - 1 - k + 1))%nat with (k - 1)%nat by lia.
  reflexivity.
Qed.

Lemma UN_wk_top i : (i < m)%nat -> UN_wk (m - 1) i = shifted H mu i (m - 1).
Proof.
  intros Hi. unfold UN_wk.
  replace (m - 1 - (m - 1))%nat with 0%nat by lia. cbn [LN_w].
  rewrite shifted_flip by lia. f_equal; lia.
Qed.

Lemma UN_wk_step k i :
  (0 < k < m)%nat -> (i < m)%nat ->
  UN_wk (k - 1) i =
  - Conj (gs (UN_gk k)) * UN_wk k i + gc (UN_gk k) * shifted H mu i (k - 1).
Proof.
  intros Hk Hi. unfold UN_wk, UN_gk.
  replace (m - 1 - (k - 1))%nat with (S (m - 1 - k)) by lia.
  cbn [LN_w]. rewrite shifted_flip by lia.
  replace (m - 1 - (m - 1 - i))%nat with i by lia.
  replace (m - 1 - (m - 1 - k + 1))%nat with (k - 1)%nat by lia.
  reflexivity.
Qed.

(** The divisors of [UN], as defined from its own working vector. *)
Lemma UN_w_flip t : forall i,
  (t < m)%nat -> (i < m)%nat ->
  UN_w ComputeGivens H mu m t i = UN_wk (m - 1 - t) i.
Proof.
  induction t as [|t IH]; intros i Ht Hi.
  - cbn [UN_w]. rewrite Nat.sub_0_r. symmetry. apply UN_wk_top. exact Hi.
  - cbn [UN_w]. rewrite (IH i), (IH (m - 1 - t)%nat) by lia.
    replace (m - 1 - S t)%nat with (m - 1 - t - 1)%nat by lia.
    rewrite (UN_wk_step (m - 1 - t) i) by lia.
    rewrite UN_gk_eq by lia. reflexivity.
Qed.

Lemma UN_pivot_flip k :
  (k < m)%nat ->
  UN_pivot ComputeGivens H mu m k = lpivot (m - 1 - k).
Proof.
  intros Hk. unfold UN_pivot, LN_pivot, UN_g.
  destruct (Nat.ltb_spec 0 k), (Nat.ltb_spec (m - 1 - k + 1) m); try lia.
  - rewrite UN_w_flip by lia.
    replace (m - 1 - (m - 1 - k))%nat with k by lia.
    rewrite <- UN_gk_eq by lia. unfold UN_gk, UN_wk, LN_g, flip.
    cbn [Mshs.Get].
    replace (m - 1 - (m - 1 - k))%nat with k by lia.
    replace (m - 1 - (m - 1 - k + 1))%nat with (k - 1)%nat by lia.
    reflexivity.
  - rewrite UN_w_flip by lia. unfold UN_wk.
    replace (m - 1 - (m - 1 - (m - 1)))%nat with (m - 1 - k)%nat by lia.
    replace (m - 1 - 0)%nat with (m - 1 - k)%nat by lia.
    reflexivity.
Qed.

Lemma UN_pivot_step k :
  (0 < k < m)%nat ->
  UN_pivot ComputeGivens H mu m k =
  gc (UN_gk k) * UN_wk k k + gs (UN_gk k) * Get H k (k - 1).
Proof.
  intros Hk. unfold UN_pivot, UN_g.
  destruct (Nat.ltb_spec 0 k); [|lia].
  rewrite UN_w_flip by lia.
  replace (m - 1 - (m - 1 - k))%nat with k by lia.
  rewrite <- UN_gk_eq by lia. reflexivity.
Qed.

Lemma UN_pivot_bottom :
  (0 < m)%nat ->
  UN_pivot ComputeGivens H mu m 0 = UN_wk 0 0.
Proof.
  intros Hm. unfold UN_pivot. cbn [Nat.ltb Nat.leb].
  rewrite UN_w_flip by lia.
  replace (m - 1 - (m - 1))%nat with 0%nat by lia. reflexivity.
Qed.

Lemma UN_x_top i : UN_x (m - 1) i = b (m - 1 - (m - 1 - i)).
Proof.
  unfold UN_x. replace (m - 1 - (m - 1))%nat with 0%nat by lia. reflexivity.
Qed.

Lemma UN_y_eq k :
  (k < m)%nat ->
  UN_y k = UN_x k k /
           UN_pivot ComputeGivens H mu m k.
Proof. intros Hk. rewrite UN_pivot_flip by lia. reflexivity. Qed.

Lemma UN_x_step k i :
  (0 < k < m)%nat -> (i < m)%nat ->
  UN_x (k - 1) i =
  if (k <? i)%nat then UN_x k i
  else if (i =? k)%nat then UN_y k
  else UN_x k i - UN_y k * UN_rcol k i.
Proof.
  intros Hk Hi. unfold UN_x, UN_y, UN_rcol, UN_gk, UN_wk.
  replace (m - 1 - (k - 1))%nat with (S (m - 1 - k)) by lia.
  cbn [LN_x]. fold (LN_y flip mu m flipv (m - 1 - k)).
  unfold LN_col. rewrite shifted_flip by lia.
  replace (m - 1 - (m - 1 - i))%nat with i by lia.
  replace (m - 1 - (m - 1 - k + 1))%nat with (k - 1)%nat by lia.
  destruct (Nat.ltb_spec (m - 1 - i) (m - 1 - k)), (Nat.ltb_spec k i);
    try lia; try reflexivity.
  destruct (Nat.eqb_spec (m - 1 - i) (m - 1 - k)), (Nat.eqb_spec i k);
    try lia; reflexivity.
Qed.

Lemma UN_x_done k l :
  (k < l)%nat -> (l < m)%nat -> UN_x k l = UN_y l.
Proof. intros Hk Hl. unfold UN_x, UN_y. apply LN_x_done. lia. Qed.

Lemma UN_t_bottom : UN_t 0 = UN_y 0.
Proof.
  unfold UN_t, UN_y. rewrite Nat.sub_0_r. apply LN_t_last.
Qed.

Lemma UN_t_step k :
  (0 < k < m)%nat ->
  UN_t k = gc (UN_gk k) * UN_y k - Conj (gs (UN_gk k)) * UN_t (k - 1).
Proof.
  intros Hk. unfold UN_t, UN_y, UN_gk.
  rewrite LN_t_step by lia.
  replace (S (m - 1 - k)) with (m - 1 - (k - 1))%nat by lia. reflexivity.
Qed.

Lemma UN_out_top : UN_out (m - 1) = UN_t (m - 1).
Proof.
  unfold UN_out, UN_t. replace (m - 1 - (m - 1))%nat with 0%nat by lia.
  reflexivity.
Qed.

Lemma UN_out_step k :
  (0 < k < m)%nat ->
  UN_out (k - 1) = gc (UN_gk k) * UN_t (k - 1) + gs (UN_gk k) * UN_y k.
Proof.
  intros Hk. unfold UN_out, UN_t, UN_y, UN_gk.
  replace (m - 1 - (k - 1))%nat with (S (m - 1 - k)) by lia. reflexivity.
Qed.

Hypothesis Hhess : UpperHessenberg m H.
Hypothesis Hgiv : GivensContract ComputeGivens.
Hypothesis Hpiv : forall k, (k < m)%nat ->
  UN_pivot ComputeGivens H mu m k <> 0.

Lemma UN_column_solves i :
  (i < m)%nat ->
  apply_shifted H mu m UN_out i = b i.
Proof.
  intros Hi.
  assert (HL : apply_shifted flip mu m
                 (LN_out flip mu m flipv) (m - 1 - i) = flipv (m - 1 - i)).
  { apply LN_column_solves.
    - apply flip_lower. exact Hhess.
    - exact Hgiv.
    - intros k Hk.
      replace k with (m - 1 - (m - 1 - k))%nat by lia.
      rewrite <- UN_pivot_flip by lia. apply Hpiv. lia.
    - lia. }
  change (flipv (m - 1 - i)) with (b (m - 1 - (m - 1 - i))) in HL.
  replace (m - 1 - (m - 1 - i))%nat with i in HL by lia.
  rewrite <- HL. unfold apply_shifted.
  rewrite sumn_rev. apply sumn_ext. intros l Hl.
  rewrite shifted_flip by lia. unfold UN_out.
  replace (m - 1 - (m - 1 - i))%nat with i by lia.
  replace (m - 1 - (m - 1 - l))%nat with l by lia.
  reflexivity.
Qed.
End UN.
End Math.

Ltac nat_bool :=
  repeat (match goal with
          | |- context [Nat.eqb ?a ?b] => destruct (Nat.eqb_spec a b); try lia
          | |- context [Nat.ltb ?a ?b] => destruct (Nat.ltb_spec a b); try lia
          | |- context [Nat.leb ?a ?b] => destruct (Nat.leb_spec a b); try lia
          end; cbn [andb]).

Ltac view_index :=
  repeat match goal with
         | |- context [(?a + (?i - ?a))%nat] =>
             replace (a + (i - a))%nat with i by lia
         end.

Section Loops.
Context {St : Type}.

Lemma For_app idx1 idx2 (body : nat -> St -> St) st :
  For (idx1 ++ idx2) body st = For idx2 body (For idx1 body st).
Proof. unfold For. apply fold_left_app. Qed.

(** Invariant rule for an ascending loop over [lo, lo+n). *)
Lemma For_up_inv (P : nat -> St -> Prop) (body : nat -> St -> St) n :
  forall lo st,
    P lo st ->
    (forall k s, (lo <= k < lo + n)%nat -> P k s -> P (S k) (body k s)) ->
    P (lo + n)%nat (For (seq lo n) body st).
Proof.
  induction n as [|n IH]; intros lo st H0 Hstep.
  - cbn. now rewrite Nat.add_0_r.
  - cbn [seq]. unfold For. cbn [fold_left]. fold (For (seq (S lo) n) body (body lo st)).
    replace (lo + S n)%nat with (S lo + n)%nat by lia.
    apply IH.
    + apply Hstep; [lia | exact H0].
    + intros k s Hk. apply Hstep. lia.
Qed.

(** Invariant rule for a descending loop over [lo+n-1, ..., lo]. *)
Lemma For_down_inv (P : nat -> St -> Prop) (body : nat -> St -> St) n :
  forall lo st,
    P (lo + n)%nat st ->
    (forall k s, (lo <= k < lo + n)%nat -> P (S k) s -> P k (body k s)) ->
    P lo (For (rev (seq lo n)) body st).
Proof.
  induction n as [|n IH]; intros lo st H0 Hstep.
  - cbn. now rewrite Nat.add_0_r in H0.
  - rewrite seq_S, rev_app_distr. cbn [rev app].
    unfold For. cbn [fold_left]. fold (For (rev (seq lo n)) body (body (lo + n)%nat st)).
    apply IH.
    + apply Hstep; [lia|]. replace (S (lo + n)) with (lo + S n)%nat by lia. exact H0.
    + intros k s Hk. apply Hstep. lia.
Qed.
End Loops.

Section Sim.
Context {Fld : Scalars}.
Variable ComputeGivens : Fld -> Fld -> Givens Fld.
Hypothesis Fth : FieldLaws Fld.
Add Field Fld_field2 :
  (Fth : field_theory (@Fzero Fld) Fone Fadd Fmul Fsub Fopp Fdiv Finv eq).
Local Notation "0" := Fzero : F_scope.
Local Infix "+" := Fadd : F_scope.
Local Infix "*" := Fmul : F_scope.
Local Infix "-" := Fsub : F_scope.
Local Infix "/" := Fdiv : F_scope.
Local Notation "- x" := (Fopp x) : F_scope.
Local Open Scope F_scope.

Local Abbreviation Matrix := (Matrix Fld).
Local Abbreviation Frame := (Frame Fld).

(** Two frames hold the same data for column [j]. *)
Definition coleq (j : nat) (f f' : Frame) : Prop :=
  (forall i, Get (fX f') i j = Get (fX f) i j) /\
  (forall i, Get (fW f') i j = Get (fW f) i j) /\
  (forall i, Get (fC f') i j = Get (fC f) i j) /\
  (forall i, Get (fS f') i j = Get (fS f) i j) /\
  Get (ft1 f') j 0 = Get (ft1 f) j 0 /\
  Get (ft2 f') j 0 = Get (ft2 f) j 0.

(** A loop body that, at index [j], touches the data of column [j] only. *)
Definition columnwise (body : nat -> Frame -> Frame) : Prop :=
  forall j j' f, j <> j' -> coleq j' f (body j f).

(** A property of column [j] of a frame. *)
Definition column_property (P : nat -> Frame -> Prop) : Prop :=
  forall j f f', coleq j f f' -> P j f -> P j f'.

Lemma For_columns n (body : nat -> Frame -> Frame)
    (Pre Post : nat -> Frame -> Prop) :
  columnwise body -> column_property Pre -> column_property Post ->
  (forall j f, (j < n)%nat -> Pre j f -> Post j (body j f)) ->
  forall f, (forall j, (j < n)%nat -> Pre j f) ->
  forall j, (j < n)%nat -> Post j (For (upto 0 n) body f).
Proof.
  intros Hcw HPre HPost Hstep f Hf.
  unfold upto. rewrite Nat.sub_0_r.
  pose (Q := fun (J : nat) (s : Frame) =>
               forall j, (j < n)%nat ->
                 ((j < J)%nat -> Post j s) /\ ((J <= j)%nat -> Pre j s)).
  assert (HQ : Q (0 + n)%nat (For (seq 0 n) body f)).
  { apply For_up_inv.
    - intros j Hj. split; [lia | intros _; apply Hf; exact Hj].
    - intros J s HJ Hs j Hj. destruct (Hs j Hj) as [H1 H2].
      split; intros Hlt.
      + destruct (Nat.eq_dec j J) as [->|Hne].
        * apply Hstep; [lia | apply H2; lia].
        * apply (HPost j s); [apply Hcw; lia | apply H1; lia].
      + apply (HPre j s); [apply Hcw; lia | apply H2; lia]. }
  intros j Hj. apply (HQ j Hj). lia.
Qed.

Ltac unfold_ops :=
  unfold withX, withW, withC, withS, witht1, witht2,
         Update, Set_, Axpy, ScaleView, MemCopyCol, Scale, Zeros,
         inView, ViewRange, View_;
  cbn [Mshs.fX Mshs.fW Mshs.fC Mshs.fS Mshs.ft1 Mshs.ft2
       Mshs.Get Mshs.Height Mshs.Width Mshs.vi Mshs.vj Mshs.vheight].

Ltac columnwise_tac :=
  intros j j' f Hne; unfold coleq;
  repeat split; intros; unfold_ops; nat_bool; reflexivity.

Section WithInput.
Variable alpha : Fld.
Variables H shifts : Matrix.
Variable m : nat.

Local Abbreviation LN_init := (Mshs.LN_init H shifts m).
Local Abbreviation LN_eliminate :=
  (Mshs.LN_eliminate ComputeGivens H shifts m).
Local Abbreviation LN_last := (Mshs.LN_last m).
Local Abbreviation LN_t1 := (Mshs.LN_t1 m).

Lemma LN_init_columnwise : columnwise LN_init.
Proof. unfold Mshs.LN_init. columnwise_tac. Qed.

Lemma LN_eliminate_columnwise k : columnwise (LN_eliminate k).
Proof. unfold Mshs.LN_eliminate. columnwise_tac. Qed.

Lemma LN_last_columnwise : columnwise LN_last.
Proof. unfold Mshs.LN_last. columnwise_tac. Qed.

Lemma LN_t1_columnwise : columnwise LN_t1.
Proof. unfold Mshs.LN_t1. columnwise_tac. Qed.

Lemma LN_rotate_columnwise k : columnwise (LN_rotate k).
Proof. unfold Mshs.LN_rotate. columnwise_tac. Qed.

Lemma LN_first_columnwise : columnwise LN_first.
Proof. unfold Mshs.LN_first. columnwise_tac. Qed.

(** **** Column [j] of [LN] against the closed forms. *)
Section Column.
Variable X0 : Matrix.
Variable j : nat.

Local Abbreviation mu := (Get shifts j 0%nat).
Local Abbreviation b := (fun i : nat => alpha * Get X0 i j).
Local Abbreviation w :=
  (LN_w ComputeGivens H mu).
Local Abbreviation g :=
  (LN_g ComputeGivens H mu).
Local Abbreviation x :=
  (LN_x ComputeGivens H mu m b).
Local Abbreviation y :=
  (LN_y ComputeGivens H mu m b).
Local Abbreviation t :=
  (LN_t ComputeGivens H mu m b).
Local Abbreviation out :=
  (LN_out ComputeGivens H mu m b).

Definition rotations_stored (K : nat) (f : Frame) : Prop :=
  forall k, (k < K)%nat ->
    Get (fC f) k j = gc (g k) /\ Get (fS f) k j = gs (g k).

Definition LN_scaled (f : Frame) : Prop :=
  forall i, Get (fX f) i j = b i.

Definition LN_fwd (K : nat) (f : Frame) : Prop :=
  (forall i, (K <= i < m)%nat -> Get (fW f) i j = w K i) /\
  (forall i, (i < m)%nat -> Get (fX f) i j = x K i) /\
  rotations_stored K f.

Definition LN_solved (f : Frame) : Prop :=
  (forall i, (i < m)%nat -> Get (fX f) i j = y i) /\
  rotations_stored (m - 1) f.

Definition LN_back (k : nat) (f : Frame) : Prop :=
  Get (ft1 f) j 0%nat = t k /\
  (forall i, (i < m)%nat ->
     Get (fX f) i j = if (i <=? k)%nat then y i else out i) /\
  rotations_stored (m - 1) f.

Definition LN_done (f : Frame) : Prop :=
  forall i, (i < m)%nat -> Get (fX f) i j = out i.

Lemma LN_init_fwd f :
  LN_scaled f -> LN_fwd 0 (LN_init j f).
Proof.
  intros Hx. unfold LN_fwd, rotations_stored. repeat split; try lia.
  - intros i Hi. unfold Mshs.LN_init. unfold_ops.
    cbn [LN_w]. unfold shifted. nat_bool; subst; ring.
  - intros i Hi. cbn [LN_x]. unfold Mshs.LN_init. unfold_ops. apply Hx.
Qed.

Lemma LN_eliminate_fwd K f :
  (K + 1 < m)%nat ->
  LN_fwd K f -> LN_fwd (S K) (LN_eliminate K j f).
Proof.
  intros HK (HW & HX & HCS).
  assert (Hpiv : LN_pivot ComputeGivens H mu m K
                 = gc (g K) * w K K + gs (g K) * Get H K (K + 1)%nat).
  { unfold LN_pivot. destruct (Nat.ltb_spec (K + 1) m); [reflexivity | lia]. }
  unfold LN_fwd, rotations_stored. repeat split.
  - intros i Hi. unfold Mshs.LN_eliminate. unfold_ops.
    cbn [LN_w]. unfold shifted.
    rewrite !(HW K) by lia.
    nat_bool; subst; view_index;
      rewrite ?(HW i) by lia; rewrite ?(HW (K + 1)%nat) by lia; ring.
  - intros i Hi. unfold Mshs.LN_eliminate. unfold_ops.
    cbn [LN_x]. rewrite Hpiv. unfold LN_col, LN_g, shifted.
    rewrite !(HW K) by lia. rewrite !(HX K) by lia.
    nat_bool; subst; view_index;
      rewrite ?(HW i) by lia; rewrite ?(HX i) by lia;
      rewrite ?(HW (K + 1)%nat) by lia; rewrite ?(HX (K + 1)%nat) by lia;
      try reflexivity; ring.
  - unfold Mshs.LN_eliminate. unfold_ops. rewrite !(HW K) by lia.
    nat_bool; [subst; reflexivity | apply HCS; lia].
  - unfold Mshs.LN_eliminate. unfold_ops. rewrite !(HW K) by lia.
    nat_bool; [subst; reflexivity | apply HCS; lia].
Qed.

Lemma LN_last_solved f :
  (0 < m)%nat -> LN_fwd (m - 1) f -> LN_solved (LN_last j f).
Proof.
  intros Hm (HW & HX & HCS). split.
  - intros i Hi. unfold Mshs.LN_last. unfold_ops.
    nat_bool; subst.
    + rewrite HW, HX by lia. unfold LN_y, LN_pivot.
      destruct (Nat.ltb_spec (m - 1 + 1) m); [lia | reflexivity].
    + rewrite HX by lia. apply LN_x_done. lia.
  - intros k Hk. unfold Mshs.LN_last. unfold_ops. apply HCS. exact Hk.
Qed.

Lemma LN_fresh_t f n :
  LN_solved f ->
  LN_solved (witht2 (witht1 f (Zeros n 1)) (Zeros n 1)).
Proof. intros Hs. exact Hs. Qed.

Lemma LN_t1_back f :
  (0 < m)%nat -> LN_solved f -> LN_back (m - 1) (LN_t1 j f).
Proof.
  intros Hm (HX & HCS). unfold LN_back. repeat split.
  - unfold Mshs.LN_t1. unfold_ops. rewrite !Nat.eqb_refl. cbn [andb].
    rewrite HX by lia. symmetry. apply LN_t_last.
  - intros i Hi. unfold Mshs.LN_t1. unfold_ops.
    rewrite HX by lia. nat_bool. reflexivity.
  - apply HCS. assumption.
  - apply HCS. assumption.
Qed.

Lemma LN_rotate_back k f :
  (k + 1 < m)%nat -> LN_back (S k) f -> LN_back k (LN_rotate k j f).
Proof.
  intros Hk (Ht & HX & HCS).
  destruct (HCS k ltac:(lia)) as [Hc Hs].
  unfold LN_back. repeat split.
  - unfold Mshs.LN_rotate. unfold_ops. rewrite !Nat.eqb_refl. cbn [andb].
    rewrite Ht, Hc, Hs, (HX k) by lia.
    destruct (Nat.leb_spec k (S k)); [|lia].
    symmetry. apply LN_t_step. lia.
  - intros i Hi. unfold Mshs.LN_rotate. unfold_ops.
    rewrite !Nat.eqb_refl. cbn [andb].
    rewrite Ht, Hc, Hs, (HX k) by lia.
    destruct (Nat.leb_spec k (S k)); [|lia].
    nat_bool; subst.
    + replace (k + 1)%nat with (S k) by lia. reflexivity.
    + rewrite HX by lia. nat_bool. reflexivity.
    + rewrite HX by lia. nat_bool. reflexivity.
  - apply HCS. assumption.
  - apply HCS. assumption.
Qed.

Lemma LN_first_done f : LN_back 0 f -> LN_done (LN_first j f).
Proof.
  intros (Ht & HX & _) i Hi. unfold Mshs.LN_first. unfold_ops.
  nat_bool; subst.
  - rewrite Ht. reflexivity.
  - rewrite HX by lia. nat_bool. reflexivity.
Qed.
End Column.

Ltac column_property_tac :=
  intros j f f' (E1 & E2 & E3 & E4 & E5 & E6).

Lemma rotations_stored_column K :
  column_property (fun j f => rotations_stored j K f).
Proof.
  column_property_tac. intros HCS k Hk. rewrite E3, E4. apply HCS. exact Hk.
Qed.

Lemma LN_scaled_column X0 :
  column_property (fun j f => LN_scaled X0 j f).
Proof. column_property_tac. intros Hx i. rewrite E1. apply Hx. Qed.

Lemma LN_fwd_column X0 K :
  column_property (fun j f => LN_fwd X0 j K f).
Proof.
  intros j f f' E (HW & HX & HCS). pose proof E as (E1 & E2 & _).
  repeat split.
  - intros i Hi. rewrite E2. apply HW. exact Hi.
  - intros i Hi. rewrite E1. apply HX. exact Hi.
  - apply (rotations_stored_column K j f f' E HCS). assumption.
  - apply (rotations_stored_column K j f f' E HCS). assumption.
Qed.

Lemma LN_solved_column X0 :
  column_property (fun j f => LN_solved X0 j f).
Proof.
  intros j f f' E (HX & HCS). pose proof E as (E1 & _).
  split.
  - intros i Hi. rewrite E1. apply HX. exact Hi.
  - apply (rotations_stored_column (m - 1) j f f' E HCS).
Qed.

Lemma LN_back_column X0 k :
  column_property (fun j f => LN_back X0 j k f).
Proof.
  intros j f f' E (Ht & HX & HCS). pose proof E as (E1 & _ & _ & _ & E5 & _).
  split; [|split].
  - rewrite E5. exact Ht.
  - intros i Hi. rewrite E1. apply HX. exact Hi.
  - apply (rotations_stored_column (m - 1) j f f' E HCS).
Qed.

Lemma LN_done_column X0 :
  column_property (fun j f => LN_done X0 j f).
Proof.
  intros j f f' (E1 & _) HX i Hi. rewrite E1. apply HX. exact Hi.
Qed.

(** **** The loops of [LN], one after the other. *)
Section Phases.
Variable X0 : Matrix.
Variable n : nat.

Lemma LN_phase_init f :
  (forall j, (j < n)%nat -> LN_scaled X0 j f) ->
  forall j, (j < n)%nat -> LN_fwd X0 j 0 (For (upto 0 n) LN_init f).
Proof.
  apply (For_columns n LN_init
           (fun j f => LN_scaled X0 j f) (fun j f => LN_fwd X0 j 0 f)).
  - apply LN_init_columnwise.
  - apply LN_scaled_column.
  - apply LN_fwd_column.
  - intros j g _. apply LN_init_fwd.
Qed.

Lemma LN_phase_eliminate f :
  (0 < m)%nat ->
  (forall j, (j < n)%nat -> LN_fwd X0 j 0 f) ->
  forall j, (j < n)%nat ->
    LN_fwd X0 j (m - 1)
      (For (upto 0 (m - 1))
         (fun k => For (upto 0 n) (LN_eliminate k)) f).
Proof.
  intros Hm Hf. unfold upto at 1. rewrite Nat.sub_0_r.
  apply (For_up_inv
           (fun K s => forall j, (j < n)%nat -> LN_fwd X0 j K s)
           (fun k => For (upto 0 n) (LN_eliminate k)) (m - 1) 0%nat f).
  - exact Hf.
  - intros K s HK Hs.
    apply (For_columns n (LN_eliminate K)
             (fun j f => LN_fwd X0 j K f)
             (fun j f => LN_fwd X0 j (S K) f)).
    + apply LN_eliminate_columnwise.
    + apply LN_fwd_column.
    + apply LN_fwd_column.
    + intros j g _. apply LN_eliminate_fwd. lia.
    + exact Hs.
Qed.

Lemma LN_phase_last f :
  (0 < m)%nat ->
  (forall j, (j < n)%nat -> LN_fwd X0 j (m - 1) f) ->
  forall j, (j < n)%nat -> LN_solved X0 j (For (upto 0 n) LN_last f).
Proof.
  intros Hm.
  apply (For_columns n LN_last
           (fun j f => LN_fwd X0 j (m - 1) f)
           (fun j f => LN_solved X0 j f)).
  - apply LN_last_columnwise.
  - apply LN_fwd_column.
  - apply LN_solved_column.
  - intros j g _. apply LN_last_solved. exact Hm.
Qed.

Lemma LN_phase_t1 f :
  (0 < m)%nat ->
  (forall j, (j < n)%nat -> LN_solved X0 j f) ->
  forall j, (j < n)%nat -> LN_back X0 j (m - 1) (For (upto 0 n) LN_t1 f).
Proof.
  intros Hm.
  apply (For_columns n LN_t1
           (fun j f => LN_solved X0 j f)
           (fun j f => LN_back X0 j (m - 1) f)).
  - apply LN_t1_columnwise.
  - apply LN_solved_column.
  - apply LN_back_column.
  - intros j g _. apply LN_t1_back. exact Hm.
Qed.

Lemma LN_phase_rotate f :
  (0 < m)%nat ->
  (forall j, (j < n)%nat -> LN_back X0 j (m - 1) f) ->
  forall j, (j < n)%nat ->
    LN_back X0 j 0
      (For (downfrom (m - 1) 0)
         (fun k => For (upto 0 n) (LN_rotate k)) f).
Proof.
  intros Hm Hf. unfold downfrom. rewrite Nat.sub_0_r.
  apply (For_down_inv
           (fun K s => forall j, (j < n)%nat -> LN_back X0 j K s)
           (fun k => For (upto 0 n) (LN_rotate k)) (m - 1) 0%nat f).
  - exact Hf.
  - intros K s HK Hs.
    apply (For_columns n (LN_rotate K)
             (fun j f => LN_back X0 j (S K) f)
             (fun j f => LN_back X0 j K f)).
    + apply LN_rotate_columnwise.
    + apply LN_back_column.
    + apply LN_back_column.
    + intros j g _. apply LN_rotate_back. lia.
    + exact Hs.
Qed.

Lemma LN_phase_first f :
  (forall j, (j < n)%nat -> LN_back X0 j 0 f) ->
  forall j, (j < n)%nat -> LN_done X0 j (For (upto 0 n) LN_first f).
Proof.
  apply (For_columns n LN_first
           (fun j f => LN_back X0 j 0 f) (fun j f => LN_done X0 j f)).
  - apply LN_first_columnwise.
  - apply LN_back_column.
  - apply LN_done_column.
  - intros j g _. apply LN_first_done.
Qed.
End Phases.

(* ------------------------------------------------------------ *)
(** **** [UN] *)

Local Abbreviation UN_init := (Mshs.UN_init H shifts m).
Local Abbreviation UN_eliminate :=
  (Mshs.UN_eliminate ComputeGivens H shifts).
Local Abbreviation UN_final := (Mshs.UN_final m).

Lemma UN_init_columnwise : columnwise UN_init.
Proof. unfold Mshs.UN_init. columnwise_tac. Qed.

Lemma UN_eliminate_columnwise k : columnwise (UN_eliminate k).
Proof. unfold Mshs.UN_eliminate. columnwise_tac. Qed.

Lemma UN_last_columnwise : columnwise UN_last.
Proof. unfold Mshs.UN_last. columnwise_tac. Qed.

Lemma UN_t1_columnwise : columnwise UN_t1.
Proof. unfold Mshs.UN_t1. columnwise_tac. Qed.

Lemma UN_rotate_columnwise k : columnwise (UN_rotate k).
Proof. unfold Mshs.UN_rotate. columnwise_tac. Qed.

Lemma UN_final_columnwise : columnwise UN_final.
Proof. unfold Mshs.UN_final. columnwise_tac. Qed.

Section UColumn.
Variable X0 : Matrix.
Variable j : nat.

Local Abbreviation mu := (Get shifts j 0%nat).
Local Abbreviation b := (fun i : nat => alpha * Get X0 i j).
Local Abbreviation w :=
  (UN_wk ComputeGivens H mu m).
Local Abbreviation g :=
  (UN_gk ComputeGivens H mu m).
Local Abbreviation x :=
  (UN_x ComputeGivens H mu m b).
Local Abbreviation y :=
  (UN_y ComputeGivens H mu m b).
Local Abbreviation t :=
  (UN_t ComputeGivens H mu m b).
Local Abbreviation out :=
  (UN_out ComputeGivens H mu m b).

Definition UN_rotations_stored (K : nat) (f : Frame) : Prop :=
  forall k, (K < k < m)%nat ->
    Get (fC f) k j = gc (g k) /\ Get (fS f) k j = gs (g k).

Definition UN_fwd (K : nat) (f : Frame) : Prop :=
  (forall i, (i <= K)%nat -> Get (fW f) i j = w K i) /\
  (forall i, (i < m)%nat -> Get (fX f) i j = x K i) /\
  UN_rotations_stored K f.

Definition UN_solved (f : Frame) : Prop :=
  (forall i, (i < m)%nat -> Get (fX f) i j = y i) /\
  UN_rotations_stored 0 f.

Definition UN_back (k : nat) (f : Frame) : Prop :=
  Get (ft1 f) j 0%nat = t k /\
  (forall i, (i < m)%nat ->
     Get (fX f) i j = if (i <? k)%nat then out i else y i) /\
  UN_rotations_stored 0 f.

Definition UN_done (f : Frame) : Prop :=
  forall i, (i < m)%nat -> Get (fX f) i j = out i.

Lemma UN_init_fwd f :
  (0 < m)%nat -> LN_scaled X0 j f -> UN_fwd (m - 1) (UN_init j f).
Proof.
  intros Hm Hx. unfold UN_fwd, UN_rotations_stored. repeat split; try lia.
  - intros i Hi. unfold Mshs.UN_init. unfold_ops.
    rewrite UN_wk_top by lia. unfold shifted. nat_bool; subst; ring.
  - intros i Hi. rewrite UN_x_top.
    replace (m - 1 - (m - 1 - i))%nat with i by lia.
    unfold Mshs.UN_init. unfold_ops. apply Hx.
Qed.

Lemma UN_eliminate_fwd K f :
  (0 < K < m)%nat ->
  UN_fwd K f -> UN_fwd (K - 1) (UN_eliminate K j f).
Proof.
  intros HK (HW & HX & HCS).
  pose proof (UN_gk_eq ComputeGivens H mu m K HK)
    as Hg.
  unfold UN_fwd, UN_rotations_stored. repeat split.
  - intros i Hi. rewrite UN_wk_step by lia.
    rewrite Hg. unfold Mshs.UN_eliminate. unfold_ops. unfold shifted.
    rewrite !(HW K) by lia.
    nat_bool; subst; rewrite ?Nat.sub_0_r, ?Nat.add_0_l;
      rewrite ?(HW i) by lia; rewrite ?(HW (K - 1)%nat) by lia; ring.
  - intros i Hi. rewrite UN_x_step by lia.
    rewrite UN_y_eq, UN_pivot_step by lia.
    unfold UN_rcol. rewrite Hg.
    unfold Mshs.UN_eliminate. unfold_ops. unfold shifted.
    rewrite !(HW K) by lia. rewrite !(HX K) by lia.
    nat_bool; subst; rewrite ?Nat.sub_0_r, ?Nat.add_0_l;
      rewrite ?(HW i) by lia; rewrite ?(HX i) by lia;
      rewrite ?(HW (K - 1)%nat) by lia; rewrite ?(HX (K - 1)%nat) by lia;
      try reflexivity; ring.
  - unfold Mshs.UN_eliminate. unfold_ops.
    rewrite !(HW K) by lia.
    nat_bool; [subst; rewrite Hg; reflexivity | apply HCS; lia].
  - unfold Mshs.UN_eliminate. unfold_ops.
    rewrite !(HW K) by lia.
    nat_bool; [subst; rewrite Hg; reflexivity | apply HCS; lia].
Qed.

Lemma UN_last_solved f :
  (0 < m)%nat -> UN_fwd 0 f -> UN_solved (UN_last j f).
Proof.
  intros Hm (HW & HX & HCS). split.
  - intros i Hi. unfold Mshs.UN_last. unfold_ops.
    nat_bool; subst.
    + rewrite HW, HX by lia.
      rewrite UN_y_eq, UN_pivot_bottom by lia. reflexivity.
    + rewrite HX by lia. apply UN_x_done; lia.
  - intros k Hk. unfold Mshs.UN_last. unfold_ops. apply HCS. exact Hk.
Qed.

Lemma UN_fresh_t f n :
  UN_solved f ->
  UN_solved (witht2 (witht1 f (Zeros n 1)) (Zeros n 1)).
Proof. intros Hs. exact Hs. Qed.

Lemma UN_t1_back f :
  (0 < m)%nat -> UN_solved f -> UN_back 0 (UN_t1 j f).
Proof.
  intros Hm (HX & HCS). unfold UN_back. repeat split.
  - unfold Mshs.UN_t1. unfold_ops. rewrite !Nat.eqb_refl. cbn [andb].
    rewrite HX by lia. symmetry. apply UN_t_bottom.
  - intros i Hi. unfold Mshs.UN_t1. unfold_ops.
    rewrite HX by lia. reflexivity.
  - apply HCS. assumption.
  - apply HCS. assumption.
Qed.

Lemma UN_rotate_back k f :
  (0 < k < m)%nat -> UN_back (k - 1) f -> UN_back k (UN_rotate k j f).
Proof.
  intros Hk (Ht & HX & HCS).
  destruct (HCS k ltac:(lia)) as [Hc Hs].
  unfold UN_back. repeat split.
  - unfold Mshs.UN_rotate. unfold_ops. rewrite !Nat.eqb_refl. cbn [andb].
    rewrite Ht, Hc, Hs, (HX k) by lia.
    destruct (Nat.ltb_spec k (k - 1)); [lia|].
    symmetry. apply UN_t_step. lia.
  - intros i Hi. unfold Mshs.UN_rotate. unfold_ops.
    rewrite !Nat.eqb_refl. cbn [andb].
    rewrite Ht, Hc, Hs, (HX k) by lia.
    destruct (Nat.ltb_spec k (k - 1)); [lia|].
    nat_bool; subst.
    + symmetry. apply UN_out_step. lia.
    + rewrite HX by lia. nat_bool. reflexivity.
    + rewrite HX by lia. nat_bool. reflexivity.
  - apply HCS. assumption.
  - apply HCS. assumption.
Qed.

Lemma UN_final_done f :
  (0 < m)%nat -> UN_back (m - 1) f -> UN_done (UN_final j f).
Proof.
  intros Hm (Ht & HX & _) i Hi. unfold Mshs.UN_final. unfold_ops.
  nat_bool; subst.
  - rewrite Ht. symmetry. apply UN_out_top.
  - rewrite HX by lia. nat_bool. reflexivity.
Qed.
End UColumn.

Lemma UN_rotations_stored_column K :
  column_property (fun j f => UN_rotations_stored j K f).
Proof.
  column_property_tac. intros HCS k Hk. rewrite E3, E4. apply HCS. exact Hk.
Qed.

Lemma UN_fwd_column X0 K :
  column_property (fun j f => UN_fwd X0 j K f).
Proof.
  intros j f f' E (HW & HX & HCS). pose proof E as (E1 & E2 & _).
  split; [|split].
  - intros i Hi. rewrite E2. apply HW. exact Hi.
  - intros i Hi. rewrite E1. apply HX. exact Hi.
  - apply (UN_rotations_stored_column K j f f' E HCS).
Qed.

Lemma UN_solved_column X0 :
  column_property (fun j f => UN_solved X0 j f).
Proof.
  intros j f f' E (HX & HCS). pose proof E as (E1 & _).
  split.
  - intros i Hi. rewrite E1. apply HX. exact Hi.
  - apply (UN_rotations_stored_column 0 j f f' E HCS).
Qed.

Lemma UN_back_column X0 k :
  column_property (fun j f => UN_back X0 j k f).
Proof.
  intros j f f' E (Ht & HX & HCS). pose proof E as (E1 & _ & _ & _ & E5 & _).
  split; [|split].
  - rewrite E5. exact Ht.
  - intros i Hi. rewrite E1. apply HX. exact Hi.
  - apply (UN_rotations_stored_column 0 j f f' E HCS).
Qed.

Lemma UN_done_column X0 :
  column_property (fun j f => UN_done X0 j f).
Proof.
  intros j f f' (E1 & _) HX i Hi. rewrite E1. apply HX. exact Hi.
Qed.

(** **** The loops of [UN], one after the other. *)
Section UPhases.
Variable X0 : Matrix.
Variable n : nat.

Lemma UN_phase_init f :
  (0 < m)%nat ->
  (forall j, (j < n)%nat -> LN_scaled X0 j f) ->
  forall j, (j < n)%nat ->
    UN_fwd X0 j (m - 1) (For (upto 0 n) UN_init f).
Proof.
  intros Hm.
  apply (For_columns n UN_init
           (fun j f => LN_scaled X0 j f)
           (fun j f => UN_fwd X0 j (m - 1) f)).
  - apply UN_init_columnwise.
  - apply LN_scaled_column.
  - apply UN_fwd_column.
  - intros j g _. apply UN_init_fwd. exact Hm.
Qed.

Lemma UN_phase_eliminate f :
  (0 < m)%nat ->
  (forall j, (j < n)%nat -> UN_fwd X0 j (m - 1) f) ->
  forall j, (j < n)%nat ->
    UN_fwd X0 j 0
      (For (downfrom m 1)
         (fun k => For (upto 0 n) (UN_eliminate k)) f).
Proof.
  intros Hm Hf. unfold downfrom.
  apply (For_down_inv
           (fun K s => forall j, (j < n)%nat -> UN_fwd X0 j (K - 1) s)
           (fun k => For (upto 0 n) (UN_eliminate k)) (m - 1) 1%nat f).
  - replace (1 + (m - 1) - 1)%nat with (m - 1)%nat by lia. exact Hf.
  - intros K s HK Hs.
    apply (For_columns n (UN_eliminate K)
             (fun j f => UN_fwd X0 j K f)
             (fun j f => UN_fwd X0 j (K - 1) f)).
    + apply UN_eliminate_columnwise.
    + apply UN_fwd_column.
    + apply UN_fwd_column.
    + intros j g _. apply UN_eliminate_fwd. lia.
    + intros j Hj. specialize (Hs j Hj).
      replace (S K - 1)%nat with K in Hs by lia. exact Hs.
Qed.

Lemma UN_phase_last f :
  (0 < m)%nat ->
  (forall j, (j < n)%nat -> UN_fwd X0 j 0 f) ->
  forall j, (j < n)%nat -> UN_solved X0 j (For (upto 0 n) UN_last f).
Proof.
  intros Hm.
  apply (For_columns n UN_last
           (fun j f => UN_fwd X0 j 0 f)
           (fun j f => UN_solved X0 j f)).
  - apply UN_last_columnwise.
  - apply UN_fwd_column.
  - apply UN_solved_column.
  - intros j g _. apply UN_last_solved. exact Hm.
Qed.

Lemma UN_phase_t1 f :
  (0 < m)%nat ->
  (forall j, (j < n)%nat -> UN_solved X0 j f) ->
  forall j, (j < n)%nat -> UN_back X0 j 0 (For (upto 0 n) UN_t1 f).
Proof.
  intros Hm.
  apply (For_columns n UN_t1
           (fun j f => UN_solved X0 j f)
           (fun j f => UN_back X0 j 0 f)).
  - apply UN_t1_columnwise.
  - apply UN_solved_column.
  - apply UN_back_column.
  - intros j g _. apply UN_t1_back. exact Hm.
Qed.

Lemma UN_phase_rotate f :
  (0 < m)%nat ->
  (forall j, (j < n)%nat -> UN_back X0 j 0 f) ->
  forall j, (j < n)%nat ->
    UN_back X0 j (m - 1)
      (For (upto 1 m)
         (fun k => For (upto 0 n) (UN_rotate k)) f).
Proof.
  intros Hm Hf. unfold upto at 1.
  pose proof (For_up_inv
           (fun K s => forall j, (j < n)%nat -> UN_back X0 j (K - 1) s)
           (fun k => For (upto 0 n) (UN_rotate k)) (m - 1) 1%nat f) as HI.
  cbv beta in HI.
  replace (1 + (m - 1) - 1)%nat with (m - 1)%nat in HI by lia.
  apply HI.
  - exact Hf.
  - intros K s HK Hs.
    replace (S K - 1)%nat with K by lia.
    apply (For_columns n (UN_rotate K)
             (fun j f => UN_back X0 j (K - 1) f)
             (fun j f => UN_back X0 j K f)).
    + apply UN_rotate_columnwise.
    + apply UN_back_column.
    + apply UN_back_column.
    + intros j g _. apply UN_rotate_back. lia.
    + exact Hs.
Qed.

Lemma UN_phase_final f :
  (0 < m)%nat ->
  (forall j, (j < n)%nat -> UN_back X0 j (m - 1) f) ->
  forall j, (j < n)%nat -> UN_done X0 j (For (upto 0 n) UN_final f).
Proof.
  intros Hm.
  apply (For_columns n UN_final
           (fun j f => UN_back X0 j (m - 1) f)
           (fun j f => UN_done X0 j f)).
  - apply UN_final_columnwise.
  - apply UN_back_column.
  - apply UN_done_column.
  - intros j g _. apply UN_final_done. exact Hm.
Qed.
End UPhases.
End WithInput.

(** Entry [(i,j)] of the matrix returned by [LN] is the closed form
    [LN_out] of column [j]. *)
Lemma LN_simulates alpha H shifts X i j :
  (i < Height X)%nat -> (j < Width X)%nat ->
  Get (LN ComputeGivens alpha H shifts X) i j
  = LN_out ComputeGivens H (Get shifts j 0%nat)
      (Height X) (fun i => alpha * Get X i j) i.
Proof.
  intros Hi Hj. unfold LN.
  cbn [Mshs.Height Mshs.Width Scale].
  destruct (Nat.eqb_spec (Height X) 0) as [E|E]; [lia|].
  apply (LN_phase_first alpha H shifts (Height X) X (Width X));
    [|exact Hj|exact Hi].
  apply LN_phase_rotate; [lia|].
  apply LN_phase_t1; [lia|].
  intros j' Hj'. apply LN_fresh_t.
  revert j' Hj'.
  apply LN_phase_last; [lia|].
  apply LN_phase_eliminate; [lia|].
  apply LN_phase_init.
  intros j' Hj' i'. reflexivity.
Qed.

(** Entry [(i,j)] of the matrix returned by [UN] is the closed form
    [UN_out] of column [j]. *)
Lemma UN_simulates alpha H shifts X i j :
  (i < Height X)%nat -> (j < Width X)%nat ->
  Get (UN ComputeGivens alpha H shifts X) i j
  = UN_out ComputeGivens H (Get shifts j 0%nat)
      (Height X) (fun i => alpha * Get X i j) i.
Proof.
  intros Hi Hj. unfold UN.
  cbn [Mshs.Height Mshs.Width Scale].
  destruct (Nat.eqb_spec (Height X) 0) as [E|E]; [lia|].
  apply (UN_phase_final alpha H shifts (Height X) X (Width X));
    [lia| |exact Hj|exact Hi].
  apply UN_phase_rotate; [lia|].
  apply UN_phase_t1; [lia|].
  intros j' Hj'. apply UN_fresh_t.
  revert j' Hj'.
  apply UN_phase_last; [lia|].
  apply UN_phase_eliminate; [lia|].
  apply UN_phase_init; [lia|].
  intros j' Hj' i'. reflexivity.
Qed.
End Sim.

Section Main.
Context {Fld : Scalars}.
Variable ComputeGivens : Fld -> Fld -> Givens Fld.
Hypothesis Fth : FieldLaws Fld.
Hypothesis Hgiv : GivensContract ComputeGivens.

Lemma LN_correct alpha H shifts X :
  LowerHessenberg (Height X) H ->
  (forall j k, j < Width X -> k < Height X ->
     LN_pivot ComputeGivens H (Get shifts j 0) (Height X) k <> Fzero) ->
  forall i j, i < Height X -> j < Width X ->
    substitute_back H shifts (LN ComputeGivens alpha H shifts X) (Height X) i j
    = Fmul alpha (Get X i j).
Proof.
  intros Hh Hp i j Hi Hj. unfold substitute_back, apply_shifted.
  rewrite (sumn_ext (Height X) _
             (fun l => Fmul (shifted H (Get shifts j 0) i l)
                (LN_out ComputeGivens H (Get shifts j 0) (Height X)
                   (fun i => Fmul alpha (Get X i j)) l))).
  - apply (LN_column_solves ComputeGivens Fth H (Get shifts j 0) (Height X)
             (fun i => Fmul alpha (Get X i j)) Hh Hgiv).
    + intros k Hk. apply Hp; assumption.
    + exact Hi.
  - intros l Hl. f_equal.
    apply (LN_simulates ComputeGivens Fth); assumption.
Qed.

Lemma UN_correct alpha H shifts X :
  UpperHessenberg (Height X) H ->
  (forall j k, j < Width X -> k < Height X ->
     UN_pivot ComputeGivens H (Get shifts j 0) (Height X) k <> Fzero) ->
  forall i j, i < Height X -> j < Width X ->
    substitute_back H shifts (UN ComputeGivens alpha H shifts X) (Height X) i j
    = Fmul alpha (Get X i j).
Proof.
  intros Hh Hp i j Hi Hj. unfold substitute_back, apply_shifted.
  rewrite (sumn_ext (Height X) _
             (fun l => Fmul (shifted H (Get shifts j 0) i l)
                (UN_out ComputeGivens H (Get shifts j 0) (Height X)
                   (fun i => Fmul alpha (Get X i j)) l))).
  - apply (UN_column_solves ComputeGivens Fth H (Get shifts j 0) (Height X)
             (fun i => Fmul alpha (Get X i j)) Hh Hgiv).
    + intros k Hk. apply Hp; assumption.
    + exact Hi.
  - intros l Hl. f_equal.
    apply (UN_simulates ComputeGivens Fth); assumption.
Qed.
End Main.

(** C1 (amended). In exact arithmetic, for a Givens routine that
    annihilates the second component, and when no divisor is zero: [LN]
    solves the shifted systems of a LOWER Hessenberg matrix and [UN] those
    of an UPPER Hessenberg matrix; substituting column [j] of the output
    back into [H - shift_j I] gives [alpha] times column [j] of the
    input. *)
Theorem mshs_solves_shifted_systems
    (Fld : Scalars) (ComputeGivens : Fld -> Fld -> Givens Fld)
    (alpha : Fld) (H shifts X : Matrix Fld) :
  FieldLaws Fld ->
  GivensContract ComputeGivens ->
  (LowerHessenberg (Height X) H ->
   (forall j k, j < Width X -> k < Height X ->
      LN_pivot ComputeGivens H (Get shifts j 0) (Height X) k <> Fzero) ->
   forall i j, i < Height X -> j < Width X ->
     substitute_back H shifts (LN ComputeGivens alpha H shifts X)
       (Height X) i j
     = Fmul alpha (Get X i j))
  /\
  (UpperHessenberg (Height X) H ->
   (forall j k, j < Width X -> k < Height X ->
      UN_pivot ComputeGivens H (Get shifts j 0) (Height X) k <> Fzero) ->
   forall i j, i < Height X -> j < Width X ->
     substitute_back H shifts (UN ComputeGivens alpha H shifts X)
       (Height X) i j
     = Fmul alpha (Get X i j)).
Proof.
  intros Fth Hgiv. split.
  - apply LN_correct; assumption.
  - apply UN_correct; assumption.
Qed.

(* ----------------------------------------------------------------- *)
(** *** A concrete instance: canonical rationals *)

Definition QcScalars : Scalars :=
  mkScalars Qc 0%Qc 1%Qc Qcplus Qcmult Qcminus Qcopp Qcdiv Qcinv (fun x => x).

Lemma QcScalars_field : FieldLaws QcScalars.
Proof. exact Qcft. Qed.

(** A rotation routine on the rationals. On a pair with a zero component
    it returns what LAPACK's [lartg] returns there ([c = 1, s = 0] when
    [gamma = 0]; [c = 0, s = 1] when [phi = 0]); elsewhere the plane
    rotation is left unnormalised, which still annihilates [gamma]. *)
Definition GivensQc (phi gamma : QcScalars) : Givens QcScalars :=
  if Qc_eq_dec gamma 0%Qc then @mkGivens QcScalars 1%Qc 0%Qc phi
  else if Qc_eq_dec phi 0%Qc then @mkGivens QcScalars 0%Qc 1%Qc gamma
  else @mkGivens QcScalars phi gamma (phi * phi + gamma * gamma)%Qc.

Lemma GivensQc_contract : GivensContract GivensQc.
Proof.
  intros phi gamma. unfold GivensQc. cbn.
  destruct (Qc_eq_dec gamma 0) as [->|Hg]; cbn; [ring|].
  destruct (Qc_eq_dec phi 0) as [->|Hp]; cbn; ring.
Qed.

Definition Qrows (m n : nat) (rows : list (list Z)) : Matrix QcScalars :=
  @mkMatrix QcScalars m n
    (fun i j => Q2Qc (inject_Z (nth j (nth i rows []) 0%Z))).

(** A tridiagonal matrix is both lower and upper Hessenberg. *)
Definition Hw : Matrix QcScalars :=
  Qrows 3 3 [[2; 1; 0]; [1; 3; 1]; [0; 1; 4]]%Z.
Definition shiftsw : Matrix QcScalars := Qrows 2 1 [[1]; [-1]]%Z.
Definition Xw : Matrix QcScalars := Qrows 3 2 [[1; 0]; [2; 1]; [3; 5]]%Z.
Definition alphaw : QcScalars := Q2Qc 2.

Ltac small_nat i :=
  repeat (destruct i as [|i]; [|]); try lia.

Lemma Hw_lower : LowerHessenberg 3 Hw.
Proof.
  intros i l Hi Hl Hil.
  destruct i as [|[|[|i]]]; destruct l as [|[|[|l]]]; try lia.
  apply Qc_is_canon. reflexivity.
Qed.

Lemma Hw_upper : UpperHessenberg 3 Hw.
Proof.
  intros i l Hi Hl Hil.
  destruct i as [|[|[|i]]]; destruct l as [|[|[|l]]]; try lia.
  apply Qc_is_canon. reflexivity.
Qed.

Lemma Qc_nonzero (q : Qc) : Qeq_bool q 0 = false -> q <> 0%Qc.
Proof.
  intros Hb E. rewrite E in Hb. discriminate Hb.
Qed.

Lemma Hw_LN_pivots j k :
  j < 2 -> k < 3 -> LN_pivot GivensQc Hw (Get shiftsw j 0) 3 k <> Fzero.
Proof.
  intros Hj Hk. apply Qc_nonzero.
  destruct j as [|[|j]]; destruct k as [|[|[|k]]]; try lia; vm_compute; reflexivity.
Qed.

Lemma Hw_UN_pivots j k :
  j < 2 -> k < 3 -> UN_pivot GivensQc Hw (Get shiftsw j 0) 3 k <> Fzero.
Proof.
  intros Hj Hk. apply Qc_nonzero.
  destruct j as [|[|j]]; destruct k as [|[|[|k]]]; try lia; vm_compute; reflexivity.
Qed.

Lemma mshs_solves_shifted_systems_witness :
  (forall i j, i < 3 -> j < 2 ->
     substitute_back Hw shiftsw (LN GivensQc alphaw Hw shiftsw Xw) 3 i j
     = Fmul alphaw (Get Xw i j))
  /\
  (forall i j, i < 3 -> j < 2 ->
     substitute_back Hw shiftsw (UN GivensQc alphaw Hw shiftsw Xw) 3 i j
     = Fmul alphaw (Get Xw i j)).
Proof.
  destruct (mshs_solves_shifted_systems QcScalars GivensQc alphaw Hw shiftsw Xw
              QcScalars_field GivensQc_contract) as [HL HU].
  split.
  - exact (HL Hw_lower Hw_LN_pivots).
  - exact (HU Hw_upper Hw_UN_pivots).
Defined.

(** The claim as stated takes [H] upper Hessenberg for [LN] too. [LN]
    never reads the entries above the superdiagonal: with an upper
    triangular [H] whose entry (0,2) is 1, shift 0, [alpha = 1] and
    right-hand side (0,0,1), every rotation is the identity, every divisor
    is 1, [LN] returns (0,0,1), and row 0 of [H x] is 1, not 0. *)
Definition Hc : Matrix QcScalars :=
  Qrows 3 3 [[1; 0; 1]; [0; 1; 0]; [0; 0; 1]]%Z.
Definition shiftsc : Matrix QcScalars := Qrows 1 1 [[0]]%Z.
Definition Xc : Matrix QcScalars := Qrows 3 1 [[0]; [0]; [1]]%Z.
Definition alphac : QcScalars := Q2Qc 1.

Lemma LN_upper_Hessenberg_counterexample :
  UpperHessenberg 3 Hc /\
  GivensContract GivensQc /\
  (forall j k, j < 1 -> k < 3 ->
     LN_pivot GivensQc Hc (Get shiftsc j 0) 3 k <> Fzero) /\
  substitute_back Hc shiftsc (LN GivensQc alphac Hc shiftsc Xc) 3 0 0
    <> Fmul alphac (Get Xc 0 0).
Proof.
  split; [|split; [|split]].
  - intros i l Hi Hl Hil.
    destruct i as [|[|[|i]]]; destruct l as [|[|[|l]]]; try lia.
    apply Qc_is_canon. reflexivity.
  - exact GivensQc_contract.
  - intros j k Hj Hk. apply Qc_nonzero.
    destruct j as [|j]; destruct k as [|[|[|k]]]; try lia; vm_compute; reflexivity.
  - intros E. apply (f_equal this) in E. vm_compute in E. discriminate E.
Qed.

(** *** What a column of the output depends on *)

Section Dependence.
Context {Fld : Scalars}.
Variable ComputeGivens : Fld -> Fld -> Givens Fld.
Local Notation "0" := Fzero : F_scope.
Local Infix "+" := Fadd : F_scope.
Local Infix "*" := Fmul : F_scope.
Local Infix "-" := Fsub : F_scope.
Local Infix "/" := Fdiv : F_scope.
Local Notation "- x" := (Fopp x) : F_scope.
Local Open Scope F_scope.

Variables H H' : Matrix Fld.
Variable mu : Fld.
Variable m : nat.
Variables b b' : nat -> Fld.

(** [H] and [H'] have the same lower triangle and superdiagonal. *)
Definition agree_lower : Prop :=
  forall i l, (i < m)%nat -> (l < m)%nat -> (l <= i + 1)%nat ->
    Get H' i l = Get H i l.

Hypothesis HH : agree_lower.
Hypothesis Hb : forall i, (i < m)%nat -> b' i = b i.

Lemma shifted_agree i l :
  (i < m)%nat -> (l < m)%nat -> (l <= i + 1)%nat ->
  shifted H' mu i l = shifted H mu i l.
Proof.
  intros Hi Hl Hil. unfold shifted. rewrite (HH i l) by assumption.
  reflexivity.
Qed.

Lemma LN_w_agree k : forall i,
  (k <= i)%nat -> (i < m)%nat ->
  LN_w ComputeGivens H' mu k i = LN_w ComputeGivens H mu k i.
Proof.
  induction k as [|k IH]; intros i Hk Hi; cbn [LN_w].
  - apply shifted_agree; lia.
  - rewrite (IH k), (IH i) by lia.
    rewrite (HH k (k + 1)%nat) by lia.
    rewrite (shifted_agree i (k + 1)%nat) by lia. reflexivity.
Qed.

Lemma LN_g_agree k :
  (k + 1 < m)%nat ->
  LN_g ComputeGivens H' mu k = LN_g ComputeGivens H mu k.
Proof.
  intros Hk. unfold LN_g. rewrite LN_w_agree by lia.
  rewrite (HH k (k + 1)%nat) by lia. reflexivity.
Qed.

Lemma LN_pivot_agree k :
  (k < m)%nat ->
  LN_pivot ComputeGivens H' mu m k = LN_pivot ComputeGivens H mu m k.
Proof.
  intros Hk. unfold LN_pivot.
  destruct (Nat.ltb_spec (k + 1) m).
  - rewrite LN_g_agree, LN_w_agree by lia.
    rewrite (HH k (k + 1)%nat) by lia. reflexivity.
  - apply LN_w_agree; lia.
Qed.

Lemma LN_col_agree k i :
  (k <= i)%nat -> (i < m)%nat -> (k + 1 < m)%nat ->
  LN_col ComputeGivens H' mu k i = LN_col ComputeGivens H mu k i.
Proof.
  intros Hk Hi Hm. unfold LN_col.
  rewrite LN_g_agree, LN_w_agree by lia.
  rewrite (shifted_agree i (k + 1)%nat) by lia. reflexivity.
Qed.

Lemma LN_x_agree K : forall i,
  (K <= m)%nat -> (i < m)%nat ->
  LN_x ComputeGivens H' mu m b' K i = LN_x ComputeGivens H mu m b K i.
Proof.
  induction K as [|K IH]; intros i HK Hi; cbn [LN_x].
  - apply Hb. exact Hi.
  - cbv zeta. destruct (Nat.ltb_spec i K); [apply IH; lia|].
    rewrite (IH K), LN_pivot_agree by lia.
    destruct (Nat.eqb_spec i K); [reflexivity|].
    rewrite (IH i), LN_col_agree by lia. reflexivity.
Qed.

Lemma LN_y_agree l :
  (l < m)%nat ->
  LN_y ComputeGivens H' mu m b' l = LN_y ComputeGivens H mu m b l.
Proof.
  intros Hl. unfold LN_y. rewrite LN_x_agree, LN_pivot_agree by lia.
  reflexivity.
Qed.

Lemma LN_t_from_agree d : forall k,
  (k + d < m)%nat ->
  LN_t_from ComputeGivens H' mu m b' d k
  = LN_t_from ComputeGivens H mu m b d k.
Proof.
  induction d as [|d IH]; intros k Hk; cbn [LN_t_from].
  - apply LN_y_agree. lia.
  - rewrite LN_g_agree, LN_y_agree, IH by lia. reflexivity.
Qed.

Lemma LN_out_agree i :
  (i < m)%nat ->
  LN_out ComputeGivens H' mu m b' i = LN_out ComputeGivens H mu m b i.
Proof.
  intros Hi. destruct i as [|k]; cbn [LN_out]; unfold LN_t.
  - apply LN_t_from_agree. lia.
  - rewrite LN_g_agree, LN_y_agree, LN_t_from_agree by lia. reflexivity.
Qed.
End Dependence.

Section DependenceUN.
Context {Fld : Scalars}.
Variable ComputeGivens : Fld -> Fld -> Givens Fld.
Variables H H' : Matrix Fld.
Variable mu : Fld.
Variable m : nat.
Variables b b' : nat -> Fld.

(** [H] and [H'] have the same upper triangle and subdiagonal. *)
Definition agree_upper : Prop :=
  forall i l, (i < m)%nat -> (l < m)%nat -> (i <= l + 1)%nat ->
    Get H' i l = Get H i l.

Hypothesis HH : agree_upper.
Hypothesis Hb : forall i, (i < m)%nat -> b' i = b i.

Lemma UN_out_agree i :
  (i < m)%nat ->
  UN_out ComputeGivens H' mu m b' i = UN_out ComputeGivens H mu m b i.
Proof.
  intros Hi. unfold UN_out. apply LN_out_agree; [| |lia].
  - intros i' l Hi' Hl Hil. unfold flip. cbn [Get]. apply HH; lia.
  - intros i' Hi'. unfold flipv. apply Hb. lia.
Qed.
End DependenceUN.


(** *** Linearity in the right-hand side *)

Section Linear.
Context {Fld : Scalars}.
Variable ComputeGivens : Fld -> Fld -> Givens Fld.
Hypothesis Fth : FieldLaws Fld.
Add Field Fld_field3 :
  (Fth : field_theory (@Fzero Fld) Fone Fadd Fmul Fsub Fopp Fdiv Finv eq).
Local Notation "0" := Fzero : F_scope.
Local Infix "+" := Fadd : F_scope.
Local Infix "*" := Fmul : F_scope.
Local Infix "-" := Fsub : F_scope.
Local Infix "/" := Fdiv : F_scope.
Local Notation "- x" := (Fopp x) : F_scope.
Local Open Scope F_scope.

Variable H : Matrix Fld.
Variable mu : Fld.
Variable m : nat.
Variables b1 b2 : nat -> Fld.
Variables c1 c2 : Fld.

Local Abbreviation b := (fun i : nat => c1 * b1 i + c2 * b2 i).

Lemma div_linear (x1 x2 p : Fld) :
  (c1 * x1 + c2 * x2) / p = c1 * (x1 / p) + c2 * (x2 / p).
Proof. rewrite !(Fdiv_def Fth). ring. Qed.

Lemma scaled_combination (alpha x x1 x2 : Fld) :
  x = c1 * x1 + c2 * x2 ->
  alpha * x = c1 * (alpha * x1) + c2 * (alpha * x2).
Proof. intros ->. ring. Qed.

Lemma LN_x_linear K : forall i,
  LN_x ComputeGivens H mu m b K i
  = c1 * LN_x ComputeGivens H mu m b1 K i
    + c2 * LN_x ComputeGivens H mu m b2 K i.
Proof.
  induction K as [|K IH]; intros i; cbn [LN_x]; [reflexivity|].
  cbv zeta. destruct (Nat.ltb_spec i K); [apply IH|].
  rewrite (IH K), div_linear.
  destruct (Nat.eqb_spec i K); [reflexivity|].
  rewrite (IH i). ring.
Qed.

Lemma LN_y_linear l :
  LN_y ComputeGivens H mu m b l
  = c1 * LN_y ComputeGivens H mu m b1 l
    + c2 * LN_y ComputeGivens H mu m b2 l.
Proof. unfold LN_y. rewrite LN_x_linear. apply div_linear. Qed.

Lemma LN_t_from_linear d : forall k,
  LN_t_from ComputeGivens H mu m b d k
  = c1 * LN_t_from ComputeGivens H mu m b1 d k
    + c2 * LN_t_from ComputeGivens H mu m b2 d k.
Proof.
  induction d as [|d IH]; intros k; cbn [LN_t_from].
  - apply LN_y_linear.
  - rewrite LN_y_linear, IH. ring.
Qed.

Lemma LN_out_linear i :
  LN_out ComputeGivens H mu m b i
  = c1 * LN_out ComputeGivens H mu m b1 i
    + c2 * LN_out ComputeGivens H mu m b2 i.
Proof.
  destruct i as [|k]; cbn [LN_out]; unfold LN_t.
  - apply LN_t_from_linear.
  - rewrite LN_y_linear, LN_t_from_linear. ring.
Qed.
End Linear.

Section LinearUN.
Context {Fld : Scalars}.
Variable ComputeGivens : Fld -> Fld -> Givens Fld.
Hypothesis Fth : FieldLaws Fld.

Lemma UN_out_linear (H : Matrix Fld) mu m (b1 b2 : nat -> Fld) c1 c2 i :
  UN_out ComputeGivens H mu m
    (fun i => Fadd (Fmul c1 (b1 i)) (Fmul c2 (b2 i))) i
  = Fadd (Fmul c1 (UN_out ComputeGivens H mu m b1 i))
         (Fmul c2 (UN_out ComputeGivens H mu m b2 i)).
Proof.
  unfold UN_out.
  exact (LN_out_linear ComputeGivens Fth (flip H m) mu m
           (flipv m b1) (flipv m b2) c1 c2 (m - 1 - i)).
Qed.

Lemma agree_lower_refl (H : Matrix Fld) m : agree_lower H H m.
Proof. intros i l _ _ _. reflexivity. Qed.

Lemma agree_upper_refl (H : Matrix Fld) m : agree_upper H H m.
Proof. intros i l _ _ _. reflexivity. Qed.
End LinearUN.



(** X6. The columns are solved independently of each other: column [j]
    of the output of [LN] and of [UN] is determined by [alpha], [H], the
    shift of index [j] and column [j] of [X]. The other columns, the other
    shifts, the position of the column and the width of [X] have no
    influence on it. *)
Theorem mshs_columns_independent
    (Fld : Scalars) (ComputeGivens : Fld -> Fld -> Givens Fld)
    (alpha : Fld) (H shifts shifts' X X' : Matrix Fld) (j j' : nat) :
  FieldLaws Fld ->
  Height X' = Height X -> j < Width X -> j' < Width X' ->
  Get shifts' j' 0 = Get shifts j 0 ->
  (forall i, i < Height X -> Get X' i j' = Get X i j) ->
  forall i, i < Height X ->
    Get (LN ComputeGivens alpha H shifts' X') i j'
    = Get (LN ComputeGivens alpha H shifts X) i j /\
    Get (UN ComputeGivens alpha H shifts' X') i j'
    = Get (UN ComputeGivens alpha H shifts X) i j.
Proof.
  intros Fth Hh Hj Hj' Hs HX i Hi. split.
  - rewrite !(LN_simulates ComputeGivens Fth) by (try assumption; lia).
    rewrite Hs, Hh. apply LN_out_agree; [apply agree_lower_refl | | exact Hi].
    intros i' Hi'. cbv beta. rewrite HX by exact Hi'. reflexivity.
  - rewrite !(UN_simulates ComputeGivens Fth) by (try assumption; lia).
    rewrite Hs, Hh. apply UN_out_agree; [apply agree_upper_refl | | exact Hi].
    intros i' Hi'. cbv beta. rewrite HX by exact Hi'. reflexivity.
Qed.

(** The second column of [Xw], alone, with its shift. *)
Definition Xw1 : Matrix QcScalars := Qrows 3 1 [[0]; [1]; [5]]%Z.
Definition shiftsw1 : Matrix QcScalars := Qrows 1 1 [[-1]]%Z.

Lemma mshs_columns_independent_witness :
  Get (LN GivensQc alphaw Hw shiftsw1 Xw1) 2 0
  = Get (LN GivensQc alphaw Hw shiftsw Xw) 2 1 /\
  Get (UN GivensQc alphaw Hw shiftsw1 Xw1) 2 0
  = Get (UN GivensQc alphaw Hw shiftsw Xw) 2 1.
Proof.
  apply (mshs_columns_independent QcScalars GivensQc alphaw Hw shiftsw shiftsw1
           Xw Xw1 1 0 QcScalars_field); try reflexivity; try (cbn; lia).
  intros i Hi. destruct i as [|[|[|i]]]; try reflexivity. cbn in Hi. lia.
Defined.

(** X7. [LN] reads of [H] its lower triangle and its superdiagonal only,
    [UN] its upper triangle and its subdiagonal only: changing any other
    entry of [H] leaves the output as it is. *)
Theorem mshs_reads_Hessenberg_part
    (Fld : Scalars) (ComputeGivens : Fld -> Fld -> Givens Fld)
    (alpha : Fld) (H H' shifts X : Matrix Fld) :
  FieldLaws Fld ->
  ((forall i l, i < Height X -> l < Height X -> l <= i + 1 ->
      Get H' i l = Get H i l) ->
   forall i j, i < Height X -> j < Width X ->
     Get (LN ComputeGivens alpha H' shifts X) i j
     = Get (LN ComputeGivens alpha H shifts X) i j) /\
  ((forall i l, i < Height X -> l < Height X -> i <= l + 1 ->
      Get H' i l = Get H i l) ->
   forall i j, i < Height X -> j < Width X ->
     Get (UN ComputeGivens alpha H' shifts X) i j
     = Get (UN ComputeGivens alpha H shifts X) i j).
Proof.
  intros Fth. split; intros HH i j Hi Hj.
  - rewrite !(LN_simulates ComputeGivens Fth) by assumption.
    apply LN_out_agree; [exact HH | reflexivity | exact Hi].
  - rewrite !(UN_simulates ComputeGivens Fth) by assumption.
    apply UN_out_agree; [exact HH | reflexivity | exact Hi].
Qed.

(** [Hw] with its entry (0,2), above the superdiagonal, replaced. *)
Definition Hw_corner : Matrix QcScalars :=
  Qrows 3 3 [[2; 1; 7]; [1; 3; 1]; [0; 1; 4]]%Z.

Lemma mshs_reads_Hessenberg_part_witness :
  Get (LN GivensQc alphaw Hw_corner shiftsw Xw) 0 1
  = Get (LN GivensQc alphaw Hw shiftsw Xw) 0 1.
Proof.
  apply (proj1 (mshs_reads_Hessenberg_part QcScalars GivensQc alphaw Hw
                  Hw_corner shiftsw Xw QcScalars_field)).
  - intros i l Hi Hl Hil. cbn in Hi, Hl.
    destruct i as [|[|[|i]]]; destruct l as [|[|[|l]]]; try lia; reflexivity.
  - cbn. lia.
  - cbn. lia.
Defined.

(** X8. In exact arithmetic (the scalars form a field), for a column in
    which no divisor is zero, [LN] and [UN] are linear in the right-hand
    side: a column that is a linear combination of two columns is sent to
    the same combination of what the two columns are sent to. *)
Theorem mshs_linear
    (Fld : Scalars) (ComputeGivens : Fld -> Fld -> Givens Fld)
    (alpha c1 c2 : Fld) (H shifts X X1 X2 : Matrix Fld) (j : nat) :
  FieldLaws Fld ->
  Height X1 = Height X -> Height X2 = Height X ->
  j < Width X -> j < Width X1 -> j < Width X2 ->
  (forall i, i < Height X ->
     Get X i j = Fadd (Fmul c1 (Get X1 i j)) (Fmul c2 (Get X2 i j))) ->
  ((forall k, k < Height X ->
      LN_pivot ComputeGivens H (Get shifts j 0) (Height X) k <> Fzero) ->
   forall i, i < Height X ->
     Get (LN ComputeGivens alpha H shifts X) i j
     = Fadd (Fmul c1 (Get (LN ComputeGivens alpha H shifts X1) i j))
            (Fmul c2 (Get (LN ComputeGivens alpha H shifts X2) i j))) /\
  ((forall k, k < Height X ->
      UN_pivot ComputeGivens H (Get shifts j 0) (Height X) k <> Fzero) ->
   forall i, i < Height X ->
     Get (UN ComputeGivens alpha H shifts X) i j
     = Fadd (Fmul c1 (Get (UN ComputeGivens alpha H shifts X1) i j))
            (Fmul c2 (Get (UN ComputeGivens alpha H shifts X2) i j))).
Proof.
  intros Fth H1 H2 Hj Hj1 Hj2 HX.
  assert (Hb : forall i', (i' < Height X)%nat ->
             Fmul alpha (Get X i' j)
             = Fadd (Fmul c1 (Fmul alpha (Get X1 i' j)))
                    (Fmul c2 (Fmul alpha (Get X2 i' j)))).
  { intros i' Hi'. apply (scaled_combination Fth). apply HX. exact Hi'. }
  split; intros _ i Hi.
  - rewrite !(LN_simulates ComputeGivens Fth) by (try assumption; lia).
    rewrite H1, H2.
    rewrite <- (LN_out_linear ComputeGivens Fth).
    apply LN_out_agree; [apply agree_lower_refl | | exact Hi].
    intros i' Hi'. apply Hb. exact Hi'.
  - rewrite !(UN_simulates ComputeGivens Fth) by (try assumption; lia).
    rewrite H1, H2.
    rewrite <- (UN_out_linear ComputeGivens Fth).
    apply UN_out_agree; [apply agree_upper_refl | | exact Hi].
    intros i' Hi'. apply Hb. exact Hi'.
Qed.


(** Three times the first column of [Xw] plus the column [Xw1]. *)
Definition Xsum : Matrix QcScalars := Qrows 3 1 [[3]; [7]; [14]]%Z.
Definition three : QcScalars := Q2Qc 3.
Definition one : QcScalars := Q2Qc 1.

Lemma mshs_linear_witness :
  Get (LN GivensQc alphaw Hw shiftsw Xsum) 1 0
  = Fadd (Fmul three (Get (LN GivensQc alphaw Hw shiftsw Xw) 1 0))
         (Fmul one (Get (LN GivensQc alphaw Hw shiftsw Xw1) 1 0)) /\
  Get (UN GivensQc alphaw Hw shiftsw Xsum) 1 0
  = Fadd (Fmul three (Get (UN GivensQc alphaw Hw shiftsw Xw) 1 0))
         (Fmul one (Get (UN GivensQc alphaw Hw shiftsw Xw1) 1 0)).
Proof.
  assert (HX : forall i, i < Height Xsum ->
            Get Xsum i 0
            = Fadd (Fmul three (Get Xw i 0)) (Fmul one (Get Xw1 i 0))).
  { intros i Hi. cbn in Hi.
    destruct i as [|[|[|i]]]; try lia; apply Qc_is_canon; reflexivity. }
  assert (H2 : 0 < 2) by lia.
  assert (H1 : 0 < 1) by lia.
  assert (H3 : 1 < 3) by lia.
  destruct (mshs_linear QcScalars GivensQc alphaw three one Hw shiftsw
              Xsum Xw Xw1 0 QcScalars_field eq_refl eq_refl H1 H2 H1 HX)
    as [HL HU].
  split.
  - exact (HL (fun k Hk => Hw_LN_pivots 0 k H2 Hk) 1 H3).
  - exact (HU (fun k Hk => Hw_UN_pivots 0 k H2 Hk) 1 H3).
Defined.

(** X9. With a single row both [LN] and [UN] return
    [alpha X(0,j) / (H(0,0) - shift_j)] in every column [j], whatever the
    rotation routine: none is computed. *)
Theorem mshs_scalar_case
    (Fld : Scalars) (ComputeGivens : Fld -> Fld -> Givens Fld)
    (alpha : Fld) (H shifts X : Matrix Fld) (j : nat) :
  FieldLaws Fld -> Height X = 1 -> j < Width X ->
  Get (LN ComputeGivens alpha H shifts X) 0 j
  = Fdiv (Fmul alpha (Get X 0 j)) (Fsub (Get H 0 0) (Get shifts j 0)) /\
  Get (UN ComputeGivens alpha H shifts X) 0 j
  = Fdiv (Fmul alpha (Get X 0 j)) (Fsub (Get H 0 0) (Get shifts j 0)).
Proof.
  intros Fth Hh Hj. split.
  - rewrite (LN_simulates ComputeGivens Fth) by (try assumption; lia).
    rewrite Hh. reflexivity.
  - rewrite (UN_simulates ComputeGivens Fth) by (try assumption; lia).
    rewrite Hh. reflexivity.
Qed.

Definition H1w : Matrix QcScalars := Qrows 1 1 [[5]]%Z.
Definition X1w : Matrix QcScalars := Qrows 1 2 [[3; 4]]%Z.

Lemma mshs_scalar_case_witness :
  Get (LN GivensQc alphaw H1w shiftsw X1w) 0 1
  = Fdiv (Fmul alphaw (Get X1w 0 1)) (Fsub (Get H1w 0 0) (Get shiftsw 1 0)) /\
  Get (UN GivensQc alphaw H1w shiftsw X1w) 0 1
  = Fdiv (Fmul alphaw (Get X1w 0 1)) (Fsub (Get H1w 0 0) (Get shiftsw 1 0)).
Proof.
  apply (mshs_scalar_case QcScalars GivensQc alphaw H1w shiftsw X1w 1
           QcScalars_field eq_refl).
  cbn. lia.
Defined.

(** *** Solving after multiplying *)

Section RoundTrip.
Context {Fld : Scalars}.
Variable ComputeGivens : Fld -> Fld -> Givens Fld.
Hypothesis Fth : FieldLaws Fld.
Add Field Fld_field4 :
  (Fth : field_theory (@Fzero Fld) Fone Fadd Fmul Fsub Fopp Fdiv Finv eq).
Local Notation "0" := Fzero : F_scope.
Local Infix "+" := Fadd : F_scope.
Local Infix "*" := Fmul : F_scope.
Local Infix "-" := Fsub : F_scope.
Local Infix "/" := Fdiv : F_scope.
Local Notation "- x" := (Fopp x) : F_scope.
Local Open Scope F_scope.

Lemma sumn_cut n : forall m (f : nat -> Fld),
  (n <= m)%nat -> (forall l, (n <= l < m)%nat -> f l = 0) ->
  sumn m f = sumn n f.
Proof.
  intros m f Hnm. induction Hnm as [|m Hnm IH]; intros Hz; [reflexivity|].
  cbn [sumn]. rewrite IH by (intros; apply Hz; lia).
  rewrite Hz by lia. ring.
Qed.

Lemma sumn_scale n (a : Fld) (f : nat -> Fld) :
  a * sumn n f = sumn n (fun l => a * f l).
Proof.
  induction n as [|n IH]; cbn [sumn]; [ring|]. rewrite <- IH. ring.
Qed.

(** Conjugation sends only zero to zero. *)
Definition ConjFaithful : Prop := forall x : Fld, Conj x = 0 -> x = 0.

Variable H : Matrix Fld.
Variable mu : Fld.
Variable m : nat.
Variable z : nat -> Fld.

Local Abbreviation w := (LN_w ComputeGivens H mu).
Local Abbreviation g := (LN_g ComputeGivens H mu).
Local Abbreviation pivot := (LN_pivot ComputeGivens H mu m).
Local Abbreviation col := (LN_col ComputeGivens H mu).
Local Abbreviation b := (apply_shifted H mu m z).

(** The determinant of the rotation of step [k]. *)
Definition LN_det (k : nat) : Fld :=
  gc (g k) * gc (g k) + gs (g k) * Conj (gs (g k)).

(** The entry [k] of [z] once the inverses of the rotations before [k]
    have been applied to it. *)
Fixpoint LN_u (k : nat) : Fld :=
  match k with
  | O => z 0%nat
  | S k' => (- gs (g k') * LN_u k' + gc (g k') * z (S k')) / LN_det k'
  end.

(** The entries of [z] after the inverses of all the rotations. *)
Definition LN_yz (k : nat) : Fld :=
  if (k + 1 <? m)%nat
  then (gc (g k) * LN_u k + Conj (gs (g k)) * z (S k)) / LN_det k
  else LN_u k.

Hypothesis Hhess : LowerHessenberg m H.
Hypothesis Hgiv : GivensContract ComputeGivens.
Hypothesis Hpiv : forall k, (k < m)%nat -> pivot k <> 0.
Hypothesis Hconj : ConjFaithful.

Lemma LN_det_nonzero k : (k + 1 < m)%nat -> LN_det k <> 0.
Proof.
  intros Hk Hd.
  pose proof (Hpiv k ltac:(lia)) as Hp. unfold LN_pivot in Hp.
  destruct (Nat.ltb_spec (k + 1) m); [|lia].
  pose proof (Hgiv (w k k) (Get H k (k + 1)%nat)) as Ha. cbv zeta in Ha.
  fold (g k) in Ha. unfold LN_det in Hd.
  set (c := gc (g k)) in *. set (s := gs (g k)) in *.
  set (phi := w k k) in *. set (gam := Get H k (k + 1)%nat) in *.
  set (p := c * phi + s * gam) in *.
  assert (Hpc : p * c = 0).
  { replace (p * c) with ((c * c + s * Conj s) * phi
                           + s * (- Conj s * phi + c * gam))
      by (unfold p; ring).
    rewrite Hd, Ha. ring. }
  assert (Hc : c = 0).
  { replace c with (p * c / p) by (field; exact Hp). rewrite Hpc. field.
    exact Hp. }
  assert (Hs : s <> 0).
  { intros Hs. apply Hp. unfold p. rewrite Hc, Hs. ring. }
  assert (Hss : s * Conj s = 0).
  { rewrite <- Hd. rewrite Hc. ring. }
  assert (Hcs : Conj s = 0).
  { replace (Conj s) with (s * Conj s / s) by (field; exact Hs).
    rewrite Hss. field. exact Hs. }
  apply Hs. apply Hconj. exact Hcs.
Qed.

(** The terms of row [i] of [(H - mu I) z] once the first [K] rotations
    have been applied to the columns and their inverses to [z]. *)
Definition LN_zterm (K i l : nat) : Fld :=
  if (l <? K)%nat then col l i * LN_yz l
  else if (l =? K)%nat then w K i * LN_u K
  else shifted H mu i l * z l.

Lemma LN_rotated K : (K < m)%nat -> forall i, sumn m (LN_zterm K i) = b i.
Proof.
  induction K as [|K IH]; intros HK i.
  - unfold apply_shifted. apply sumn_ext. intros l Hl. unfold LN_zterm.
    destruct (Nat.ltb_spec l 0); [lia|].
    destruct (Nat.eqb_spec l 0); [subst; reflexivity | reflexivity].
  - rewrite <- (IH ltac:(lia) i).
    apply (sumn_swap2 Fth) with (k := K); [lia | |].
    + intros l Hl H1 H2. unfold LN_zterm.
      destruct (Nat.ltb_spec l K), (Nat.ltb_spec l (S K)); try lia;
        try reflexivity.
      destruct (Nat.eqb_spec l K), (Nat.eqb_spec l (S K)); try lia.
      reflexivity.
    + unfold LN_zterm.
      destruct (Nat.ltb_spec K K); [lia|].
      destruct (Nat.ltb_spec (S K) K); [lia|].
      destruct (Nat.ltb_spec K (S K)); [|lia].
      destruct (Nat.ltb_spec (S K) (S K)); [lia|].
      rewrite !Nat.eqb_refl.
      destruct (Nat.eqb_spec (S K) K); [lia|].
      unfold LN_yz. destruct (Nat.ltb_spec (K + 1) m); [|lia].
      cbn [LN_u LN_w]. unfold LN_col. fold (g K).
      rewrite <- !(Nat.add_1_r K).
      pose proof (LN_det_nonzero K ltac:(lia)) as Hd.
      unfold LN_det in *. field. exact Hd.
Qed.

(** Row [K] of the rotated system is triangular. *)
Lemma LN_rotated_row K :
  (K + 1 < m)%nat ->
  sumn K (fun l => col l K * LN_yz l) + pivot K * LN_yz K = b K.
Proof.
  intros HK. rewrite <- (LN_rotated (S K) ltac:(lia) K).
  rewrite (sumn_cut (S K) m); [|lia|].
  2: { intros l Hl. unfold LN_zterm.
       destruct (Nat.ltb_spec l (S K)); [lia|].
       destruct (Nat.eqb_spec l (S K)).
       - subst. rewrite (LN_w_zero ComputeGivens Fth H mu m Hhess Hgiv) by lia.
         ring.
       - rewrite shifted_off by lia. rewrite (Hhess K l) by lia. ring. }
  cbn [sumn]. unfold LN_zterm at 2.
  destruct (Nat.ltb_spec K (S K)); [|lia].
  rewrite (LN_col_diag ComputeGivens H mu m K) by lia.
  f_equal. apply sumn_ext. intros l Hl. unfold LN_zterm.
  destruct (Nat.ltb_spec l (S K)); [reflexivity | lia].
Qed.

Lemma LN_rotated_last :
  (0 < m)%nat ->
  sumn (m - 1) (fun l => col l (m - 1)%nat * LN_yz l)
  + pivot (m - 1) * LN_yz (m - 1) = b (m - 1)%nat.
Proof.
  intros Hm. rewrite <- (LN_rotated (m - 1) ltac:(lia) (m - 1)%nat).
  assert (E : forall f : nat -> Fld,
             sumn m f = sumn (m - 1) f + f (m - 1)%nat).
  { intros f. replace m with (S (m - 1)) at 1 by lia. reflexivity. }
  rewrite E. f_equal.
  - apply sumn_ext. intros l Hl. unfold LN_zterm.
    destruct (Nat.ltb_spec l (m - 1)); [reflexivity | lia].
  - unfold LN_zterm. destruct (Nat.ltb_spec (m - 1) (m - 1)); [lia|].
    rewrite Nat.eqb_refl. unfold LN_pivot, LN_yz.
    destruct (Nat.ltb_spec (m - 1 + 1) m); [lia | reflexivity].
Qed.

(** The forward substitution of [LN] on [(H - mu I) z] finds the rotated
    [z]. *)
Lemma LN_forward_rotated K :
  (K < m)%nat -> LN_y ComputeGivens H mu m b K = LN_yz K.
Proof.
  induction K as [K IH] using lt_wf_ind. intros HK.
  destruct (LN_forward ComputeGivens Fth H mu m b Hhess Hgiv Hpiv K HK K HK)
    as [Hf _].
  specialize (Hf (Nat.le_refl K)).
  rewrite (sumn_ext K _ (fun l => col l K * LN_yz l)) in Hf
    by (intros l Hl; rewrite IH by lia; reflexivity).
  assert (Hrow : sumn K (fun l => col l K * LN_yz l) + pivot K * LN_yz K
                 = b K).
  { destruct (Nat.eq_dec (K + 1) m) as [E|E].
    - replace K with (m - 1)%nat by lia. apply LN_rotated_last. lia.
    - apply LN_rotated_row. lia. }
  unfold LN_y.
  assert (Hx : LN_x ComputeGivens H mu m b K K = pivot K * LN_yz K).
  { rewrite <- Hrow in Hf.
    replace (LN_x ComputeGivens H mu m b K K)
      with (LN_x ComputeGivens H mu m b K K
            + sumn K (fun l => col l K * LN_yz l)
            - sumn K (fun l => col l K * LN_yz l)) by ring.
    rewrite Hf. ring. }
  rewrite Hx. field. apply Hpiv. exact HK.
Qed.

Lemma LN_back_rotated d : forall k,
  (k + d = m - 1)%nat -> (0 < m)%nat ->
  LN_t_from ComputeGivens H mu m b d k = LN_u k.
Proof.
  induction d as [|d IH]; intros k Hk Hm; cbn [LN_t_from].
  - rewrite LN_forward_rotated by lia. unfold LN_yz.
    destruct (Nat.ltb_spec (k + 1) m); [lia | reflexivity].
  - rewrite LN_forward_rotated, IH by lia. unfold LN_yz.
    destruct (Nat.ltb_spec (k + 1) m); [|lia].
    cbn [LN_u].
    pose proof (LN_det_nonzero k ltac:(lia)) as Hd.
    unfold LN_det in *. field. exact Hd.
Qed.

(** [LN] applied to [(H - mu I) z] gives [z] back. *)
Lemma LN_out_recovers i :
  (i < m)%nat -> LN_out ComputeGivens H mu m b i = z i.
Proof.
  intros Hi. destruct i as [|k]; cbn [LN_out]; unfold LN_t.
  - rewrite LN_back_rotated by lia. reflexivity.
  - rewrite LN_back_rotated, LN_forward_rotated by lia. unfold LN_yz.
    destruct (Nat.ltb_spec (k + 1) m); [|lia].
    cbn [LN_u].
    pose proof (LN_det_nonzero k ltac:(lia)) as Hd.
    unfold LN_det in *. field. exact Hd.
Qed.
End RoundTrip.


Section RoundTripUN.
Context {Fld : Scalars}.
Variable ComputeGivens : Fld -> Fld -> Givens Fld.
Hypothesis Fth : FieldLaws Fld.
Add Field Fld_field5 :
  (Fth : field_theory (@Fzero Fld) Fone Fadd Fmul Fsub Fopp Fdiv Finv eq).
Local Notation "0" := Fzero : F_scope.
Local Infix "*" := Fmul : F_scope.
Local Open Scope F_scope.

Variable H : Matrix Fld.
Variable mu : Fld.
Variable m : nat.
Variable z : nat -> Fld.

Lemma apply_shifted_scale (a : Fld) i :
  a * apply_shifted H mu m z i
  = apply_shifted H mu m (fun l => a * z l) i.
Proof.
  unfold apply_shifted. rewrite (sumn_scale Fth).
  apply sumn_ext. intros l _. ring.
Qed.

Lemma apply_shifted_flip i :
  (i < m)%nat ->
  flipv m (apply_shifted H mu m z) i
  = apply_shifted (flip H m) mu m (flipv m z) i.
Proof.
  intros Hi. unfold flipv, apply_shifted.
  rewrite (sumn_rev Fth). apply sumn_ext. intros l Hl.
  rewrite shifted_flip by lia. reflexivity.
Qed.

Hypothesis Hhess : UpperHessenberg m H.
Hypothesis Hgiv : GivensContract ComputeGivens.
Hypothesis Hpiv : forall k, (k < m)%nat ->
  UN_pivot ComputeGivens H mu m k <> 0.
Hypothesis Hconj : @ConjFaithful Fld.

(** [UN] applied to [(H - mu I) z] gives [z] back. *)
Lemma UN_out_recovers i :
  (i < m)%nat ->
  UN_out ComputeGivens H mu m (apply_shifted H mu m z) i = z i.
Proof.
  intros Hi. unfold UN_out.
  rewrite (LN_out_agree ComputeGivens (flip H m) (flip H m) mu m
             (apply_shifted (flip H m) mu m (flipv m z))
             (flipv m (apply_shifted H mu m z)));
    [|apply agree_lower_refl | intros i' Hi'; apply apply_shifted_flip; exact Hi'
     | lia].
  rewrite (LN_out_recovers ComputeGivens Fth (flip H m) mu m (flipv m z)).
  - unfold flipv. f_equal. lia.
  - apply flip_lower. exact Hhess.
  - exact Hgiv.
  - intros k Hk. replace k with (m - 1 - (m - 1 - k))%nat by lia.
    rewrite <- UN_pivot_flip by lia. apply Hpiv. lia.
  - exact Hconj.
  - lia.
Qed.
End RoundTripUN.


(** The columns of [Xw] multiplied by the shifted [Hw]. *)
Definition HXw : Matrix QcScalars :=
  @mkMatrix QcScalars 3 2 (fun i j => substitute_back Hw shiftsw Xw 3 i j).


End MshsProofs.

(* ================================================================= *)
(** ** The IPF loop *)

Module IPFProofs.
Import IPFModel.
Import Lra.
Local Open Scope R_scope.

(** *** Kernels *)

Lemma Axpy_zero d v : Axpy 0 d v = v.
Proof.
  revert v. induction d as [|di d IH]; intros [|vi v]; cbn; try reflexivity.
  rewrite IH. f_equal. ring.
Qed.

Definition nonzero (a : R) : Prop := a <> 0.

Lemma DiagonalSolve_Scale d : forall v,
  Forall nonzero d -> DiagonalSolve d (DiagonalScale d v) = v.
Proof.
  induction d as [|di d IH]; intros [|vi v] Hd; cbn; try reflexivity.
  inversion Hd as [|? ? Hdi Hd']; subst.
  rewrite IH by assumption. f_equal. unfold nonzero in Hdi. field. assumption.
Qed.

Lemma DiagonalScale_Solve d : forall v,
  Forall nonzero d -> DiagonalScale d (DiagonalSolve d v) = v.
Proof.
  induction d as [|di d IH]; intros [|vi v] Hd; cbn; try reflexivity.
  inversion Hd as [|? ? Hdi Hd']; subst.
  rewrite IH by assumption. f_equal. unfold nonzero in Hdi. field. assumption.
Qed.

Lemma NumNonPositive_zero v :
  NumNonPositive v = 0%nat <-> Forall (fun a => 0 < a) v.
Proof.
  unfold NumNonPositive. induction v as [|a v IH]; cbn.
  - split; [constructor | reflexivity].
  - unfold nonpositive at 1. destruct (Rle_dec a 0) as [Hle|Hgt]; cbn.
    + split; [discriminate|]. intros Hf. inversion Hf; subst. lra.
    + rewrite IH. split.
      * intros Hf. constructor; [lra | assumption].
      * intros Hf. inversion Hf; assumption.
Qed.

Lemma NumNonPositive_pos v :
  (0 < NumNonPositive v)%nat <-> Exists (fun a => a <= 0) v.
Proof.
  unfold NumNonPositive. induction v as [|a v IH]; cbn.
  - split; [lia | intros Hf; inversion Hf].
  - unfold nonpositive at 1. destruct (Rle_dec a 0) as [Hle|Hgt]; cbn.
    + split; [intros _; left; assumption | lia].
    + rewrite IH. split.
      * intros Hf. right. assumption.
      * intros Hf. inversion Hf; subst; [contradiction | assumption].
Qed.

(** *** The loop body, branch by branch *)

Section Body.
Variable LineSearchCtrl : Type.
Variable M : Type.
Variable ops : MatrixOps M.
Variable Aux : Type.
Variable MaxStepInPositiveCone : Vector -> Vector -> R -> R.
Variable IPFLineSearch :
  M -> Vector -> Vector -> Vector -> Vector -> Vector ->
  Vector -> Vector -> Vector -> R -> R -> R -> LineSearchCtrl -> R.
Variable direction :
  Z -> Aux -> Vector -> Vector -> Vector -> Vector -> Vector -> Vector ->
  Aux * option Direction.
Variable ctrl : IPFCtrl LineSearchCtrl.
Variables (A : M) (b c : Vector).
Variables (bNrm2 cNrm2 : R).

Local Abbreviation body :=
  (iteration ops MaxStepInPositiveCone IPFLineSearch direction ctrl
     A b c bNrm2 cNrm2).
Local Abbreviation relErr s :=
  (relError ops A b c bNrm2 cNrm2 (ix s) (iy s) (iz s)).
Local Abbreviation reaches_direction :=
  (reaches_direction ops ctrl A b c bNrm2 cNrm2).
Local Abbreviation direction_at := (direction_at ops direction ctrl A b c).
Local Abbreviation step_length :=
  (step_length MaxStepInPositiveCone IPFLineSearch ctrl A b c bNrm2 cNrm2).
Local Abbreviation stepped :=
  (stepped MaxStepInPositiveCone IPFLineSearch ctrl A b c bNrm2 cNrm2).

Lemma body_guard numIts (s : Iterate Aux) :
  (0 < NumNonPositive (ix s))%nat \/ (0 < NumNonPositive (iz s))%nat ->
  body numIts s =
  Throw (LogicError_NonPositive (NumNonPositive (ix s))
           (NumNonPositive (iz s))).
Proof.
  intros Hg. unfold iteration.
  assert (E : ((0 <? NumNonPositive (ix s))%nat
               || (0 <? NumNonPositive (iz s))%nat) = true).
  { apply orb_true_iff.
    destruct Hg as [Hg|Hg]; [left|right]; apply Nat.ltb_lt; exact Hg. }
  rewrite E. reflexivity.
Qed.

Lemma guard_passes (s : Iterate Aux) :
  NumNonPositive (ix s) = 0%nat -> NumNonPositive (iz s) = 0%nat ->
  ((0 <? NumNonPositive (ix s))%nat || (0 <? NumNonPositive (iz s))%nat)
  = false.
Proof. intros -> ->. reflexivity. Qed.

Lemma body_converged numIts (s : Iterate Aux) :
  NumNonPositive (ix s) = 0%nat -> NumNonPositive (iz s) = 0%nat ->
  relErr s <= targetTol ctrl ->
  body numIts s = Break s.
Proof.
  intros Hx Hz Hc. unfold iteration. rewrite (guard_passes s Hx Hz).
  cbv zeta. destruct (Rle_dec _ (targetTol ctrl)) as [_|Hn]; [reflexivity|].
  contradiction.
Qed.

Lemma body_budget numIts (s : Iterate Aux) :
  NumNonPositive (ix s) = 0%nat -> NumNonPositive (iz s) = 0%nat ->
  relErr s > targetTol ctrl ->
  numIts = maxIts ctrl -> relErr s > minTol ctrl ->
  body numIts s = Throw RuntimeError_MaxIts.
Proof.
  intros Hx Hz Hc Hn Hm. unfold iteration. rewrite (guard_passes s Hx Hz).
  cbv zeta. destruct (Rle_dec _ (targetTol ctrl)) as [Hle|_]; [lra|].
  rewrite Hn, Z.eqb_refl.
  destruct (Rgt_dec _ (minTol ctrl)) as [_|Hn']; [reflexivity | contradiction].
Qed.

Lemma budget_check_passes numIts (s : Iterate Aux) :
  ~ (numIts = maxIts ctrl /\ relErr s > minTol ctrl) ->
  ((numIts =? maxIts ctrl)%Z
   && (if Rgt_dec (relErr s) (minTol ctrl) then true else false)) = false.
Proof.
  intros Hn. destruct (Z.eqb_spec numIts (maxIts ctrl)) as [E|E]; cbn;
    [|reflexivity].
  destruct (Rgt_dec _ (minTol ctrl)) as [Hgt|_]; [|reflexivity].
  exfalso. apply Hn. split; assumption.
Qed.

(** The value of the body once the direction computation is reached. *)
Lemma body_direction numIts (s : Iterate Aux) :
  reaches_direction numIts s ->
  body numIts s =
  match direction_at numIts s with
  | (aux', None) =>
      acceptOrThrow ctrl (relErr s)
        (mkIterate (ix s) (iy s) (iz s) aux')
  | (aux', Some d) =>
      if Req_dec_T (step_length s d) 0
      then acceptOrThrow ctrl (relErr s) (stepped s aux' d)
      else Continue (stepped s aux' d)
  end.
Proof.
  intros (Hx & Hz & Hc & Hb). unfold iteration.
  rewrite (guard_passes s Hx Hz). cbv zeta.
  destruct (Rle_dec _ (targetTol ctrl)) as [Hle|_]; [lra|].
  rewrite (budget_check_passes numIts s Hb).
  unfold IPFModel.direction_at, rmu_of, IPFModel.step_length, IPFModel.stepped.
  destruct (direction _ _ _ _ _ _ _ _) as [aux' [[[dx dy] dz]|]]; reflexivity.
Qed.

(** Where an iteration that does not throw leaves the carried data. *)
Lemma body_aux numIts (s s' : Iterate Aux) :
  body numIts s = Continue s' \/ body numIts s = Break s' ->
  (s' = s /\ relErr s <= targetTol ctrl) \/
  (reaches_direction numIts s /\ aux s' = fst (direction_at numIts s)).
Proof.
  intros Hb.
  destruct (Nat.eq_dec (NumNonPositive (ix s)) 0) as [Hx|Hx];
    [destruct (Nat.eq_dec (NumNonPositive (iz s)) 0) as [Hz|Hz]|].
  2: { rewrite body_guard in Hb by lia. destruct Hb; discriminate. }
  2: { rewrite body_guard in Hb by lia. destruct Hb; discriminate. }
  destruct (Rle_dec (relErr s) (targetTol ctrl)) as [Hc|Hc].
  - left. rewrite body_converged in Hb by assumption.
    destruct Hb as [Hb|Hb]; [discriminate|]. injection Hb as <-.
    split; [reflexivity | exact Hc].
  - destruct (Z.eq_dec numIts (maxIts ctrl)) as [Hn|Hn];
      [destruct (Rgt_dec (relErr s) (minTol ctrl)) as [Hm|Hm]|].
    + rewrite body_budget in Hb by (try assumption; lra).
      destruct Hb; discriminate.
    + right.
      assert (Hr : reaches_direction numIts s).
      { repeat split; try assumption; [lra | intros [_ Hgt]; contradiction]. }
      split; [exact Hr|]. rewrite body_direction in Hb by exact Hr.
      destruct (direction_at numIts s) as [aux' [d|]]; cbn [fst].
      * destruct (Req_dec_T _ 0); unfold acceptOrThrow in Hb;
          try destruct (Rle_dec _ (minTol ctrl));
          destruct Hb as [Hb|Hb]; try discriminate; injection Hb as <-;
          unfold IPFModel.stepped; destruct d as [[dx dy] dz]; reflexivity.
      * unfold acceptOrThrow in Hb. destruct (Rle_dec _ (minTol ctrl));
          destruct Hb as [Hb|Hb]; try discriminate; injection Hb as <-;
          reflexivity.
    + right.
      assert (Hr : reaches_direction numIts s).
      { repeat split; try assumption; [lra | intros [E _]; contradiction]. }
      split; [exact Hr|]. rewrite body_direction in Hb by exact Hr.
      destruct (direction_at numIts s) as [aux' [d|]]; cbn [fst].
      * destruct (Req_dec_T _ 0); unfold acceptOrThrow in Hb;
          try destruct (Rle_dec _ (minTol ctrl));
          destruct Hb as [Hb|Hb]; try discriminate; injection Hb as <-;
          unfold IPFModel.stepped; destruct d as [[dx dy] dz]; reflexivity.
      * unfold acceptOrThrow in Hb. destruct (Rle_dec _ (minTol ctrl));
          destruct Hb as [Hb|Hb]; try discriminate; injection Hb as <-;
          reflexivity.
Qed.
End Body.


(** *** The residuals of the dense overload, entry by entry *)

(** The vectors [A x - b] and [A^T y - z + c] as the specification writes
    them. *)
Definition Ax_minus_b (A : Matrix) (x b : Vector) : Vector :=
  map (fun i => Rsum (mWidth A) (fun j => Get A i j * nth j x 0) - nth i b 0)
      (seq 0 (mHeight A)).

Definition ATy_minus_z_plus_c (A : Matrix) (y z c : Vector) : Vector :=
  map (fun j => Rsum (mHeight A) (fun i => Get A i j * nth i y 0)
                - nth j z 0 + nth j c 0)
      (seq 0 (mWidth A)).

Lemma nth_Scale a v i : nth i (Scale a v) 0 = a * nth i v 0.
Proof.
  revert i. induction v as [|vi v IH]; intros [|i]; cbn; try ring.
  apply IH.
Qed.

Lemma Sub_map_seq (g : nat -> R) n : forall k z,
  length z = n ->
  Sub (map g (seq k n)) z = map (fun j => g j - nth (j - k) z 0) (seq k n).
Proof.
  induction n as [|n IH]; intros k z Hz; [reflexivity|].
  destruct z as [|zi z]; [discriminate|]. cbn [seq map Sub].
  rewrite Nat.sub_diag. cbn [nth]. f_equal.
  rewrite IH by (cbn in Hz; lia).
  apply map_ext_in. intros j Hj. apply in_seq in Hj.
  replace (j - k)%nat with (S (j - S k)) by lia. reflexivity.
Qed.

Lemma residual_b_dense A b x :
  residual_b DenseOps A b x = Ax_minus_b A x b.
Proof.
  unfold residual_b, Ax_minus_b. cbn. apply map_ext. intros i.
  rewrite nth_Scale. ring.
Qed.

Lemma residual_c_dense A c y z :
  length z = mWidth A ->
  residual_c DenseOps A c y z = ATy_minus_z_plus_c A y z c.
Proof.
  intros Hz. unfold residual_c, ATy_minus_z_plus_c. cbn.
  rewrite Sub_map_seq by exact Hz. apply map_ext. intros j.
  rewrite Nat.sub_0_r. ring.
Qed.

(** The relative error of the specification. *)
Definition spec_relError (A : Matrix) (b c x y z : Vector) : R :=
  Rmax (Rmax (Rabs (Dot c x - - Dot b y) / (1 + Rabs (Dot c x)))
             (Nrm2 (Ax_minus_b A x b) / (1 + Nrm2 b)))
       (Nrm2 (ATy_minus_z_plus_c A y z c) / (1 + Nrm2 c)).

Lemma relError_dense A b c x y z :
  length z = mWidth A ->
  relError DenseOps A b c (Nrm2 b) (Nrm2 c) x y z
  = spec_relError A b c x y z.
Proof.
  intros Hz. unfold relError, spec_relError, objConv, rbConv, rcConv.
  rewrite residual_b_dense, residual_c_dense by exact Hz. reflexivity.
Qed.

(** *** A toy instance: the program [min x  s.t.  x = 1, x >= 0] *)

Definition A1 : Matrix := mkMatrix 1 1 (fun _ _ => 1).

Definition toyKernels (solve : Matrix -> Vector -> option Vector)
    (search : R -> R) : DenseKernels unit :=
  mkDenseKernels unit
    (fun A _ => (A, [2], [4]))
    (fun _ _ _ x y z _ _ _ => (x, y, z))
    (fun A _ _ => A) (fun _ _ _ _ => [0])
    (fun _ _ _ => ([1], [1], [1]))
    (fun A _ _ => A) (fun _ _ _ _ => [0])
    (fun _ _ _ _ => ([1], [1], [1]))
    (fun A _ _ => A) (fun _ _ _ _ _ _ => [0])
    (fun _ _ _ _ _ _ _ => ([1], [1], [1]))
    solve
    (fun _ _ upperBound => upperBound)
    (fun _ _ _ _ _ _ _ _ _ maxStep _ _ _ => search maxStep).

Definition toyCtrl (equil : bool) (its : Z) (target minimal : R)
  : IPFCtrl unit :=
  mkCtrl unit equil true true (1 / 10) FULL_KKT its target minimal false
    (mkQSD 0 0 0 0) tt.

Definition toyIterate : Iterate unit := mkIterate [1] [0] [1] tt.

Lemma Nrm2_one : Nrm2 [1] = 1.
Proof.
  unfold Nrm2. cbn. replace (1 * 1 + 0) with 1 by ring. apply sqrt_1.
Qed.

Lemma toy_relError :
  relError DenseOps A1 [1] [1] (Nrm2 [1]) (Nrm2 [1]) [1] [0] [1]
  = 1 / 2.
Proof.
  rewrite relError_dense by reflexivity.
  unfold spec_relError, Ax_minus_b, ATy_minus_z_plus_c. rewrite Nrm2_one.
  cbn.
  replace (0 + 1 * 1 - 1) with 0 by ring.
  replace (0 + 1 * 0 - 1 + 1) with 0 by ring.
  replace (1 * 1 + 0 - - (1 * 0 + 0)) with 1 by ring.
  replace (1 * 1 + 0) with 1 by ring.
  unfold Nrm2. cbn. replace (0 * 0 + 0) with 0 by ring.
  rewrite sqrt_0, Rabs_R1.
  replace (0 / (1 + 1)) with 0 by field.
  rewrite (Rmax_left (1 / (1 + 1)) 0) by lra.
  rewrite Rmax_left by lra. lra.
Qed.

Lemma toy_in_cone : NumNonPositive [1] = 0%nat.
Proof.
  unfold NumNonPositive, nonpositive. cbn.
  destruct (Rle_dec 1 0); [lra | reflexivity].
Qed.

(** *** Claims on the loop body *)

(** C3. In an iteration whose iterate passed the cone guard, the loop is
    left as converged as soon as [relError <= targetTol], where [relError]
    is the maximum of [|c.x - (-b.y)| / (1+|c.x|)],
    [||A x - b||_2 / (1+||b||_2)] and [||A^T y - z + c||_2 / (1+||c||_2)];
    otherwise, if [numIts = maxIts] and [relError > minTol], the iteration
    throws. Stated for every regime, and with the explicit formula for the
    dense one. *)
Theorem convergence_test
    (LineSearchCtrl M Aux : Type) (ops : MatrixOps M)
    (MaxStep : Vector -> Vector -> R -> R)
    (LineSearch : M -> Vector -> Vector -> Vector -> Vector -> Vector ->
                  Vector -> Vector -> Vector -> R -> R -> R ->
                  LineSearchCtrl -> R)
    (direction : Z -> Aux -> Vector -> Vector -> Vector -> Vector ->
                 Vector -> Vector -> Aux * option Direction)
    (ctrl : IPFCtrl LineSearchCtrl) (A : M) (b c : Vector)
    (numIts : Z) (s : Iterate Aux) :
  NumNonPositive (ix s) = 0%nat -> NumNonPositive (iz s) = 0%nat ->
  let relErr :=
    relError ops A b c (Nrm2 b) (Nrm2 c) (ix s) (iy s) (iz s) in
  let body :=
    iteration ops MaxStep LineSearch direction ctrl
      A b c (Nrm2 b) (Nrm2 c) in
  (relErr <= targetTol ctrl -> body numIts s = Break s) /\
  (relErr > targetTol ctrl -> numIts = maxIts ctrl ->
   relErr > minTol ctrl -> body numIts s = Throw RuntimeError_MaxIts) /\
  (forall (D : Matrix) (x y z : Vector),
     length z = mWidth D ->
     relError DenseOps D b c (Nrm2 b) (Nrm2 c) x y z =
     Rmax (Rmax (Rabs (Dot c x - - Dot b y) / (1 + Rabs (Dot c x)))
                (Nrm2 (Ax_minus_b D x b) / (1 + Nrm2 b)))
          (Nrm2 (ATy_minus_z_plus_c D y z c) / (1 + Nrm2 c))).
Proof.
  intros Hx Hz relErr body. split; [|split].
  - intros Hc. apply body_converged; assumption.
  - intros Hc Hn Hm. apply body_budget; assumption.
  - intros D x y z Hlen. apply relError_dense. exact Hlen.
Qed.

Lemma convergence_test_witness :
  let ctrl := toyCtrl false 0 (1 / 4) (1 / 3) in
  let K := toyKernels (fun _ d => Some d) (fun a => a) in
  (1 / 2 <= 1 ->
   dense_iteration K (toyCtrl false 0 1 1) A1 [1] [1] (Nrm2 [1])
     (Nrm2 [1]) 0 toyIterate = Break toyIterate) /\
  dense_iteration K ctrl A1 [1] [1] (Nrm2 [1]) (Nrm2 [1]) 0 toyIterate
  = Throw RuntimeError_MaxIts.
Proof.
  intros ctrl K. split.
  - intros _.
    apply (convergence_test unit Matrix unit DenseOps _ _ _
             (toyCtrl false 0 1 1) A1 [1] [1] 0%Z toyIterate
             toy_in_cone toy_in_cone).
    cbn [ix iy iz toyIterate]. rewrite toy_relError. cbn. lra.
  - apply (convergence_test unit Matrix unit DenseOps _ _ _
             ctrl A1 [1] [1] 0%Z toyIterate toy_in_cone toy_in_cone).
    + cbn [ix iy iz toyIterate]. rewrite toy_relError. cbn. lra.
    + reflexivity.
    + cbn [ix iy iz toyIterate]. rewrite toy_relError. cbn. lra.
Defined.

(** C4. An iteration entered with a non-positive entry in [x] or in [z]
    throws the logic error at once, whatever the collaborators would do;
    so an iteration that gets past the guard works on an iterate whose [x]
    and [z] are strictly positive in every component. *)
Theorem cone_guard
    (LineSearchCtrl M Aux : Type) (ops : MatrixOps M)
    (MaxStep : Vector -> Vector -> R -> R)
    (LineSearch : M -> Vector -> Vector -> Vector -> Vector -> Vector ->
                  Vector -> Vector -> Vector -> R -> R -> R ->
                  LineSearchCtrl -> R)
    (direction : Z -> Aux -> Vector -> Vector -> Vector -> Vector ->
                 Vector -> Vector -> Aux * option Direction)
    (ctrl : IPFCtrl LineSearchCtrl) (A : M) (b c : Vector)
    (bNrm2 cNrm2 : R) (numIts : Z) (s : Iterate Aux) :
  let body :=
    iteration ops MaxStep LineSearch direction ctrl A b c bNrm2 cNrm2 in
  (Exists (fun a => a <= 0) (ix s) \/ Exists (fun a => a <= 0) (iz s) ->
   body numIts s =
   Throw (LogicError_NonPositive (NumNonPositive (ix s))
            (NumNonPositive (iz s)))) /\
  ((forall nx nz, body numIts s <> Throw (LogicError_NonPositive nx nz)) ->
   Forall (fun a => 0 < a) (ix s) /\ Forall (fun a => 0 < a) (iz s)).
Proof.
  intros body. split.
  - intros Hg. apply body_guard.
    destruct Hg as [Hg|Hg]; [left|right]; apply NumNonPositive_pos; exact Hg.
  - intros Hno.
    destruct (Nat.eq_dec (NumNonPositive (ix s)) 0) as [Hx|Hx];
      [destruct (Nat.eq_dec (NumNonPositive (iz s)) 0) as [Hz|Hz]|].
    + split; apply NumNonPositive_zero; assumption.
    + exfalso. eapply Hno. apply body_guard. right. lia.
    + exfalso. eapply Hno. apply body_guard. left. lia.
Qed.

Lemma cone_guard_witness :
  let K := toyKernels (fun _ d => Some d) (fun a => a) in
  dense_iteration K (toyCtrl false 5 (1 / 4) (1 / 3)) A1 [1] [1]
    (Nrm2 [1]) (Nrm2 [1]) 0 (mkIterate [0] [0] [1] tt)
  = Throw (LogicError_NonPositive 1 0).
Proof.
  intros K.
  assert (E0 : NumNonPositive [0] = 1%nat).
  { unfold NumNonPositive, nonpositive. cbn.
    destruct (Rle_dec 0 0); [reflexivity | lra]. }
  rewrite <- E0 at 1. rewrite <- toy_in_cone.
  apply (cone_guard unit Matrix unit DenseOps _ _ _
           (toyCtrl false 5 (1 / 4) (1 / 3)) A1 [1] [1] (Nrm2 [1]) (Nrm2 [1])
           0%Z (mkIterate [0] [0] [1] tt)).
  left. constructor. cbn. lra.
Defined.

(** *** The [try] blocks *)

(** The dense overloads hand one system to [symm_solve::Overwrite]; the
    direction is missing exactly when that call threw. *)
Lemma dense_direction_thrown {LS : Type} (K : DenseKernels LS)
    (ctrl : IPFCtrl LS) A c numIts a x y z rc rb rmu :
  fst (dense_direction K ctrl A c numIts a x y z rc rb rmu) = a /\
  (snd (dense_direction K ctrl A c numIts a x y z rc rb rmu) = None <->
   match system ctrl with
   | FULL_KKT =>
       symm_solve_Overwrite K (KKT K A x z) (KKTRHS K rc rb rmu z)
   | AUGMENTED_KKT =>
       symm_solve_Overwrite K (AugmentedKKT K A x z)
         (AugmentedKKTRHS K x rc rb rmu)
   | NORMAL_KKT =>
       symm_solve_Overwrite K (NormalKKT K A x z)
         (NormalKKTRHS K A x z rc rb rmu)
   end = None).
Proof.
  unfold dense_direction. destruct (system ctrl); cbv zeta;
    destruct (symm_solve_Overwrite K _ _); cbn [fst snd];
    (split; [reflexivity | split; intros E; try discriminate E; reflexivity]).
Qed.

(** The sparse overloads: the direction is the expansion of what
    [sparse_solve] returns with the analysis the iteration ends with. *)
Lemma regime_direction_solve {LS : Type} (K : SparseKernels LS)
    (ctrl : IPFCtrl LS) r A c reg numIts a x y z rc rb rmu :
  snd (regime_direction K ctrl r A c reg numIts a x y z rc rb rmu)
  = option_map (sparse_expand K ctrl A c x z rc rmu)
      (sparse_solve K ctrl r A reg numIts a
         (fst (regime_direction K ctrl r A c reg numIts a x y z rc rb rmu))
         x z rc rb rmu).
Proof.
  unfold regime_direction, sparse_direction, distsparse_direction,
    sparse_solve, sparse_expand, cacheMetaOrig.
  destruct r; destruct (system ctrl); cbv zeta.
  - destruct (SymmetricGeomEquil K _ _) as [J dInner].
    destruct (factorAndSolveAfter _ _ _ _ _ _ _ _ _) eqn:E; cbn [fst snd];
      rewrite E; reflexivity.
  - destruct (SymmetricGeomEquil K _ _) as [J dInner].
    destruct (factorAndSolveAfter _ _ _ _ _ _ _ _ _) eqn:E; cbn [fst snd];
      rewrite E; reflexivity.
  - destruct (factorAndRefine _ _ _ _ _ _ _ _) eqn:E; cbn [fst snd];
      rewrite E; reflexivity.
  - destruct (numIts =? 0)%Z.
    + destruct (InitializeMultMeta K (sKKT K A x z false)) as [JO mtO].
      cbn [fst].
      destruct (SymmetricGeomEquil K _ _) as [J dInner].
      destruct (InitializeMultMeta K _) as [J' mt]. cbn [fst].
      destruct (factorAndSolveAfter _ _ _ _ _ _ _ _ _) eqn:E; cbn [fst snd];
        rewrite E; reflexivity.
    + cbn [fst].
      destruct (SymmetricGeomEquil K _ _) as [J dInner].
      destruct (factorAndSolveAfter _ _ _ _ _ _ _ _ _) eqn:E; cbn [fst snd];
        rewrite E; reflexivity.
  - destruct (numIts =? 0)%Z.
    + destruct (InitializeMultMeta K (sAugmentedKKT K A x z false))
        as [JO mtO].
      cbn [fst].
      destruct (SymmetricGeomEquil K _ _) as [J dInner].
      destruct (InitializeMultMeta K _) as [J' mt]. cbn [fst].
      destruct (primalInit ctrl && dualInit ctrl);
        destruct (factorAndSolveAfter _ _ _ _ _ _ _ _ _) eqn:E;
        cbn [fst snd]; rewrite E; reflexivity.
    + cbn [fst].
      destruct (SymmetricGeomEquil K _ _) as [J dInner].
      destruct (factorAndSolveAfter _ _ _ _ _ _ _ _ _) eqn:E; cbn [fst snd];
        rewrite E; reflexivity.
  - destruct (numIts =? 0)%Z.
    + destruct (InitializeMultMeta K _) as [J' mt]. cbn [fst].
      destruct (factorAndRefine _ _ _ _ _ _ _ _) eqn:E; cbn [fst snd];
        rewrite E; reflexivity.
    + destruct (factorAndRefine _ _ _ _ _ _ _ _) eqn:E; cbn [fst snd];
        rewrite E; reflexivity.
Qed.

Lemma option_map_None {X Y : Type} (f : X -> Y) (o : option X) :
  option_map f o = None <-> o = None.
Proof. destruct o; cbn; split; intros E; try discriminate E; reflexivity. Qed.

(** The two calls inside [try] of the sparse overloads: the pair throws
    when [LDL] throws, or when it returns and the solver throws on the
    factored front. *)
Lemma factorAndSolveAfter_thrown {LS : Type} (K : SparseKernels LS)
    (ctrl : IPFCtrl LS) JOrig reg dInner a JFront d :
  factorAndSolveAfter LS K ctrl JOrig reg dInner a JFront d = None <->
  LDL K (info a) JFront LDL_2D = None \/
  exists F, LDL K (info a) JFront LDL_2D = Some F /\
    SolveAfter K JOrig reg dInner (invMap a) (info a) F d (qsdCtrl ctrl)
    = None.
Proof.
  unfold factorAndSolveAfter.
  destruct (LDL K (info a) JFront LDL_2D) as [F|]; split.
  - intros E. right. exists F. split; [reflexivity | exact E].
  - intros [E | (F' & E & HS)]; [discriminate E|].
    injection E as <-. exact HS.
  - intros _. left. reflexivity.
  - intros _. reflexivity.
Qed.

Lemma factorAndRefine_thrown {LS : Type} (K : SparseKernels LS)
    (ctrl : IPFCtrl LS) front J a JFront dy :
  factorAndRefine LS K ctrl front J a JFront dy = None <->
  LDL K (info a) JFront front = None \/
  exists F, LDL K (info a) JFront front = Some F /\
    SolveWithIterativeRefinement K J (invMap a) (info a) F dy
      (relTolRefine (qsdCtrl ctrl)) (maxRefineIts (qsdCtrl ctrl)) = None.
Proof.
  unfold factorAndRefine.
  destruct (LDL K (info a) JFront front) as [F|]; split.
  - intros E. right. exists F. split; [reflexivity | exact E].
  - intros [E | (F' & E & HS)]; [discriminate E|].
    injection E as <-. exact HS.
  - intros _. left. reflexivity.
  - intros _. reflexivity.
Qed.

(** The [catch] block: the loop is left with [x], [y], [z] as the
    iteration [s] received them when [relError <= minTol], and the
    iteration throws otherwise. *)
Definition caught {LS M Aux : Type} (ops : MatrixOps M) (ctrl : IPFCtrl LS)
    (A : M) (b c : Vector) (bNrm2 cNrm2 : R)
    (s : Iterate Aux) (aux' : Aux) (outcome : Outcome (Iterate Aux)) : Prop :=
  let relErr := relError ops A b c bNrm2 cNrm2 (ix s) (iy s) (iz s) in
  (relErr <= minTol ctrl ->
   outcome = Break (mkIterate (ix s) (iy s) (iz s) aux')) /\
  (relErr > minTol ctrl -> outcome = Throw RuntimeError_MinTol).

Lemma body_caught (LineSearchCtrl M Aux : Type) (ops : MatrixOps M)
    (MaxStep : Vector -> Vector -> R -> R)
    (LineSearch : M -> Vector -> Vector -> Vector -> Vector -> Vector ->
                  Vector -> Vector -> Vector -> R -> R -> R ->
                  LineSearchCtrl -> R)
    (direction : Z -> Aux -> Vector -> Vector -> Vector -> Vector ->
                 Vector -> Vector -> Aux * option Direction)
    (ctrl : IPFCtrl LineSearchCtrl) (A : M) (b c : Vector)
    (bNrm2 cNrm2 : R) (numIts : Z) (s : Iterate Aux) :
  reaches_direction ops ctrl A b c bNrm2 cNrm2 numIts s ->
  snd (direction_at ops direction ctrl A b c numIts s) = None ->
  caught ops ctrl A b c bNrm2 cNrm2 s
    (fst (direction_at ops direction ctrl A b c numIts s))
    (iteration ops MaxStep LineSearch direction ctrl A b c bNrm2 cNrm2
       numIts s).
Proof.
  intros Hr Hd. unfold caught. cbv zeta.
  rewrite body_direction by exact Hr.
  destruct (direction_at ops direction ctrl A b c numIts s) as [aux' o].
  cbn [fst snd] in *. subst o. unfold acceptOrThrow.
  destruct (Rle_dec _ (minTol ctrl)); split; intros;
    try reflexivity; lra.
Qed.

(** C5. When the factorization or the solve of an iteration throws: if
    [relError <= minTol] the loop is left with [x], [y], [z] exactly as
    the iteration received them (no step is taken), otherwise the
    iteration throws the runtime error. First for any regime, from the
    direction computation returning no direction. Then for the dense
    overloads, where the direction is missing exactly when
    [symm_solve::Overwrite] threw on the system [ctrl.system] selects, and
    for the two sparse overloads, where it is missing exactly when the two
    calls inside [try] threw on the front pulled in this iteration, that
    is, when [LDL] threw or the solver after it did. *)
Theorem solve_failure (LS : Type) (ctrl : IPFCtrl LS) :
  (forall (M Aux : Type) (ops : MatrixOps M)
          (MaxStep : Vector -> Vector -> R -> R)
          (LineSearch : M -> Vector -> Vector -> Vector -> Vector ->
                        Vector -> Vector -> Vector -> Vector -> R -> R -> R ->
                        LS -> R)
          (direction : Z -> Aux -> Vector -> Vector -> Vector -> Vector ->
                       Vector -> Vector -> Aux * option Direction)
          (A : M) (b c : Vector) (bNrm2 cNrm2 : R) (numIts : Z)
          (s : Iterate Aux) (aux' : Aux),
     reaches_direction ops ctrl A b c bNrm2 cNrm2 numIts s ->
     direction_at ops direction ctrl A b c numIts s = (aux', None) ->
     caught ops ctrl A b c bNrm2 cNrm2 s aux'
       (iteration ops MaxStep LineSearch direction ctrl A b c bNrm2 cNrm2
          numIts s)) /\
  (forall (K : DenseKernels LS) (A : Matrix) (b c : Vector)
          (bNrm2 cNrm2 : R) (numIts : Z) (s : Iterate unit),
     let x := ix s in
     let z := iz s in
     let rc := residual_c DenseOps A c (iy s) (iz s) in
     let rb := residual_b DenseOps A b (ix s) in
     let rmu := rmu_of DenseOps ctrl A s in
     let thrown :=
       match system ctrl with
       | FULL_KKT =>
           symm_solve_Overwrite K (KKT K A x z) (KKTRHS K rc rb rmu z)
       | AUGMENTED_KKT =>
           symm_solve_Overwrite K (AugmentedKKT K A x z)
             (AugmentedKKTRHS K x rc rb rmu)
       | NORMAL_KKT =>
           symm_solve_Overwrite K (NormalKKT K A x z)
             (NormalKKTRHS K A x z rc rb rmu)
       end = None in
     (thrown <->
      snd (direction_at DenseOps (dense_direction K ctrl A c) ctrl A b c
             numIts s) = None) /\
     (reaches_direction DenseOps ctrl A b c bNrm2 cNrm2 numIts s ->
      thrown ->
      caught DenseOps ctrl A b c bNrm2 cNrm2 s (aux s)
        (dense_iteration K ctrl A b c bNrm2 cNrm2 numIts s))) /\
  (forall (K : SparseKernels LS) (r : SparseRegime) (A : SparseMatrix K)
          (b c : Vector) (bNrm2 cNrm2 : R) (reg : Vector) (numIts : Z)
          (s : Iterate (SparseAux K)),
     let d :=
       direction_at (sparseOps K) (regime_direction K ctrl r A c reg) ctrl
         A b c numIts s in
     let thrown :=
       sparse_solve K ctrl r A reg numIts (aux s) (fst d) (ix s) (iz s)
         (residual_c (sparseOps K) A c (iy s) (iz s))
         (residual_b (sparseOps K) A b (ix s))
         (rmu_of (sparseOps K) ctrl A s) = None in
     (thrown <-> snd d = None) /\
     (reaches_direction (sparseOps K) ctrl A b c bNrm2 cNrm2 numIts s ->
      thrown ->
      caught (sparseOps K) ctrl A b c bNrm2 cNrm2 s (fst d)
        (sparse_iteration K ctrl r A b c bNrm2 cNrm2 reg numIts s))) /\
  (forall (K : SparseKernels LS) (JOrig J : SparseMatrix K)
          (reg dInner : Vector) (a : SparseAux K) (JFront : Front K)
          (d : Vector) (front : LDLFrontType),
     (factorAndSolveAfter LS K ctrl JOrig reg dInner a JFront d = None <->
      LDL K (info a) JFront LDL_2D = None \/
      exists F, LDL K (info a) JFront LDL_2D = Some F /\
        SolveAfter K JOrig reg dInner (invMap a) (info a) F d (qsdCtrl ctrl)
        = None) /\
     (factorAndRefine LS K ctrl front J a JFront d = None <->
      LDL K (info a) JFront front = None \/
      exists F, LDL K (info a) JFront front = Some F /\
        SolveWithIterativeRefinement K J (invMap a) (info a) F d
          (relTolRefine (qsdCtrl ctrl)) (maxRefineIts (qsdCtrl ctrl))
        = None)).
Proof.
  split; [|split; [|split]].
  - intros M Aux ops MaxStep LineSearch direction A b c bNrm2 cNrm2 numIts
      s aux' Hr Hd.
    pose proof (body_caught LS M Aux ops MaxStep LineSearch direction ctrl
                  A b c bNrm2 cNrm2 numIts s Hr) as Hc.
    rewrite Hd in Hc. apply Hc. reflexivity.
  - intros K A b c bNrm2 cNrm2 numIts s x z rc rb rmu thrown.
    destruct (dense_direction_thrown K ctrl A c numIts (aux s) x (iy s) z
                rc rb rmu) as [Ha Hn].
    assert (Hiff : thrown <->
              snd (direction_at DenseOps (dense_direction K ctrl A c) ctrl
                     A b c numIts s) = None).
    { unfold thrown, direction_at. symmetry. exact Hn. }
    split; [exact Hiff|]. intros Hr Ht.
    pose proof (body_caught LS Matrix unit DenseOps
                  (MaxStepInPositiveCone K) (IPFLineSearch K)
                  (dense_direction K ctrl A c) ctrl A b c bNrm2 cNrm2
                  numIts s Hr (proj1 Hiff Ht)) as Hc.
    unfold direction_at in Hc. unfold x, z, rc, rb, rmu in Ha.
    rewrite Ha in Hc. exact Hc.
  - intros K r A b c bNrm2 cNrm2 reg numIts s d thrown.
    assert (Hiff : thrown <-> snd d = None).
    { unfold thrown, d, direction_at.
      rewrite regime_direction_solve, option_map_None. reflexivity. }
    split; [exact Hiff|]. intros Hr Ht.
    exact (body_caught LS (SparseMatrix K) (SparseAux K) (sparseOps K)
             (sMaxStepInPositiveCone K) (sIPFLineSearch K)
             (regime_direction K ctrl r A c reg) ctrl A b c bNrm2 cNrm2
             numIts s Hr (proj1 Hiff Ht)).
  - intros K JOrig J reg dInner a JFront d front. split.
    + apply factorAndSolveAfter_thrown.
    + apply factorAndRefine_thrown.
Qed.

Lemma toy_reaches (target minimal : R) (its : Z) :
  1 / 2 > target -> its <> 0%Z ->
  reaches_direction DenseOps (toyCtrl false its target minimal) A1 [1] [1]
    (Nrm2 [1]) (Nrm2 [1]) 0 toyIterate.
Proof.
  intros Ht Hi. unfold reaches_direction. cbn [ix iy iz toyIterate].
  rewrite toy_relError. repeat split; try apply toy_in_cone.
  - cbn. exact Ht.
  - cbn. intros [E _]. apply Hi. symmetry. exact E.
Qed.

(** The toy program under each KKT system, and sparse collaborators with
    a chosen factorization and a chosen solver. *)
Definition toyCtrlOf (sys : KKTSystem) (init : bool) (its : Z)
    (target minimal : R) : IPFCtrl unit :=
  mkCtrl unit false init init (1 / 10) sys its target minimal false
    (mkQSD 0 0 0 0) tt.

Definition toySparseSolvers
    (factor : nat -> LDLFrontType -> option unit)
    (solve : Vector -> option Vector) : SparseKernels unit :=
  mkSparseKernels unit
    Matrix unit nat unit nat unit unit
    DenseOps 0%nat tt 0%nat tt
    (fun A _ => (A, [2], [4]))
    (fun _ _ _ x y z _ _ _ _ => ((x, y, z), (5%nat, 5%nat, tt, 5%nat)))
    (fun A _ _ _ => A) (fun _ _ _ _ => [0]) (fun _ _ _ => ([1], [1], [1]))
    (fun A _ _ _ => A) (fun _ _ _ _ => [0]) (fun _ _ _ _ => ([1], [1], [1]))
    (fun A _ _ _ => A) (fun _ _ _ _ _ _ => [0])
    (fun _ _ _ _ _ _ _ => ([1], [1], [1]))
    (fun J _ => (J, [1]))
    (fun J _ _ => J)
    (fun _ => tt)
    (fun _ => (7%nat, tt, 7%nat))
    (fun m => m)
    (fun _ _ _ => tt)
    (fun _ _ _ _ => tt)
    (fun J => (J, tt))
    (fun J _ => J)
    (fun nodeInfo _ front => factor nodeInfo front)
    (fun _ _ _ _ _ _ d _ => solve d)
    (fun _ _ _ _ d _ _ => solve d)
    (fun _ _ upperBound => upperBound)
    (fun _ _ _ _ _ _ _ _ _ _ _ _ _ => 1).

Lemma toy_reaches_direction {Aux : Type} (ctrl : IPFCtrl unit) (a : Aux) :
  1 / 2 > targetTol ctrl ->
  (0%Z = maxIts ctrl -> 1 / 2 <= minTol ctrl) ->
  reaches_direction DenseOps ctrl A1 [1] [1] (Nrm2 [1]) (Nrm2 [1]) 0
    (mkIterate [1] [0] [1] a).
Proof.
  intros Ht Hi. unfold reaches_direction. cbn [ix iy iz].
  rewrite toy_relError. repeat split; try apply toy_in_cone.
  - exact Ht.
  - intros [E Hgt]. specialize (Hi E). lra.
Qed.

Lemma solve_failure_witness :
  let K := toyKernels (fun _ _ => None) (fun a => a) in
  let KS := toySparseSolvers (fun _ _ => None) Some in
  let s0 := mkIterate (Aux := SparseAux KS) [1] [0] [1]
              (mkSparseAux (K := KS) 5%nat 5%nat tt 5%nat tt tt []) in
  (dense_iteration K (toyCtrl false 5 (1 / 4) 1) A1 [1] [1]
     (Nrm2 [1]) (Nrm2 [1]) 0 toyIterate = Break toyIterate /\
   dense_iteration K (toyCtrl false 5 (1 / 4) (1 / 3)) A1 [1] [1]
     (Nrm2 [1]) (Nrm2 [1]) 0 toyIterate = Throw RuntimeError_MinTol) /\
  (dense_iteration K (toyCtrlOf AUGMENTED_KKT true 5 (1 / 4) 1) A1 [1] [1]
     (Nrm2 [1]) (Nrm2 [1]) 0 toyIterate = Break toyIterate /\
   dense_iteration K (toyCtrlOf NORMAL_KKT true 5 (1 / 4) (1 / 3)) A1 [1] [1]
     (Nrm2 [1]) (Nrm2 [1]) 0 toyIterate = Throw RuntimeError_MinTol) /\
  (sparse_iteration KS (toyCtrlOf FULL_KKT false 5 (1 / 4) 1) Sequential
     A1 [1] [1] (Nrm2 [1]) (Nrm2 [1]) [] 0 s0
   = Break (mkIterate [1] [0] [1]
              (mkSparseAux (K := KS) 7%nat 7%nat tt 7%nat tt tt [0%Z])) /\
   sparse_iteration KS (toyCtrlOf AUGMENTED_KKT false 5 (1 / 4) (1 / 3))
     Distributed A1 [1] [1] (Nrm2 [1]) (Nrm2 [1]) [] 3 s0
   = Throw RuntimeError_MinTol).
Proof.
  intros K KS s0.
  assert (Hle : relError DenseOps A1 [1] [1] (Nrm2 [1]) (Nrm2 [1])
                  [1] [0] [1] <= 1) by (rewrite toy_relError; lra).
  assert (Hgt : relError DenseOps A1 [1] [1] (Nrm2 [1]) (Nrm2 [1])
                  [1] [0] [1] > 1 / 3) by (rewrite toy_relError; lra).
  split; [|split]; split.
  - refine (proj1 (proj2 (proj1 (proj2 (solve_failure unit
              (toyCtrl false 5 (1 / 4) 1)))
              K A1 [1] [1] (Nrm2 [1]) (Nrm2 [1]) 0%Z toyIterate) _ eq_refl)
              Hle).
    apply toy_reaches_direction; cbn; [lra | discriminate].
  - refine (proj2 (proj2 (proj1 (proj2 (solve_failure unit
              (toyCtrl false 5 (1 / 4) (1 / 3))))
              K A1 [1] [1] (Nrm2 [1]) (Nrm2 [1]) 0%Z toyIterate) _ eq_refl)
              Hgt).
    apply toy_reaches_direction; cbn; [lra | discriminate].
  - refine (proj1 (proj2 (proj1 (proj2 (solve_failure unit
              (toyCtrlOf AUGMENTED_KKT true 5 (1 / 4) 1)))
              K A1 [1] [1] (Nrm2 [1]) (Nrm2 [1]) 0%Z toyIterate) _ eq_refl)
              Hle).
    apply toy_reaches_direction; cbn; [lra | discriminate].
  - refine (proj2 (proj2 (proj1 (proj2 (solve_failure unit
              (toyCtrlOf NORMAL_KKT true 5 (1 / 4) (1 / 3))))
              K A1 [1] [1] (Nrm2 [1]) (Nrm2 [1]) 0%Z toyIterate) _ eq_refl)
              Hgt).
    apply toy_reaches_direction; cbn; [lra | discriminate].
  - refine (proj1 (proj2 (proj1 (proj2 (proj2 (solve_failure unit
              (toyCtrlOf FULL_KKT false 5 (1 / 4) 1))))
              KS Sequential A1 [1] [1] (Nrm2 [1]) (Nrm2 [1]) [] 0%Z s0)
              _ eq_refl) Hle).
    apply (toy_reaches_direction (Aux := SparseAux KS)); cbn;
      [lra | discriminate].
  - refine (proj2 (proj2 (proj1 (proj2 (proj2 (solve_failure unit
              (toyCtrlOf AUGMENTED_KKT false 5 (1 / 4) (1 / 3)))))
              KS Distributed A1 [1] [1] (Nrm2 [1]) (Nrm2 [1]) [] 3%Z s0)
              _ eq_refl) Hgt).
    unfold reaches_direction, s0. cbn [ix iy iz].
    change (relError (sparseOps KS) A1 [1] [1] (Nrm2 [1]) (Nrm2 [1])
              [1] [0] [1])
      with (relError DenseOps A1 [1] [1] (Nrm2 [1]) (Nrm2 [1]) [1] [0] [1]).
    rewrite toy_relError. repeat split; try apply toy_in_cone.
    + cbn. lra.
    + cbn. intros [E _]. discriminate E.
Defined.

(** C6. After the updates [x += alpha dx], [y += alpha dy],
    [z += alpha dz] with [alpha = 0], the iterate is the one the iteration
    received; the loop is then left if [relError <= minTol] and the
    iteration throws otherwise. *)
Theorem zero_step
    (LineSearchCtrl M Aux : Type) (ops : MatrixOps M)
    (MaxStep : Vector -> Vector -> R -> R)
    (LineSearch : M -> Vector -> Vector -> Vector -> Vector -> Vector ->
                  Vector -> Vector -> Vector -> R -> R -> R ->
                  LineSearchCtrl -> R)
    (direction : Z -> Aux -> Vector -> Vector -> Vector -> Vector ->
                 Vector -> Vector -> Aux * option Direction)
    (ctrl : IPFCtrl LineSearchCtrl) (A : M) (b c : Vector)
    (bNrm2 cNrm2 : R) (numIts : Z) (s : Iterate Aux) (aux' : Aux)
    (d : Direction) :
  let relErr := relError ops A b c bNrm2 cNrm2 (ix s) (iy s) (iz s) in
  let body :=
    iteration ops MaxStep LineSearch direction ctrl A b c bNrm2 cNrm2 in
  reaches_direction ops ctrl A b c bNrm2 cNrm2 numIts s ->
  direction_at ops direction ctrl A b c numIts s = (aux', Some d) ->
  step_length MaxStep LineSearch ctrl A b c bNrm2 cNrm2 s d = 0 ->
  stepped MaxStep LineSearch ctrl A b c bNrm2 cNrm2 s aux' d
  = mkIterate (ix s) (iy s) (iz s) aux' /\
  (relErr <= minTol ctrl ->
   body numIts s = Break (mkIterate (ix s) (iy s) (iz s) aux')) /\
  (relErr > minTol ctrl -> body numIts s = Throw RuntimeError_MinTol).
Proof.
  intros relErr body Hr Hd Ha.
  assert (Hs : stepped MaxStep LineSearch ctrl A b c bNrm2 cNrm2 s aux' d
               = mkIterate (ix s) (iy s) (iz s) aux').
  { unfold stepped. destruct d as [[dx dy] dz]. cbv zeta.
    rewrite Ha, !Axpy_zero. reflexivity. }
  split; [exact Hs|]. unfold body.
  rewrite body_direction by exact Hr. rewrite Hd.
  destruct (Req_dec_T _ 0) as [_|Hne]; [|contradiction].
  rewrite Hs. unfold acceptOrThrow. fold relErr.
  destruct (Rle_dec relErr (minTol ctrl)); split; intros;
    try reflexivity; lra.
Qed.

Lemma zero_step_witness :
  let K := toyKernels (fun _ d => Some d) (fun _ => 0) in
  dense_iteration K (toyCtrl false 5 (1 / 4) 1) A1 [1] [1]
    (Nrm2 [1]) (Nrm2 [1]) 0 toyIterate = Break toyIterate /\
  dense_iteration K (toyCtrl false 5 (1 / 4) (1 / 3)) A1 [1] [1]
    (Nrm2 [1]) (Nrm2 [1]) 0 toyIterate = Throw RuntimeError_MinTol.
Proof.
  intros K. split.
  - apply (zero_step unit Matrix unit DenseOps _ _ _
             (toyCtrl false 5 (1 / 4) 1) A1 [1] [1] (Nrm2 [1]) (Nrm2 [1])
             0%Z toyIterate tt ([1], [1], [1])).
    + apply toy_reaches; [lra | discriminate].
    + reflexivity.
    + reflexivity.
    + cbn [ix iy iz toyIterate]. rewrite toy_relError. cbn. lra.
  - apply (zero_step unit Matrix unit DenseOps _ _ _
             (toyCtrl false 5 (1 / 4) (1 / 3)) A1 [1] [1] (Nrm2 [1])
             (Nrm2 [1]) 0%Z toyIterate tt ([1], [1], [1])).
    + apply toy_reaches; [lra | discriminate].
    + reflexivity.
    + reflexivity.
    + cbn [ix iy iz toyIterate]. rewrite toy_relError. cbn. lra.
Defined.

(** *** Claims on the loop *)

(** The iterate after the iterations of [its] when each of them falls
    through to the next. *)
Fixpoint continues {St : Type} (body : Z -> St -> Outcome St)
    (its : list Z) (s : St) : option St :=
  match its with
  | [] => Some s
  | k :: rest =>
      match body k s with
      | Continue s' => continues body rest s'
      | _ => None
      end
  end.

Lemma ForBreak_continues {St : Type} (body : Z -> St -> Outcome St)
    its1 its2 s s1 :
  continues body its1 s = Some s1 ->
  ForBreak body (its1 ++ its2) s = ForBreak body its2 s1.
Proof.
  revert s. induction its1 as [|k its1 IH]; intros s H; cbn in *.
  - injection H as ->. reflexivity.
  - destruct (body k s); try discriminate. apply IH. exact H.
Qed.

Lemma iterations_last maxIts :
  (0 <= maxIts)%Z ->
  iterations maxIts = iterations (maxIts - 1) ++ [maxIts].
Proof.
  intros H. unfold iterations.
  replace (Z.to_nat (maxIts + 1)) with (S (Z.to_nat maxIts)) by lia.
  replace (maxIts - 1 + 1)%Z with maxIts by lia.
  rewrite seq_S, map_app. cbn. f_equal. f_equal. lia.
Qed.

Lemma iterations_length maxIts :
  (0 <= maxIts)%Z ->
  length (iterations maxIts) = Z.to_nat (maxIts + 1).
Proof. intros H. unfold iterations. rewrite length_map, length_seq. reflexivity. Qed.

Lemma iterations_negative maxIts : (maxIts < 0)%Z -> iterations maxIts = [].
Proof.
  intros H. unfold iterations.
  replace (Z.to_nat (maxIts + 1)) with 0%nat by lia. reflexivity.
Qed.

Lemma iterations_first maxIts :
  (0 <= maxIts)%Z ->
  iterations maxIts = 0%Z :: map Z.of_nat (seq 1 (Z.to_nat maxIts)).
Proof.
  intros H. unfold iterations.
  replace (Z.to_nat (maxIts + 1)) with (S (Z.to_nat maxIts)) by lia.
  reflexivity.
Qed.

Lemma iterations_later n :
  Forall (fun k => k <> 0%Z) (map Z.of_nat (seq 1 n)).
Proof.
  apply Forall_forall. intros k Hk. apply in_map_iff in Hk.
  destruct Hk as (j & <- & Hj). apply in_seq in Hj. lia.
Qed.

Lemma continues_app {St : Type} (body : Z -> St -> Outcome St)
    its1 its2 : forall s,
  continues body (its1 ++ its2) s
  = match continues body its1 s with
    | Some t => continues body its2 t
    | None => None
    end.
Proof.
  induction its1 as [|k its1 IH]; intros s; cbn; [reflexivity|].
  destruct (body k s); try reflexivity. apply IH.
Qed.

(** A loop that throws: the passes before the one that threw fell
    through. *)
Lemma ForBreak_thrown {St : Type} (body : Z -> St -> Outcome St) its :
  forall s0 e,
  ForBreak body its s0 = Thrown e ->
  exists its1 k its2 t,
    its = its1 ++ k :: its2 /\ continues body its1 s0 = Some t /\
    body k t = Throw e.
Proof.
  induction its as [|k its IH]; intros s0 e Hr; cbn [ForBreak] in Hr;
    [discriminate|].
  destruct (body k s0) as [s1|s1|e'] eqn:E; [|discriminate|].
  - destruct (IH s1 e Hr) as (its1 & k' & its2 & t & -> & Hc & Hb).
    exists (k :: its1), k', its2, t. cbn. rewrite E. repeat split; assumption.
  - injection Hr as <-. exists [], k, its, s0. repeat split. exact E.
Qed.

(** A loop that returns: either every pass fell through, or the passes
    before the one that left the loop did. *)
Lemma ForBreak_returned {St : Type} (body : Z -> St -> Outcome St) its :
  forall s0 s,
  ForBreak body its s0 = Returned s ->
  continues body its s0 = Some s \/
  exists its1 k its2 t,
    its = its1 ++ k :: its2 /\ continues body its1 s0 = Some t /\
    body k t = Break s.
Proof.
  induction its as [|k its IH]; intros s0 s Hr; cbn [ForBreak] in Hr.
  - injection Hr as <-. left. reflexivity.
  - destruct (body k s0) as [s1|s1|e'] eqn:E; [| |discriminate].
    + destruct (IH s1 s Hr) as [Hc | (its1 & k' & its2 & t & -> & Hc & Hb)].
      * left. cbn. rewrite E. exact Hc.
      * right. exists (k :: its1), k', its2, t. cbn. rewrite E.
        repeat split; assumption.
    + injection Hr as <-. right. exists [], k, its, s0.
      repeat split. exact E.
Qed.

Lemma seq_split (its1 its2 : list Z) (k : Z) : forall a n,
  map Z.of_nat (seq a n) = its1 ++ k :: its2 ->
  k = Z.of_nat (a + length its1) /\
  its1 = map Z.of_nat (seq a (length its1)) /\
  n = (length its1 + 1 + length its2)%nat.
Proof.
  induction its1 as [|i its1 IH]; intros a n E; destruct n as [|n];
    cbn in E; try discriminate E.
  - injection E as <- E2. cbn. split; [f_equal; lia|]. split; [reflexivity|].
    rewrite <- E2, length_map, length_seq. reflexivity.
  - injection E as <- E2. destruct (IH _ _ E2) as (Hk & H1 & Hn).
    cbn [length]. split; [rewrite Hk; f_equal; lia|].
    split; [cbn; f_equal; exact H1 | lia].
Qed.

(** The pass [k] of the loop comes after the passes [0, ..., k-1]. *)
Lemma iterations_split maxIts its1 k its2 :
  iterations maxIts = its1 ++ k :: its2 ->
  (0 <= k <= maxIts)%Z /\ its1 = iterations (k - 1) /\
  (its2 = [] -> k = maxIts).
Proof.
  unfold iterations. intros E. apply seq_split in E.
  destruct E as (Hk & H1 & Hn). cbn in Hk.
  split; [lia|]. split.
  - replace (Z.to_nat (k - 1 + 1)) with (length its1) by lia. exact H1.
  - intros ->. cbn in Hn. lia.
Qed.

(** C10. At the last index of the loop ([numIts = maxIts]), with the
    iterate in the cone and [targetTol < relError <= minTol], the body
    throws nothing: it computes the direction and takes the step (or
    leaves the loop if the solve threw or the step is zero), and the loop
    returns. The loop visits [maxIts + 1] indices, so when the first
    [maxIts] passes fall through, this pass is the [maxIts + 1]-th; and
    when it ends without a step the iterate returned has
    [relError > targetTol]. *)
Theorem budget_exhausted_within_minTol
    (LineSearchCtrl M Aux : Type) (ops : MatrixOps M)
    (MaxStep : Vector -> Vector -> R -> R)
    (LineSearch : M -> Vector -> Vector -> Vector -> Vector -> Vector ->
                  Vector -> Vector -> Vector -> R -> R -> R ->
                  LineSearchCtrl -> R)
    (direction : Z -> Aux -> Vector -> Vector -> Vector -> Vector ->
                 Vector -> Vector -> Aux * option Direction)
    (ctrl : IPFCtrl LineSearchCtrl) (A : M) (b c : Vector)
    (bNrm2 cNrm2 : R) (s0 s : Iterate Aux) :
  let relErr := relError ops A b c bNrm2 cNrm2 (ix s) (iy s) (iz s) in
  let body :=
    iteration ops MaxStep LineSearch direction ctrl A b c bNrm2 cNrm2 in
  let last :=
    match direction_at ops direction ctrl A b c (maxIts ctrl) s with
    | (aux', None) => mkIterate (ix s) (iy s) (iz s) aux'
    | (aux', Some d) =>
        stepped MaxStep LineSearch ctrl A b c bNrm2 cNrm2 s aux' d
    end in
  (0 <= maxIts ctrl)%Z ->
  continues body (iterations (maxIts ctrl - 1)) s0 = Some s ->
  NumNonPositive (ix s) = 0%nat -> NumNonPositive (iz s) = 0%nat ->
  targetTol ctrl < relErr -> relErr <= minTol ctrl ->
  (body (maxIts ctrl) s = Continue last \/ body (maxIts ctrl) s = Break last)
  /\ ForBreak body (iterations (maxIts ctrl)) s0 = Returned last
  /\ length (iterations (maxIts ctrl)) = Z.to_nat (maxIts ctrl + 1)
  /\ (snd (direction_at ops direction ctrl A b c (maxIts ctrl) s) = None ->
      ix last = ix s /\ iy last = iy s /\ iz last = iz s /\
      relError ops A b c bNrm2 cNrm2 (ix last) (iy last) (iz last)
      > targetTol ctrl).
Proof.
  intros relErr body last Hm Hc Hx Hz Ht Hmin.
  assert (Hr : reaches_direction ops ctrl A b c bNrm2 cNrm2 (maxIts ctrl) s).
  { repeat split; try assumption. intros [_ Hgt]. fold relErr in Hgt. lra. }
  assert (Hb : body (maxIts ctrl) s = Continue last
               \/ body (maxIts ctrl) s = Break last).
  { unfold body. rewrite body_direction by exact Hr. unfold last.
    destruct (direction_at _ _ _ _ _ _ _ _) as [aux' [d|]].
    - destruct (Req_dec_T _ 0) as [_|_]; [right | left; reflexivity].
      unfold acceptOrThrow. fold relErr.
      destruct (Rle_dec relErr (minTol ctrl)); [reflexivity | contradiction].
    - right. unfold acceptOrThrow. fold relErr.
      destruct (Rle_dec relErr (minTol ctrl)); [reflexivity | contradiction]. }
  split; [exact Hb|]. split; [|split].
  - rewrite iterations_last by exact Hm.
    rewrite (ForBreak_continues body _ _ s0 s Hc). cbn.
    destruct Hb as [-> | ->]; reflexivity.
  - apply iterations_length. exact Hm.
  - intros Hnone. unfold last.
    destruct (direction_at _ _ _ _ _ _ _ _) as [aux' [d|]];
      [discriminate|]. cbn. repeat split. exact Ht.
Qed.

Lemma budget_exhausted_within_minTol_witness :
  let K := toyKernels (fun _ _ => None) (fun a => a) in
  let ctrl := toyCtrl false 0 (1 / 4) 1 in
  ForBreak (dense_iteration K ctrl A1 [1] [1] (Nrm2 [1]) (Nrm2 [1]))
    (iterations (maxIts ctrl)) toyIterate = Returned toyIterate.
Proof.
  intros K ctrl.
  assert (Hm : (0 <= maxIts ctrl)%Z) by (cbn; lia).
  assert (Ht : targetTol ctrl <
               relError DenseOps A1 [1] [1] (Nrm2 [1]) (Nrm2 [1])
                 (ix toyIterate) (iy toyIterate) (iz toyIterate)).
  { cbn [ix iy iz toyIterate]. rewrite toy_relError. cbn. lra. }
  assert (Hmin : relError DenseOps A1 [1] [1] (Nrm2 [1]) (Nrm2 [1])
                   (ix toyIterate) (iy toyIterate) (iz toyIterate)
                 <= minTol ctrl).
  { cbn [ix iy iz toyIterate]. rewrite toy_relError. cbn. lra. }
  exact (proj1 (proj2
    (budget_exhausted_within_minTol unit Matrix unit DenseOps
       (MaxStepInPositiveCone K) (IPFLineSearch K)
       (dense_direction K ctrl A1 [1]) ctrl A1 [1] [1] (Nrm2 [1]) (Nrm2 [1])
       toyIterate toyIterate Hm eq_refl toy_in_cone toy_in_cone Ht Hmin))).
Defined.

(** *** Symbolic factorization in the sparse overloads *)

Section Symbolic.
Variable LS : Type.
Variable K : SparseKernels LS.
Variable ctrl : IPFCtrl LS.

(** The condition of the specification under which the loop calls
    [NestedDissection] at iteration [numIts]. *)
Definition analysis_gate (numIts : Z) : bool :=
  match system ctrl with
  | AUGMENTED_KKT => primalInit ctrl && dualInit ctrl && (numIts =? 0)%Z
  | _ => (numIts =? 0)%Z
  end.

Definition same_analysis (a' a : SparseAux K) : Prop :=
  map_ a' = map_ a /\ invMap a' = invMap a /\
  rootSep a' = rootSep a /\ info a' = info a.

(** The analysis held in [a'] is the one [NestedDissection] computes on
    the graph of some matrix. *)
Definition fresh_analysis (a' : SparseAux K) : Prop :=
  exists J : SparseMatrix K,
    (map_ a', rootSep a', info a') = NestedDissection K (LockedGraph K J) /\
    invMap a' = InvertMap K (map_ a').

Lemma same_analysis_refl a : same_analysis a a.
Proof. repeat split. Qed.

Lemma same_analysis_trans a b c :
  same_analysis a b -> same_analysis b c -> same_analysis a c.
Proof.
  intros (H1 & H2 & H3 & H4) (G1 & G2 & G3 & G4).
  repeat split; congruence.
Qed.

Lemma runNestedDissection_spec (J : SparseMatrix K) numIts a :
  ndCalls (runNestedDissection J numIts a) = ndCalls a ++ [numIts] /\
  fresh_analysis (runNestedDissection J numIts a).
Proof.
  unfold runNestedDissection, fresh_analysis.
  destruct (NestedDissection K (LockedGraph K J)) as [[mp sp] nf] eqn:E.
  cbn. split; [reflexivity|]. exists J. rewrite E. split; reflexivity.
Qed.

Ltac break_lets :=
  repeat match goal with
         | |- context [let '(_, _) := ?e in _] =>
             let p := fresh "p" in destruct e as [? ?] eqn:p
         | |- context [match ?e with Some _ => _ | None => _ end] =>
             destruct e
         end.

Definition direction_effect (numIts : Z) (a a' : SparseAux K) : Prop :=
  if analysis_gate numIts
  then ndCalls a' = ndCalls a ++ [numIts] /\ fresh_analysis a'
  else ndCalls a' = ndCalls a /\ same_analysis a' a.

Lemma sparse_direction_effect A c reg numIts a x y z rc rb rmu :
  direction_effect numIts a
    (fst (sparse_direction K ctrl A c reg numIts a x y z rc rb rmu)).
Proof.
  unfold direction_effect, analysis_gate, sparse_direction.
  destruct (system ctrl); cbv zeta.
  - destruct (SymmetricGeomEquil K _ _) as [J dInner].
    destruct (numIts =? 0)%Z;
      destruct (factorAndSolveAfter _ _ _ _ _ _ _ _ _); cbn [fst];
      first [apply runNestedDissection_spec
            | split; [reflexivity | apply same_analysis_refl]].
  - destruct (SymmetricGeomEquil K _ _) as [J dInner].
    destruct (primalInit ctrl && dualInit ctrl && (numIts =? 0)%Z);
      destruct (factorAndSolveAfter _ _ _ _ _ _ _ _ _); cbn [fst];
      first [apply runNestedDissection_spec
            | split; [reflexivity | apply same_analysis_refl]].
  - destruct (numIts =? 0)%Z;
      destruct (factorAndRefine _ _ _ _ _ _ _ _); cbn [fst];
      first [apply runNestedDissection_spec
            | split; [reflexivity | apply same_analysis_refl]].
Qed.

Lemma cacheMetaOrig_analysis (JOrig : SparseMatrix K) numIts a :
  ndCalls (snd (cacheMetaOrig LS K JOrig numIts a)) = ndCalls a /\
  same_analysis (snd (cacheMetaOrig LS K JOrig numIts a)) a.
Proof.
  unfold cacheMetaOrig. destruct (numIts =? 0)%Z.
  - destruct (InitializeMultMeta K JOrig) as [J' mt]. cbn.
    split; [reflexivity | repeat split].
  - cbn. split; [reflexivity | apply same_analysis_refl].
Qed.

Lemma distsparse_direction_effect A c reg numIts a x y z rc rb rmu :
  direction_effect numIts a
    (fst (distsparse_direction K ctrl A c reg numIts a x y z rc rb rmu)).
Proof.
  unfold direction_effect, analysis_gate, distsparse_direction.
  destruct (system ctrl); cbv zeta.
  - pose proof (cacheMetaOrig_analysis (sKKT K A x z false) numIts a)
      as [Hn Hs].
    destruct (cacheMetaOrig LS K _ numIts a) as [JOrig a1]. cbn [snd] in Hn, Hs.
    destruct (SymmetricGeomEquil K _ _) as [J dInner].
    destruct (numIts =? 0)%Z.
    + destruct (InitializeMultMeta K _) as [J' mt].
      destruct (factorAndSolveAfter _ _ _ _ _ _ _ _ _); cbn [fst];
        (destruct (runNestedDissection_spec J' numIts
                     (mkSparseAux (map_ a1) (invMap a1) (rootSep a1) (info a1)
                        (metaOrig a1) mt (ndCalls a1))) as [E F];
         split; [rewrite E; cbn; rewrite Hn; reflexivity | exact F]).
    + destruct (factorAndSolveAfter _ _ _ _ _ _ _ _ _); cbn [fst];
        (split; assumption).
  - pose proof (cacheMetaOrig_analysis (sAugmentedKKT K A x z false) numIts a)
      as [Hn Hs].
    destruct (cacheMetaOrig LS K _ numIts a) as [JOrig a1]. cbn [snd] in Hn, Hs.
    destruct (SymmetricGeomEquil K _ _) as [J dInner].
    destruct (numIts =? 0)%Z.
    + destruct (InitializeMultMeta K _) as [J' mt].
      rewrite andb_true_r.
      destruct (primalInit ctrl && dualInit ctrl).
      * destruct (factorAndSolveAfter _ _ _ _ _ _ _ _ _); cbn [fst];
          (destruct (runNestedDissection_spec J' numIts
                       (mkSparseAux (map_ a1) (invMap a1) (rootSep a1)
                          (info a1) (metaOrig a1) mt (ndCalls a1)))
             as [E F];
           split; [rewrite E; cbn; rewrite Hn; reflexivity | exact F]).
      * destruct (factorAndSolveAfter _ _ _ _ _ _ _ _ _); cbn [fst];
          (split; [exact Hn | exact Hs]).
    + rewrite andb_false_r.
      destruct (factorAndSolveAfter _ _ _ _ _ _ _ _ _); cbn [fst];
        (split; assumption).
  - destruct (numIts =? 0)%Z.
    + destruct (InitializeMultMeta K _) as [J' mt].
      destruct (factorAndRefine _ _ _ _ _ _ _ _); cbn [fst];
        (destruct (runNestedDissection_spec J' numIts
                     (mkSparseAux (map_ a) (invMap a) (rootSep a) (info a)
                        (metaOrig a) mt (ndCalls a))) as [E F];
         split; [rewrite E; reflexivity | exact F]).
    + destruct (factorAndRefine _ _ _ _ _ _ _ _); cbn [fst];
        (split; [reflexivity | apply same_analysis_refl]).
Qed.

Lemma regime_direction_effect r A c reg numIts a x y z rc rb rmu :
  direction_effect numIts a
    (fst (regime_direction K ctrl r A c reg numIts a x y z rc rb rmu)).
Proof.
  destruct r; [apply sparse_direction_effect
              | apply distsparse_direction_effect].
Qed.
End Symbolic.

Section SymbolicLoop.
Variable LS : Type.
Variable K : SparseKernels LS.
Variable ctrl : IPFCtrl LS.
Variable r : SparseRegime.
Variable A : SparseMatrix K.
Variables (b c : Vector) (bNrm2 cNrm2 : R) (reg : Vector).

Local Abbreviation body :=
  (sparse_iteration K ctrl r A b c bNrm2 cNrm2 reg).

Lemma sparse_iteration_effect numIts (s s' : Iterate (SparseAux K)) :
  body numIts s = Continue s' \/ body numIts s = Break s' ->
  aux s' = aux s \/ direction_effect LS K ctrl numIts (aux s) (aux s').
Proof.
  intros Hb. unfold sparse_iteration in Hb.
  apply body_aux in Hb. destruct Hb as [[-> _] | [_ ->]].
  - left. reflexivity.
  - right. unfold direction_at. apply regime_direction_effect.
Qed.

Lemma sparse_iteration_keeps numIts (s s' : Iterate (SparseAux K)) :
  analysis_gate LS ctrl numIts = false ->
  body numIts s = Continue s' \/ body numIts s = Break s' ->
  ndCalls (aux s') = ndCalls (aux s) /\ same_analysis LS K (aux s') (aux s).
Proof.
  intros Hg Hb. apply sparse_iteration_effect in Hb.
  destruct Hb as [-> | He].
  - split; [reflexivity | apply same_analysis_refl].
  - unfold direction_effect in He. rewrite Hg in He. exact He.
Qed.

Lemma loop_keeps its : forall (s s' : Iterate (SparseAux K)),
  Forall (fun k => analysis_gate LS ctrl k = false) its ->
  ForBreak body its s = Returned s' ->
  ndCalls (aux s') = ndCalls (aux s) /\ same_analysis LS K (aux s') (aux s).
Proof.
  induction its as [|k its IH]; intros s s' Hf Hr; cbn in Hr.
  - injection Hr as <-. split; [reflexivity | apply same_analysis_refl].
  - inversion Hf as [|? ? Hk Hf']; subst.
    destruct (body k s) as [s1|s1|e] eqn:E; [| |discriminate].
    + destruct (sparse_iteration_keeps k s s1 Hk (or_introl E)) as [H1 H2].
      destruct (IH s1 s' Hf' Hr) as [G1 G2].
      split; [congruence | eapply same_analysis_trans; eassumption].
    + injection Hr as <-.
      exact (sparse_iteration_keeps k s s1 Hk (or_intror E)).
Qed.

Lemma gate_later numIts : numIts <> 0%Z -> analysis_gate LS ctrl numIts = false.
Proof.
  intros Hn. unfold analysis_gate.
  destruct (Z.eqb_spec numIts 0) as [E|_]; [contradiction|].
  destruct (system ctrl); rewrite ?andb_false_r; reflexivity.
Qed.

Lemma gate_augmented_uninitialised numIts :
  system ctrl = AUGMENTED_KKT -> primalInit ctrl && dualInit ctrl = false ->
  analysis_gate LS ctrl numIts = false.
Proof. intros Hs Hi. unfold analysis_gate. rewrite Hs, Hi. reflexivity. Qed.
Lemma fresh_analysis_same (a' a : SparseAux K) :
  same_analysis LS K a' a -> fresh_analysis LS K a -> fresh_analysis LS K a'.
Proof.
  intros (H1 & H2 & H3 & H4) (J & HJ & HI). exists J.
  rewrite H1, H2, H3, H4. split; assumption.
Qed.

(** [sparse_solve] reads of [an] the analysis only. *)
Lemma sparse_solve_same_analysis numIts a an an' x z rc rb rmu :
  same_analysis LS K an an' ->
  sparse_solve K ctrl r A reg numIts a an x z rc rb rmu
  = sparse_solve K ctrl r A reg numIts a an' x z rc rb rmu.
Proof.
  intros (H1 & H2 & H3 & H4).
  unfold sparse_solve, factorAndSolveAfter, factorAndRefine.
  rewrite H1, H2, H3, H4. reflexivity.
Qed.

(** With the gate closed the front is pulled, factored and solved with the
    analysis the iteration received. *)
Lemma regime_direction_carried numIts a x y z rc rb rmu :
  analysis_gate LS ctrl numIts = false ->
  snd (regime_direction K ctrl r A c reg numIts a x y z rc rb rmu)
  = option_map (sparse_expand K ctrl A c x z rc rmu)
      (sparse_solve K ctrl r A reg numIts a a x z rc rb rmu).
Proof.
  intros Hg. rewrite regime_direction_solve. f_equal.
  apply sparse_solve_same_analysis.
  pose proof (regime_direction_effect LS K ctrl r A c reg numIts a
                x y z rc rb rmu) as He.
  unfold direction_effect in He. rewrite Hg in He. apply He.
Qed.

(** A loop entered with an empty log of calls: either it never calls
    [NestedDissection] and leaves with the analysis it entered with, or it
    calls it in the pass [numIts = 0], whose gate is open, and leaves with
    what that call computed. *)
Lemma run_analysis (s0 s' : Iterate (SparseAux K)) :
  ndCalls (aux s0) = [] ->
  ForBreak body (iterations (maxIts ctrl)) s0 = Returned s' ->
  (ndCalls (aux s') = [] /\ same_analysis LS K (aux s') (aux s0)) \/
  (analysis_gate LS ctrl 0 = true /\
   ndCalls (aux s') = [0%Z] /\ fresh_analysis LS K (aux s')).
Proof.
  intros H0.
  destruct (Z_lt_le_dec (maxIts ctrl) 0) as [Hneg|Hm].
  { rewrite iterations_negative by exact Hneg. cbn [ForBreak].
    intros E. injection E as <-. left.
    split; [exact H0 | apply same_analysis_refl]. }
  rewrite iterations_first by exact Hm. cbn [ForBreak].
  assert (Hfirst : forall s1,
            body 0%Z s0 = Continue s1 \/ body 0%Z s0 = Break s1 ->
            (ndCalls (aux s1) = [] /\ same_analysis LS K (aux s1) (aux s0)) \/
            (analysis_gate LS ctrl 0 = true /\
             ndCalls (aux s1) = [0%Z] /\ fresh_analysis LS K (aux s1))).
  { intros s1 Hb. apply sparse_iteration_effect in Hb.
    destruct Hb as [-> | He].
    - left. split; [exact H0 | apply same_analysis_refl].
    - unfold direction_effect in He.
      destruct (analysis_gate LS ctrl 0); destruct He as [He Ha].
      + right. rewrite He, H0. repeat split. exact Ha.
      + left. rewrite He. split; [exact H0 | exact Ha]. }
  destruct (body 0%Z s0) as [s1|s1|err] eqn:E; [| |discriminate].
  - intros Hr.
    destruct (loop_keeps _ s1 s'
                (Forall_impl _ gate_later (iterations_later _)) Hr)
      as [Hn Hs].
    destruct (Hfirst s1 (or_introl eq_refl)) as [[G1 G2] | (Hg & G1 & G2)].
    + left. split; [congruence | eapply same_analysis_trans; eassumption].
    + right. split; [exact Hg|]. split; [congruence|].
      eapply fresh_analysis_same; eassumption.
  - intros Hr. injection Hr as <-. apply Hfirst. right. reflexivity.
Qed.
End SymbolicLoop.

(** C7. In both sparse overloads:
    - an iteration that computes a direction calls [NestedDissection]
      exactly when it is the first one ([numIts = 0]) and, for the augmented
      system, [primalInit] and [dualInit] both hold;
    - the iterations after the first never call it and keep the analysis
      they received;
    - every direction comes from the front pulled, factored and solved
      with the analysis the iteration ends with, which is the one it
      received whenever it is not the first iteration or the system is the
      augmented one with one of the two flags off;
    - a run of IPF that returns has either never called it and then holds
      the analysis the loop was entered with, or has called it once, in
      the first iteration, and holds what that call computed; with the
      augmented system and one of the two flags off it has never called it
      and holds the analysis [Initialize] returned. *)
Theorem symbolic_analysis_reuse
    (LS : Type) (K : SparseKernels LS) (ctrl : IPFCtrl LS)
    (r : SparseRegime) :
  let first_gate :=
    match system ctrl with
    | AUGMENTED_KKT => primalInit ctrl && dualInit ctrl
    | _ => true
    end in
  (forall (A : SparseMatrix K) (b c : Vector) (bNrm2 cNrm2 : R)
          (reg : Vector),
     let body := sparse_iteration K ctrl r A b c bNrm2 cNrm2 reg in
     (forall (s s' : Iterate (SparseAux K)),
        reaches_direction (sparseOps K) ctrl A b c bNrm2 cNrm2 0 s ->
        body 0%Z s = Continue s' \/ body 0%Z s = Break s' ->
        if first_gate
        then ndCalls (aux s') = ndCalls (aux s) ++ [0%Z] /\
             fresh_analysis LS K (aux s')
        else ndCalls (aux s') = ndCalls (aux s) /\
             same_analysis LS K (aux s') (aux s)) /\
     (forall its (s s' : Iterate (SparseAux K)),
        Forall (fun k => k <> 0%Z) its ->
        ForBreak body its s = Returned s' ->
        ndCalls (aux s') = ndCalls (aux s) /\
        same_analysis LS K (aux s') (aux s)) /\
     (forall numIts (a : SparseAux K) (x y z rc rb rmu : Vector),
        let d := regime_direction K ctrl r A c reg numIts a x y z rc rb rmu in
        snd d = option_map (sparse_expand K ctrl A c x z rc rmu)
                  (sparse_solve K ctrl r A reg numIts a (fst d)
                     x z rc rb rmu) /\
        (numIts <> 0%Z \/ first_gate = false ->
         snd d = option_map (sparse_expand K ctrl A c x z rc rmu)
                   (sparse_solve K ctrl r A reg numIts a a
                      x z rc rb rmu)))) /\
  (forall (APre : SparseMatrix K) (bPre cPre x y z : Vector)
          (e : Scaled (SparseMatrix K)) (s' : Iterate (SparseAux K)),
     IPF_sparse_loop K ctrl r APre bPre cPre x y z = (e, Returned s') ->
     let analysis :=
       snd (sInitialize K (eA e) (eb e) (ec e) (ex e) (ey e) (ez e)
              (primalInit ctrl) (dualInit ctrl) true (qsdCtrl ctrl)) in
     if first_gate
     then (ndCalls (aux s') = [] /\
           same_analysis LS K (aux s') (initialAux K ctrl analysis)) \/
          (ndCalls (aux s') = [0%Z] /\ fresh_analysis LS K (aux s'))
     else ndCalls (aux s') = [] /\
          (map_ (aux s'), invMap (aux s'), rootSep (aux s'), info (aux s'))
          = analysis).
Proof.
  intros first_gate.
  assert (Hgate : forall numIts,
            numIts <> 0%Z \/ first_gate = false ->
            analysis_gate LS ctrl numIts = false).
  { intros numIts [Hn | Hf].
    - apply gate_later. exact Hn.
    - unfold analysis_gate. unfold first_gate in Hf.
      destruct (system ctrl); try discriminate Hf. rewrite Hf. reflexivity. }
  split.
  - intros A b c bNrm2 cNrm2 reg body. split; [|split].
    + intros s s' Hr Hb. unfold body, sparse_iteration in Hb.
      apply body_aux in Hb. destruct Hb as [[_ Hc] | [_ Ha]].
      * destruct Hr as (_ & _ & Hgt & _). lra.
      * pose proof (regime_direction_effect LS K ctrl r A c reg 0%Z (aux s)
                      (ix s) (iy s) (iz s)
                      (residual_c (sparseOps K) A c (iy s) (iz s))
                      (residual_b (sparseOps K) A b (ix s))
                      (rmu_of (sparseOps K) ctrl A s)) as He.
        unfold direction_at in Ha. rewrite <- Ha in He.
        unfold direction_effect, analysis_gate in He. unfold first_gate.
        destruct (system ctrl); cbn in He; rewrite ?andb_true_r in He;
          exact He.
    + intros its s s' Hf Hr.
      apply (loop_keeps LS K ctrl r A b c bNrm2 cNrm2 reg its s s');
        [|exact Hr].
      eapply Forall_impl; [|exact Hf]. intros k Hk. apply gate_later. exact Hk.
    + intros numIts a x y z rc rb rmu d. split.
      * apply regime_direction_solve.
      * intros Hc. apply regime_direction_carried. apply Hgate. exact Hc.
  - intros APre bPre cPre x y z e s'. unfold IPF_sparse_loop. cbv zeta.
    destruct (sInitialize K _ _ _ _ _ _ _ _ _ _)
      as [[[x0 y0] z0] analysis0] eqn:EI.
    intros E. injection E as <- Hr. rewrite EI. cbn [snd].
    assert (H0 : ndCalls (aux (mkIterate x0 y0 z0
                                 (initialAux K ctrl analysis0))) = []).
    { unfold initialAux. cbn [aux].
      destruct (system ctrl); destruct analysis0 as [[[m0 i0] r0] n0];
        reflexivity. }
    destruct (run_analysis LS K ctrl r _ _ _ _ _ _ _ _ H0 Hr)
      as [[G1 G2] | (Hg & G1 & G2)]; cbn [aux] in *.
    + destruct first_gate eqn:Ef.
      * left. split; assumption.
      * split; [exact G1|].
        unfold first_gate in Ef. unfold initialAux in G2.
        destruct (system ctrl); try discriminate Ef.
        destruct analysis0 as [[[m0 i0] r0] n0].
        destruct G2 as (-> & -> & -> & ->). reflexivity.
    + destruct first_gate eqn:Ef.
      * right. split; assumption.
      * rewrite (Hgate 0%Z (or_intror eq_refl)) in Hg. discriminate Hg.
Qed.

(** A toy instance of the sparse collaborators: dense storage, an
    analysis made of a number, solvers that return their right-hand
    side. *)
Definition toySparse : SparseKernels unit :=
  mkSparseKernels unit
    Matrix unit nat unit unit unit unit
    DenseOps 0%nat tt tt tt
    (fun A _ => (A, [2], [4]))
    (fun _ _ _ x y z _ _ _ _ => ((x, y, z), (5%nat, 5%nat, tt, tt)))
    (fun A _ _ _ => A) (fun _ _ _ _ => [0]) (fun _ _ _ => ([1], [1], [1]))
    (fun A _ _ _ => A) (fun _ _ _ _ => [0]) (fun _ _ _ _ => ([1], [1], [1]))
    (fun A _ _ _ => A) (fun _ _ _ _ _ _ => [0])
    (fun _ _ _ _ _ _ _ => ([1], [1], [1]))
    (fun J _ => (J, [1]))
    (fun J _ _ => J)
    (fun _ => tt)
    (fun _ => (7%nat, tt, tt))
    (fun m => m)
    (fun _ _ _ => tt)
    (fun _ _ _ _ => tt)
    (fun J => (J, tt))
    (fun J _ => J)
    (fun _ f _ => Some f)
    (fun _ _ _ _ _ _ d _ => Some d)
    (fun _ _ _ _ d _ _ => Some d)
    (fun _ _ upperBound => upperBound)
    (fun _ _ _ _ _ _ _ _ _ _ _ _ _ => 1).

Definition toySparseCtrl : IPFCtrl unit :=
  mkCtrl unit false false false (1 / 10) FULL_KKT 5 (1 / 4) (1 / 3) false
    (mkQSD 0 0 0 0) tt.

Definition toySparseAux : SparseAux toySparse :=
  mkSparseAux (K := toySparse) 0%nat 0%nat tt tt tt tt [].

Definition toySparseIterate : Iterate (SparseAux toySparse) :=
  mkIterate [1] [0] [1] toySparseAux.

Definition toySparseNext : Iterate (SparseAux toySparse) :=
  mkIterate [1 * 1 + 1] [1 * 1 + 0] [1 * 1 + 1]
    (mkSparseAux (K := toySparse) 7%nat 7%nat tt tt tt tt [0%Z]).

Lemma toySparse_reaches :
  reaches_direction (sparseOps toySparse) toySparseCtrl A1 [1] [1]
    (Nrm2 [1]) (Nrm2 [1]) 0 toySparseIterate.
Proof.
  assert (E : relError (sparseOps toySparse) A1 [1] [1] (Nrm2 [1])
                 (Nrm2 [1]) [1] [0] [1] = 1 / 2) by exact toy_relError.
  unfold reaches_direction. cbn [ix iy iz toySparseIterate].
  rewrite E. repeat split; try apply toy_in_cone.
  - cbn. lra.
  - cbn. intros [E0 _]. discriminate E0.
Qed.

Lemma toySparse_step :
  sparse_iteration toySparse toySparseCtrl Sequential A1 [1] [1]
    (Nrm2 [1]) (Nrm2 [1]) (regVector toySparseCtrl 1 1) 0 toySparseIterate
  = Continue toySparseNext.
Proof.
  unfold sparse_iteration.
  rewrite body_direction by exact toySparse_reaches.
  cbn -[Req_dec_T Rmin].
  destruct (Req_dec_T 1 0) as [E|_]; [lra | reflexivity].
Qed.

(** A factorization that accepts the node information [Initialize]
    returned, and no other: the augmented system with [primalInit] off
    takes a step with it in the distributed overload. *)
Definition toySparseCarried : SparseKernels unit :=
  toySparseSolvers (fun nodeInfo _ => if Nat.eqb nodeInfo 5 then Some tt
                                      else None) Some.

Definition toySparseFresh : SparseKernels unit :=
  toySparseSolvers (fun nodeInfo _ => if Nat.eqb nodeInfo 7 then Some tt
                                      else None) Some.

Definition toyEntry (K : SparseKernels unit) (a : SparseAux K)
  : Iterate (SparseAux K) := mkIterate [1] [0] [1] a.

Definition toyStepped (K : SparseKernels unit) (a : SparseAux K)
  : Iterate (SparseAux K) :=
  mkIterate [1 * 1 + 1] [1 * 1 + 0] [1 * 1 + 1] a.

Lemma toyAugmented_run :
  IPF_sparse_loop toySparseCarried (toyCtrlOf AUGMENTED_KKT false 0 (1 / 4) 1)
    Distributed A1 [1] [1] [1] [0] [1]
  = (mkScaled A1 [1] [1] [1] [0] [1] (Ones 1) (Ones 1),
     Returned (toyStepped toySparseCarried
                 (mkSparseAux (K := toySparseCarried)
                    5%nat 5%nat tt 5%nat tt tt []))).
Proof.
  change (IPF_sparse_loop toySparseCarried
            (toyCtrlOf AUGMENTED_KKT false 0 (1 / 4) 1)
            Distributed A1 [1] [1] [1] [0] [1])
    with (mkScaled A1 [1] [1] [1] [0] [1] (Ones 1) (Ones 1),
          ForBreak
            (sparse_iteration toySparseCarried
               (toyCtrlOf AUGMENTED_KKT false 0 (1 / 4) 1) Distributed A1
               [1] [1] (Nrm2 [1]) (Nrm2 [1])
               (regVector (toyCtrlOf AUGMENTED_KKT false 0 (1 / 4) 1) 1 1))
            [0%Z]
            (toyEntry toySparseCarried
               (mkSparseAux (K := toySparseCarried)
                  5%nat 5%nat tt 5%nat tt tt []))).
  f_equal. cbn [ForBreak]. unfold sparse_iteration.
  rewrite body_direction.
  - cbn -[Req_dec_T Rmin].
    destruct (Req_dec_T 1 0) as [E|_]; [lra | reflexivity].
  - apply (toy_reaches_direction (Aux := SparseAux toySparseCarried));
      cbn; intros; lra.
Qed.

Lemma toyAugmented_first_pass :
  sparse_iteration toySparseFresh
    (toyCtrlOf AUGMENTED_KKT true 5 (1 / 4) (1 / 3)) Distributed A1 [1] [1]
    (Nrm2 [1]) (Nrm2 [1]) [] 0
    (toyEntry toySparseFresh
       (mkSparseAux (K := toySparseFresh) 5%nat 5%nat tt 5%nat tt tt []))
  = Continue (toyStepped toySparseFresh
                (mkSparseAux (K := toySparseFresh)
                   7%nat 7%nat tt 7%nat tt tt [0%Z])).
Proof.
  unfold sparse_iteration. rewrite body_direction.
  - cbn -[Req_dec_T Rmin].
    destruct (Req_dec_T 1 0) as [E|_]; [lra | reflexivity].
  - apply (toy_reaches_direction (Aux := SparseAux toySparseFresh));
      cbn; [lra | discriminate].
Qed.

Lemma symbolic_analysis_reuse_witness :
  (ndCalls (aux toySparseNext) = ndCalls (aux toySparseIterate) ++ [0%Z] /\
   fresh_analysis unit toySparse (aux toySparseNext)) /\
  (ndCalls (mkSparseAux (K := toySparseFresh)
              7%nat 7%nat tt 7%nat tt tt [0%Z]) = [] ++ [0%Z] /\
   fresh_analysis unit toySparseFresh
     (mkSparseAux (K := toySparseFresh) 7%nat 7%nat tt 7%nat tt tt [0%Z])) /\
  (ndCalls (mkSparseAux (K := toySparseCarried)
              5%nat 5%nat tt 5%nat tt tt []) = [] /\
   (5%nat, 5%nat, tt, 5%nat)
   = snd (sInitialize toySparseCarried A1 [1] [1] [1] [0] [1]
            false false true (mkQSD 0 0 0 0))).
Proof.
  split; [|split].
  - exact (proj1 (proj1
      (symbolic_analysis_reuse unit toySparse toySparseCtrl Sequential) A1
         [1] [1] (Nrm2 [1]) (Nrm2 [1]) (regVector toySparseCtrl 1 1))
      toySparseIterate toySparseNext toySparse_reaches
      (or_introl toySparse_step)).
  - refine (proj1 (proj1
      (symbolic_analysis_reuse unit toySparseFresh
         (toyCtrlOf AUGMENTED_KKT true 5 (1 / 4) (1 / 3)) Distributed) A1
         [1] [1] (Nrm2 [1]) (Nrm2 [1]) [])
      (toyEntry toySparseFresh
         (mkSparseAux (K := toySparseFresh) 5%nat 5%nat tt 5%nat tt tt []))
      (toyStepped toySparseFresh
         (mkSparseAux (K := toySparseFresh) 7%nat 7%nat tt 7%nat tt tt [0%Z]))
      _ (or_introl toyAugmented_first_pass)).
    apply (toy_reaches_direction (Aux := SparseAux toySparseFresh));
      cbn; [lra | discriminate].
  - exact (proj2
      (symbolic_analysis_reuse unit toySparseCarried
         (toyCtrlOf AUGMENTED_KKT false 0 (1 / 4) 1) Distributed)
      A1 [1] [1] [1] [0] [1] _ _ toyAugmented_run).
Defined.

(** *** Equilibration *)

Lemma finish_equilibrated {LS Aux : Type} (ctrl : IPFCtrl LS)
    (dRow dCol : Vector) (r : Result (Iterate Aux)) :
  equilibrate ctrl = true ->
  finish ctrl dRow dCol r =
  match r with
  | Thrown err => Thrown err
  | Returned s =>
      Returned (DiagonalSolve dCol (ix s), DiagonalSolve dRow (iy s),
                DiagonalScale dCol (iz s))
  end.
Proof.
  intros He. unfold finish, Unequilibrate. rewrite He. reflexivity.
Qed.

(** The claim as stated has the block after the loop scale [y] by [dRow].
    With [dRow = (2)] and [y = (3)] the block returns [y = (3/2)]: it
    divides by [dRow]. *)
Lemma unequilibration_y_counterexample :
  Unequilibrate (toyCtrl true 0 0 0) [2] [4] [1] [3] [1]
  <> (DiagonalSolve [4] [1], DiagonalScale [2] [3], DiagonalScale [4] [1]).
Proof.
  cbn. intros E. injection E as E. lra.
Qed.

(** C2 (amended). With [ctrl.equilibrate], a run of IPF whose loop ends
    without throwing, after any number of iterations and by any of its
    exits, returns the iterate of the loop with [x] divided by [dCol],
    [y] divided by [dRow] and [z] multiplied by [dCol]; a run whose loop
    throws returns nothing. Where [dRow] and [dCol] have no zero entry,
    this block is the exact inverse of the scaling applied before the loop
    to a caller-supplied iterate ([x] by [dCol], [y] by [dRow], [z] by the
    inverse of [dCol]). Dense and sparse overloads alike. *)
Theorem unequilibration_inverts_equilibration
    (LS : Type) (ctrl : IPFCtrl LS)
    (K : DenseKernels LS) (APre : Matrix)
    (KS : SparseKernels LS) (r : SparseRegime) (SPre : SparseMatrix KS)
    (bPre cPre x y z : Vector) :
  equilibrate ctrl = true ->
  let after (dRow dCol : Vector) (Aux : Type) (res : Result (Iterate Aux)) :=
    match res with
    | Thrown err => Thrown err
    | Returned s =>
        Returned (DiagonalSolve dCol (ix s), DiagonalSolve dRow (iy s),
                  DiagonalScale dCol (iz s))
    end in
  let dense := IPF_loop K ctrl APre bPre cPre x y z in
  let sparse := IPF_sparse_loop KS ctrl r SPre bPre cPre x y z in
  IPF K ctrl APre bPre cPre x y z
  = after (dRow (fst dense)) (dCol (fst dense)) unit (snd dense) /\
  IPF_sparse KS ctrl r SPre bPre cPre x y z
  = after (dRow (fst sparse)) (dCol (fst sparse)) (SparseAux KS) (snd sparse)
  /\
  (forall (GeomEquil : Matrix -> bool -> Matrix * Vector * Vector),
     let e := Equilibrate DenseOps GeomEquil ctrl APre bPre cPre x y z in
     (primalInit ctrl = true -> ex e = DiagonalScale (dCol e) x) /\
     (dualInit ctrl = true ->
      ey e = DiagonalScale (dRow e) y /\ ez e = DiagonalSolve (dCol e) z)) /\
  (forall dRow dCol x0 y0 z0 : Vector,
     Forall nonzero dRow -> Forall nonzero dCol ->
     Unequilibrate ctrl dRow dCol (DiagonalScale dCol x0)
       (DiagonalScale dRow y0) (DiagonalSolve dCol z0)
     = (x0, y0, z0)).
Proof.
  intros He after dense sparse. split; [|split; [|split]].
  - unfold IPF. fold dense. destruct dense as [e res]. cbn [fst snd].
    apply finish_equilibrated. exact He.
  - unfold IPF_sparse. fold sparse. destruct sparse as [e res]. cbn [fst snd].
    apply finish_equilibrated. exact He.
  - intros GeomEquil e. unfold e, Equilibrate. rewrite He.
    destruct (GeomEquil APre (print ctrl)) as [[A' dR] dC]. cbn.
    split.
    + intros ->. reflexivity.
    + intros ->. split; reflexivity.
  - intros dRow dCol x0 y0 z0 HR HC. unfold Unequilibrate. rewrite He.
    rewrite !DiagonalSolve_Scale, DiagonalScale_Solve by assumption.
    reflexivity.
Qed.

Lemma unequilibration_inverts_equilibration_witness :
  Unequilibrate (toyCtrl true 0 0 0) [2] [4]
    (DiagonalScale [4] [1]) (DiagonalScale [2] [3]) (DiagonalSolve [4] [1])
  = ([1], [3], [1]).
Proof.
  assert (H2 : Forall nonzero [2]).
  { constructor; [unfold nonzero; lra | constructor]. }
  assert (H4 : Forall nonzero [4]).
  { constructor; [unfold nonzero; lra | constructor]. }
  exact (proj2 (proj2 (proj2
    (unequilibration_inverts_equilibration unit (toyCtrl true 0 0 0)
       (toyKernels (fun _ _ => None) (fun a => a)) A1
       toySparse Sequential A1 [1] [1] [1] [0] [1] eq_refl)))
    [2] [4] [1] [3] [1] H2 H4).
Defined.

(** *** The loop as a whole *)

Section LoopExits.
Variable LineSearchCtrl : Type.
Variable M : Type.
Variable ops : MatrixOps M.
Variable Aux : Type.
Variable MaxStepInPositiveCone : Vector -> Vector -> R -> R.
Variable IPFLineSearch :
  M -> Vector -> Vector -> Vector -> Vector -> Vector ->
  Vector -> Vector -> Vector -> R -> R -> R -> LineSearchCtrl -> R.
Variable direction :
  Z -> Aux -> Vector -> Vector -> Vector -> Vector -> Vector -> Vector ->
  Aux * option Direction.
Variable ctrl : IPFCtrl LineSearchCtrl.
Variables (A : M) (b c : Vector).
Variables (bNrm2 cNrm2 : R).

Local Abbreviation body :=
  (iteration ops MaxStepInPositiveCone IPFLineSearch direction ctrl
     A b c bNrm2 cNrm2).
Local Abbreviation relErr s :=
  (relError ops A b c bNrm2 cNrm2 (ix s) (iy s) (iz s)).
Local Abbreviation reaches_direction :=
  (reaches_direction ops ctrl A b c bNrm2 cNrm2).
Local Abbreviation direction_at := (direction_at ops direction ctrl A b c).
Local Abbreviation step_length :=
  (step_length MaxStepInPositiveCone IPFLineSearch ctrl A b c bNrm2 cNrm2).
Local Abbreviation stepped :=
  (stepped MaxStepInPositiveCone IPFLineSearch ctrl A b c bNrm2 cNrm2).

(** The iterate passed the cone guard. *)
Definition in_cone (s : Iterate Aux) : Prop :=
  Forall (fun a => 0 < a) (ix s) /\ Forall (fun a => 0 < a) (iz s).

(** How the iterate [s] returned by the loop relates to [t], the last
    iterate whose relative error was evaluated. *)
Definition exit_state (t s : Iterate Aux) : Prop :=
  (relErr t <= targetTol ctrl /\ s = t) \/
  (targetTol ctrl < relErr t <= minTol ctrl /\
   ((ix s = ix t /\ iy s = iy t /\ iz s = iz t) \/
    exists aux' d,
      direction_at (maxIts ctrl) t = (aux', Some d) /\
      step_length t d <> 0 /\ s = stepped t aux' d)).

Lemma body_outcome numIts (s : Iterate Aux) :
  match body numIts s with
  | Throw _ => True
  | Break s' =>
      in_cone s /\
      ((relErr s <= targetTol ctrl /\ s' = s) \/
       (targetTol ctrl < relErr s <= minTol ctrl /\
        ix s' = ix s /\ iy s' = iy s /\ iz s' = iz s))
  | Continue s' =>
      in_cone s /\ targetTol ctrl < relErr s /\
      (numIts = maxIts ctrl -> relErr s <= minTol ctrl) /\
      exists aux' d,
        direction_at numIts s = (aux', Some d) /\
        step_length s d <> 0 /\ s' = stepped s aux' d
  end.
Proof.
  destruct (Nat.eq_dec (NumNonPositive (ix s)) 0) as [Hx|Hx];
    [destruct (Nat.eq_dec (NumNonPositive (iz s)) 0) as [Hz|Hz]|].
  2: { rewrite body_guard by lia. exact I. }
  2: { rewrite body_guard by lia. exact I. }
  assert (Hcone : in_cone s) by (split; apply NumNonPositive_zero; assumption).
  destruct (Rle_dec (relErr s) (targetTol ctrl)) as [Hc|Hc].
  { rewrite body_converged by assumption. split; [exact Hcone|].
    left. split; [exact Hc | reflexivity]. }
  assert (Hgt : targetTol ctrl < relErr s) by lra.
  destruct (Z.eq_dec numIts (maxIts ctrl)) as [Hn|Hn];
    [destruct (Rgt_dec (relErr s) (minTol ctrl)) as [Hm|Hm]|].
  { rewrite body_budget by (try assumption; lra). exact I. }
  - assert (Hr : reaches_direction numIts s).
    { repeat split; try assumption. intros [_ Hgt']. contradiction. }
    rewrite body_direction by exact Hr.
    destruct (direction_at numIts s) as [aux' [d|]] eqn:Ed.
    + destruct (Req_dec_T (step_length s d) 0) as [Ha|Ha].
      * unfold acceptOrThrow.
        destruct (Rle_dec (relErr s) (minTol ctrl)); [|exact I].
        split; [exact Hcone|]. right. split; [lra|].
        destruct d as [[dx dy] dz]. unfold IPFModel.stepped. cbv zeta.
        rewrite Ha, !Axpy_zero. cbn [ix iy iz]. repeat split.
      * repeat split; try apply Hcone; [exact Hgt | intros _; lra |].
        exists aux', d. repeat split. exact Ha.
    + unfold acceptOrThrow.
      destruct (Rle_dec (relErr s) (minTol ctrl)); [|exact I].
      split; [exact Hcone|]. right. split; [lra|]. repeat split.
  - assert (Hr : reaches_direction numIts s).
    { repeat split; try assumption. intros [E _]. contradiction. }
    rewrite body_direction by exact Hr.
    destruct (direction_at numIts s) as [aux' [d|]] eqn:Ed.
    + destruct (Req_dec_T (step_length s d) 0) as [Ha|Ha].
      * unfold acceptOrThrow.
        destruct (Rle_dec (relErr s) (minTol ctrl)); [|exact I].
        split; [exact Hcone|]. right. split; [lra|].
        destruct d as [[dx dy] dz]. unfold IPFModel.stepped. cbv zeta.
        rewrite Ha, !Axpy_zero. cbn [ix iy iz]. repeat split.
      * repeat split; try apply Hcone; [exact Hgt | intros E; contradiction |].
        exists aux', d. repeat split. exact Ha.
    + unfold acceptOrThrow.
      destruct (Rle_dec (relErr s) (minTol ctrl)); [|exact I].
      split; [exact Hcone|]. right. split; [lra|]. repeat split.
Qed.

Lemma loop_exit s0 s :
  (0 <= maxIts ctrl)%Z ->
  ForBreak body (iterations (maxIts ctrl)) s0 = Returned s ->
  exists numIts t,
    (0 <= numIts <= maxIts ctrl)%Z /\
    continues body (iterations (numIts - 1)) s0 = Some t /\
    (body numIts t = Break s \/
     (numIts = maxIts ctrl /\ body numIts t = Continue s)) /\
    in_cone t /\ exit_state t s.
Proof.
  intros Hm Hr. apply ForBreak_returned in Hr.
  destruct Hr as [Hc | (its1 & k & its2 & t & Hi & Hc & Hb)].
  - rewrite iterations_last, continues_app in Hc by exact Hm.
    destruct (continues body (iterations (maxIts ctrl - 1)) s0) as [t|] eqn:Et;
      [|discriminate].
    cbn [continues] in Hc.
    pose proof (body_outcome (maxIts ctrl) t) as Ho.
    destruct (body (maxIts ctrl) t) as [s1|s1|e] eqn:Eb; try discriminate.
    injection Hc as ->.
    destruct Ho as (Hcone & Hgt & Hmin & aux' & d & Ed & Ha & Hs).
    exists (maxIts ctrl), t. repeat split; try apply Hcone; try lia.
    + exact Et.
    + right. split; [reflexivity | exact Eb].
    + right. split; [split; [exact Hgt | apply Hmin; reflexivity]|].
      right. exists aux', d. repeat split; assumption.
  - apply iterations_split in Hi. destruct Hi as (Hk & -> & _).
    pose proof (body_outcome k t) as Ho. rewrite Hb in Ho.
    destruct Ho as (Hcone & Ho).
    exists k, t. repeat split; try apply Hcone; try lia.
    + exact Hc.
    + left. exact Hb.
    + destruct Ho as [Ho | (Hrange & Ho)]; [left; exact Ho | right].
      split; [exact Hrange | left; exact Ho].
Qed.

(** What each error tells about the iterate [s] of the pass that threw
    it. *)
Definition error_state (numIts : Z) (s : Iterate Aux) (e : Error) : Prop :=
  match e with
  | LogicError_NonPositive nx nz =>
      nx = NumNonPositive (ix s) /\ nz = NumNonPositive (iz s) /\
      ((0 < nx)%nat \/ (0 < nz)%nat)
  | RuntimeError_MaxIts =>
      numIts = maxIts ctrl /\ in_cone s /\
      targetTol ctrl < relErr s /\ minTol ctrl < relErr s
  | RuntimeError_MinTol =>
      numIts <> maxIts ctrl /\ in_cone s /\
      targetTol ctrl < relErr s /\ minTol ctrl < relErr s /\
      (snd (direction_at numIts s) = None \/
       exists d, snd (direction_at numIts s) = Some d /\ step_length s d = 0)
  end.

Lemma body_throw numIts (s : Iterate Aux) e :
  body numIts s = Throw e -> error_state numIts s e.
Proof.
  destruct (Nat.eq_dec (NumNonPositive (ix s)) 0) as [Hx|Hx];
    [destruct (Nat.eq_dec (NumNonPositive (iz s)) 0) as [Hz|Hz]|].
  2: { rewrite body_guard by lia. intros E. injection E as <-. cbn.
       repeat split. right. lia. }
  2: { rewrite body_guard by lia. intros E. injection E as <-. cbn.
       repeat split. left. lia. }
  assert (Hcone : in_cone s) by (split; apply NumNonPositive_zero; assumption).
  destruct (Rle_dec (relErr s) (targetTol ctrl)) as [Hc|Hc].
  { rewrite body_converged by assumption. discriminate. }
  assert (Hgt : targetTol ctrl < relErr s) by lra.
  destruct (Z.eq_dec numIts (maxIts ctrl)) as [Hn|Hn];
    [destruct (Rgt_dec (relErr s) (minTol ctrl)) as [Hm|Hm]|].
  { rewrite body_budget by (try assumption; lra).
    intros E. injection E as <-. cbn [error_state].
    split; [exact Hn|]. split; [exact Hcone|]. split; lra. }
  - assert (Hr : reaches_direction numIts s).
    { repeat split; try assumption. intros [_ Hgt']. contradiction. }
    rewrite body_direction by exact Hr.
    destruct (direction_at numIts s) as [aux' [d|]] eqn:Ed.
    + destruct (Req_dec_T (step_length s d) 0) as [Ha|Ha]; [|discriminate].
      unfold acceptOrThrow.
      destruct (Rle_dec (relErr s) (minTol ctrl)); [discriminate|].
      exfalso. lra.
    + unfold acceptOrThrow.
      destruct (Rle_dec (relErr s) (minTol ctrl)); [discriminate|].
      exfalso. lra.
  - assert (Hr : reaches_direction numIts s).
    { repeat split; try assumption. intros [E _]. contradiction. }
    rewrite body_direction by exact Hr.
    destruct (direction_at numIts s) as [aux' [d|]] eqn:Ed.
    + destruct (Req_dec_T (step_length s d) 0) as [Ha|Ha]; [|discriminate].
      unfold acceptOrThrow.
      destruct (Rle_dec (relErr s) (minTol ctrl)); [discriminate|].
      intros E. injection E as <-. cbn [error_state]. rewrite Ed. cbn [snd].
      split; [exact Hn|]. split; [exact Hcone|]. split; [lra|].
      split; [lra|]. right. exists d. split; [reflexivity | exact Ha].
    + unfold acceptOrThrow.
      destruct (Rle_dec (relErr s) (minTol ctrl)); [discriminate|].
      intros E. injection E as <-. cbn [error_state]. rewrite Ed. cbn [snd].
      split; [exact Hn|]. split; [exact Hcone|]. split; [lra|].
      split; [lra|]. left. reflexivity.
Qed.

Lemma loop_throw s0 e :
  ForBreak body (iterations (maxIts ctrl)) s0 = Thrown e ->
  exists numIts t,
    (0 <= numIts <= maxIts ctrl)%Z /\
    continues body (iterations (numIts - 1)) s0 = Some t /\
    body numIts t = Throw e /\ error_state numIts t e.
Proof.
  intros Hr. apply ForBreak_thrown in Hr.
  destruct Hr as (its1 & k & its2 & t & Hi & Hc & Hb).
  apply iterations_split in Hi. destruct Hi as (Hk & -> & _).
  exists k, t. split; [exact Hk|]. split; [exact Hc|].
  split; [exact Hb | apply body_throw; exact Hb].
Qed.
End LoopExits.

Arguments in_cone {Aux} s.
Arguments exit_state {LineSearchCtrl M} ops {Aux} MaxStepInPositiveCone
  IPFLineSearch direction ctrl A b c bNrm2 cNrm2 t s.
Arguments error_state {LineSearchCtrl M} ops {Aux} MaxStepInPositiveCone
  IPFLineSearch direction ctrl A b c bNrm2 cNrm2 numIts s e.


Lemma IPF_run {LS : Type} (K : DenseKernels LS) ctrl APre bPre cPre x y z
    e s0 :
  dense_entry K ctrl APre bPre cPre x y z = (e, s0) ->
  IPF K ctrl APre bPre cPre x y z
  = finish ctrl (dRow e) (dCol e)
      (ForBreak (dense_body K ctrl e) (iterations (maxIts ctrl)) s0).
Proof.
  unfold dense_entry, IPF, IPF_loop, dense_body. cbv zeta.
  destruct (Initialize K _ _ _ _ _ _ _ _ _) as [[x0 y0] z0].
  intros E. injection E as <- <-. reflexivity.
Qed.

Lemma IPF_sparse_run {LS : Type} (K : SparseKernels LS) ctrl r
    APre bPre cPre x y z e s0 :
  sparse_entry K ctrl APre bPre cPre x y z = (e, s0) ->
  IPF_sparse K ctrl r APre bPre cPre x y z
  = finish ctrl (dRow e) (dCol e)
      (ForBreak (sparse_body K ctrl r e) (iterations (maxIts ctrl)) s0).
Proof.
  unfold sparse_entry, IPF_sparse, IPF_sparse_loop, sparse_body. cbv zeta.
  destruct (sInitialize K _ _ _ _ _ _ _ _ _ _) as [[[x0 y0] z0] analysis].
  intros E. injection E as <- <-. reflexivity.
Qed.

(** X11. With a negative [maxIts] the body of the loop never runs: IPF
    returns the initialized iterate, unequilibrated, without looking at
    the cone or at the relative error. Dense and sparse overloads. *)
Theorem negative_maxIts_returns_entry
    (LS : Type) (ctrl : IPFCtrl LS)
    (K : DenseKernels LS) (APre : Matrix)
    (KS : SparseKernels LS) (r : SparseRegime) (SPre : SparseMatrix KS)
    (bPre cPre x y z : Vector) :
  (maxIts ctrl < 0)%Z ->
  (forall e s0,
     dense_entry K ctrl APre bPre cPre x y z = (e, s0) ->
     IPF K ctrl APre bPre cPre x y z
     = Returned (Unequilibrate ctrl (dRow e) (dCol e)
                   (ix s0) (iy s0) (iz s0))) /\
  (forall e s0,
     sparse_entry KS ctrl SPre bPre cPre x y z = (e, s0) ->
     IPF_sparse KS ctrl r SPre bPre cPre x y z
     = Returned (Unequilibrate ctrl (dRow e) (dCol e)
                   (ix s0) (iy s0) (iz s0))).
Proof.
  intros Hneg. split; intros e s0 He.
  - rewrite (IPF_run K ctrl APre bPre cPre x y z e s0 He).
    rewrite iterations_negative by exact Hneg. reflexivity.
  - rewrite (IPF_sparse_run KS ctrl r SPre bPre cPre x y z e s0 He).
    rewrite iterations_negative by exact Hneg. reflexivity.
Qed.

Lemma negative_maxIts_returns_entry_witness :
  IPF (toyKernels (fun _ d => Some d) (fun a => a))
    (toyCtrl false (-1) (1 / 4) (1 / 3)) A1 [1] [1] [0] [0] [1]
  = Returned ([0], [0], [1]).
Proof.
  exact (proj1 (negative_maxIts_returns_entry unit
                  (toyCtrl false (-1) (1 / 4) (1 / 3))
                  (toyKernels (fun _ d => Some d) (fun a => a)) A1
                  toySparse Sequential A1 [1] [1] [0] [0] [1] eq_refl)
           _ _ eq_refl).
Defined.

(** X12. With [maxIts >= 0], when the initialized iterate has a
    non-positive entry in [x] or in [z], IPF throws the logic error with
    the two counts at the first pass, before any system is built. Dense
    and sparse overloads. *)
Theorem entry_outside_cone_throws
    (LS : Type) (ctrl : IPFCtrl LS)
    (K : DenseKernels LS) (APre : Matrix)
    (KS : SparseKernels LS) (r : SparseRegime) (SPre : SparseMatrix KS)
    (bPre cPre x y z : Vector) :
  (0 <= maxIts ctrl)%Z ->
  (forall e s0,
     dense_entry K ctrl APre bPre cPre x y z = (e, s0) ->
     Exists (fun a => a <= 0) (ix s0) \/ Exists (fun a => a <= 0) (iz s0) ->
     IPF K ctrl APre bPre cPre x y z
     = Thrown (LogicError_NonPositive (NumNonPositive (ix s0))
                 (NumNonPositive (iz s0)))) /\
  (forall e (s0 : Iterate (SparseAux KS)),
     sparse_entry KS ctrl SPre bPre cPre x y z = (e, s0) ->
     Exists (fun a => a <= 0) (ix s0) \/ Exists (fun a => a <= 0) (iz s0) ->
     IPF_sparse KS ctrl r SPre bPre cPre x y z
     = Thrown (LogicError_NonPositive (NumNonPositive (ix s0))
                 (NumNonPositive (iz s0)))).
Proof.
  intros Hm. split; intros e s0 He Hout.
  - rewrite (IPF_run K ctrl APre bPre cPre x y z e s0 He).
    rewrite iterations_first by exact Hm. cbn [ForBreak].
    unfold dense_body, dense_iteration. rewrite body_guard; [reflexivity|].
    destruct Hout as [Ho|Ho]; [left|right]; apply NumNonPositive_pos; exact Ho.
  - rewrite (IPF_sparse_run KS ctrl r SPre bPre cPre x y z e s0 He).
    rewrite iterations_first by exact Hm. cbn [ForBreak].
    unfold sparse_body, sparse_iteration. rewrite body_guard; [reflexivity|].
    destruct Hout as [Ho|Ho]; [left|right]; apply NumNonPositive_pos; exact Ho.
Qed.

Lemma entry_outside_cone_throws_witness :
  IPF (toyKernels (fun _ d => Some d) (fun a => a))
    (toyCtrl false 5 (1 / 4) (1 / 3)) A1 [1] [1] [0] [0] [1]
  = Thrown (LogicError_NonPositive (NumNonPositive [0]) (NumNonPositive [1])).
Proof.
  refine (proj1 (entry_outside_cone_throws unit
                   (toyCtrl false 5 (1 / 4) (1 / 3))
                   (toyKernels (fun _ d => Some d) (fun a => a)) A1
                   toySparse Sequential A1 [1] [1] [0] [0] [1] _)
            _ (mkIterate [0] [0] [1] tt) eq_refl _).
  - cbn. lia.
  - left. constructor. cbn. lra.
Defined.

(** X13. With [maxIts >= 0], when the initialized iterate is in the cone
    and its relative error is at most [targetTol], IPF returns it,
    unequilibrated, at the first pass: no direction is computed, so the
    result is the same whatever the linear solver does. Dense and sparse
    overloads. *)
Theorem entry_converged_returns
    (LS : Type) (ctrl : IPFCtrl LS)
    (K : DenseKernels LS) (APre : Matrix)
    (KS : SparseKernels LS) (r : SparseRegime) (SPre : SparseMatrix KS)
    (bPre cPre x y z : Vector) :
  (0 <= maxIts ctrl)%Z ->
  (forall e s0,
     dense_entry K ctrl APre bPre cPre x y z = (e, s0) ->
     in_cone s0 ->
     relError DenseOps (eA e) (eb e) (ec e) (Nrm2 (eb e)) (Nrm2 (ec e))
       (ix s0) (iy s0) (iz s0) <= targetTol ctrl ->
     IPF K ctrl APre bPre cPre x y z
     = Returned (Unequilibrate ctrl (dRow e) (dCol e)
                   (ix s0) (iy s0) (iz s0))) /\
  (forall e (s0 : Iterate (SparseAux KS)),
     sparse_entry KS ctrl SPre bPre cPre x y z = (e, s0) ->
     in_cone s0 ->
     relError (sparseOps KS) (eA e) (eb e) (ec e) (Nrm2 (eb e)) (Nrm2 (ec e))
       (ix s0) (iy s0) (iz s0) <= targetTol ctrl ->
     IPF_sparse KS ctrl r SPre bPre cPre x y z
     = Returned (Unequilibrate ctrl (dRow e) (dCol e)
                   (ix s0) (iy s0) (iz s0))).
Proof.
  intros Hm. split; intros e s0 He [Hx Hz] Hc.
  - rewrite (IPF_run K ctrl APre bPre cPre x y z e s0 He).
    rewrite iterations_first by exact Hm. cbn [ForBreak].
    unfold dense_body, dense_iteration.
    rewrite body_converged;
      [reflexivity | apply NumNonPositive_zero; exact Hx
       | apply NumNonPositive_zero; exact Hz | exact Hc].
  - rewrite (IPF_sparse_run KS ctrl r SPre bPre cPre x y z e s0 He).
    rewrite iterations_first by exact Hm. cbn [ForBreak].
    unfold sparse_body, sparse_iteration.
    rewrite body_converged;
      [reflexivity | apply NumNonPositive_zero; exact Hx
       | apply NumNonPositive_zero; exact Hz | exact Hc].
Qed.

Lemma toy_cone : in_cone toyIterate.
Proof.
  split; apply NumNonPositive_zero; exact toy_in_cone.
Qed.

Lemma entry_converged_returns_witness :
  IPF (toyKernels (fun _ _ => None) (fun a => a))
    (toyCtrl false 5 1 1) A1 [1] [1] [1] [0] [1]
  = Returned ([1], [0], [1]).
Proof.
  refine (proj1 (entry_converged_returns unit (toyCtrl false 5 1 1)
                   (toyKernels (fun _ _ => None) (fun a => a)) A1
                   toySparse Sequential A1 [1] [1] [1] [0] [1] _)
            _ toyIterate eq_refl toy_cone _).
  - cbn. lia.
  - change (relError DenseOps A1 [1] [1] (Nrm2 [1]) (Nrm2 [1]) [1] [0] [1]
            <= 1).
    rewrite toy_relError. lra.
Defined.


(** X14. What a loop that returns guarantees, for [maxIts >= 0], in
    exact arithmetic (the relative error is a real number, so each
    comparison with a tolerance holds or its opposite does). The passes
    [0, ..., numIts - 1] fell through and gave an iterate [t]; the pass
    [numIts] on [t] left the loop, or was the last one ([numIts = maxIts])
    and fell through. [t] passed the cone guard and
    [relError t <= max(targetTol, minTol)]. The iterate returned is [t]
    itself when [relError t <= targetTol]; otherwise
    [targetTol < relError t <= minTol], and it has the [x], [y], [z] of
    [t] (failed solve, zero step) or is one nonzero step away from [t],
    taken in the pass [numIts = maxIts] and not examined afterwards. *)
Theorem normal_return_postcondition
    (LineSearchCtrl M Aux : Type) (ops : MatrixOps M)
    (MaxStep : Vector -> Vector -> R -> R)
    (LineSearch : M -> Vector -> Vector -> Vector -> Vector -> Vector ->
                  Vector -> Vector -> Vector -> R -> R -> R ->
                  LineSearchCtrl -> R)
    (direction : Z -> Aux -> Vector -> Vector -> Vector -> Vector ->
                 Vector -> Vector -> Aux * option Direction)
    (ctrl : IPFCtrl LineSearchCtrl) (A : M) (b c : Vector)
    (bNrm2 cNrm2 : R) (s0 s : Iterate Aux) :
  let body :=
    iteration ops MaxStep LineSearch direction ctrl A b c bNrm2 cNrm2 in
  let relErr t := relError ops A b c bNrm2 cNrm2 (ix t) (iy t) (iz t) in
  (0 <= maxIts ctrl)%Z ->
  ForBreak body (iterations (maxIts ctrl)) s0 = Returned s ->
  exists (numIts : Z) (t : Iterate Aux),
    (0 <= numIts <= maxIts ctrl)%Z /\
    continues body (iterations (numIts - 1)) s0 = Some t /\
    (body numIts t = Break s \/
     (numIts = maxIts ctrl /\ body numIts t = Continue s)) /\
    Forall (fun a => 0 < a) (ix t) /\ Forall (fun a => 0 < a) (iz t) /\
    relErr t <= Rmax (targetTol ctrl) (minTol ctrl) /\
    ((relErr t <= targetTol ctrl /\ s = t) \/
     (targetTol ctrl < relErr t <= minTol ctrl /\
      ((ix s = ix t /\ iy s = iy t /\ iz s = iz t) \/
       exists aux' d,
         direction_at ops direction ctrl A b c (maxIts ctrl) t
         = (aux', Some d) /\
         step_length MaxStep LineSearch ctrl A b c bNrm2 cNrm2 t d <> 0 /\
         s = stepped MaxStep LineSearch ctrl A b c bNrm2 cNrm2 t aux' d))).
Proof.
  intros body relErr Hm Hr.
  apply loop_exit in Hr; [|exact Hm].
  destruct Hr as (k & t & Hk & Hc & Hb & [Hx Hz] & He).
  exists k, t. split; [exact Hk|]. split; [exact Hc|]. split; [exact Hb|].
  split; [exact Hx|]. split; [exact Hz|]. split; [|exact He].
  unfold relErr.
  destruct He as [[Ht _] | [Hrange _]].
  - eapply Rle_trans; [exact Ht | apply Rmax_l].
  - eapply Rle_trans; [apply Hrange | apply Rmax_r].
Qed.

Lemma toy_loop_converges :
  ForBreak (iteration DenseOps
              (MaxStepInPositiveCone (toyKernels (fun _ _ => None) (fun a => a)))
              (IPFLineSearch (toyKernels (fun _ _ => None) (fun a => a)))
              (dense_direction (toyKernels (fun _ _ => None) (fun a => a))
                 (toyCtrl false 0 1 1) A1 [1])
              (toyCtrl false 0 1 1) A1 [1] [1] (Nrm2 [1]) (Nrm2 [1]))
    (iterations (maxIts (toyCtrl false 0 1 1))) toyIterate
  = Returned toyIterate.
Proof.
  change (iterations (maxIts (toyCtrl false 0 1 1))) with [0%Z].
  cbn [ForBreak]. rewrite body_converged; try exact toy_in_cone.
  - reflexivity.
  - cbn [ix iy iz toyIterate]. rewrite toy_relError. cbn. lra.
Qed.

Lemma normal_return_postcondition_witness :
  exists (numIts : Z) (t : Iterate unit),
    (0 <= numIts <= 0)%Z /\
    continues
      (iteration DenseOps
         (MaxStepInPositiveCone (toyKernels (fun _ _ => None) (fun a => a)))
         (IPFLineSearch (toyKernels (fun _ _ => None) (fun a => a)))
         (dense_direction (toyKernels (fun _ _ => None) (fun a => a))
            (toyCtrl false 0 1 1) A1 [1])
         (toyCtrl false 0 1 1) A1 [1] [1] (Nrm2 [1]) (Nrm2 [1]))
      (iterations (numIts - 1)) toyIterate = Some t /\
    Forall (fun a => 0 < a) (ix t) /\ Forall (fun a => 0 < a) (iz t) /\
    relError DenseOps A1 [1] [1] (Nrm2 [1]) (Nrm2 [1]) (ix t) (iy t) (iz t)
    <= Rmax 1 1.
Proof.
  destruct (normal_return_postcondition unit Matrix unit DenseOps _ _ _
              (toyCtrl false 0 1 1) A1 [1] [1] (Nrm2 [1]) (Nrm2 [1])
              toyIterate toyIterate (Z.le_refl 0) toy_loop_converges)
    as (k & t & Hk & Hc & _ & Hx & Hz & Hr & _).
  exists k, t. repeat split; try assumption; apply Hk.
Defined.

(** X15. In a run of a sparse overload that returns, the loop has called
    [NestedDissection] at most once, and then in the pass [numIts = 0]. *)
Theorem nested_dissection_at_most_once
    (LS : Type) (K : SparseKernels LS) (ctrl : IPFCtrl LS)
    (r : SparseRegime) (APre : SparseMatrix K) (bPre cPre x y z : Vector)
    (s' : Iterate (SparseAux K)) :
  snd (IPF_sparse_loop K ctrl r APre bPre cPre x y z) = Returned s' ->
  ndCalls (aux s') = [] \/ ndCalls (aux s') = [0%Z].
Proof.
  unfold IPF_sparse_loop. cbv zeta.
  destruct (sInitialize K _ _ _ _ _ _ _ _ _ _) as [[[x0 y0] z0] analysis].
  cbn [snd].
  set (e := Equilibrate (sparseOps K) (sGeomEquil K) ctrl APre bPre cPre x y z).
  set (body := sparse_iteration K ctrl r (eA e) (eb e) (ec e) (Nrm2 (eb e))
                 (Nrm2 (ec e)) _).
  set (s0 := mkIterate x0 y0 z0 (initialAux K ctrl analysis)).
  assert (H0 : ndCalls (aux s0) = []).
  { unfold s0, initialAux. cbn [aux].
    destruct (system ctrl); destruct analysis as [[[m0 i0] r0] n0];
      reflexivity. }
  destruct (Z_lt_le_dec (maxIts ctrl) 0) as [Hneg|Hm].
  - rewrite iterations_negative by exact Hneg. cbn [ForBreak].
    intros E. injection E as <-. left. exact H0.
  - rewrite iterations_first by exact Hm. cbn [ForBreak].
    assert (Hfirst : forall s1,
              body 0%Z s0 = Continue s1 \/ body 0%Z s0 = Break s1 ->
              ndCalls (aux s1) = [] \/ ndCalls (aux s1) = [0%Z]).
    { intros s1 Hb. apply sparse_iteration_effect in Hb.
      destruct Hb as [-> | He]; [left; exact H0|].
      unfold direction_effect in He.
      destruct (analysis_gate LS ctrl 0) ; destruct He as [He _];
        rewrite He, H0; [right | left]; reflexivity. }
    destruct (body 0%Z s0) as [s1|s1|err] eqn:E; [| |discriminate].
    + intros Hr.
      destruct (loop_keeps LS K ctrl r (eA e) (eb e) (ec e) (Nrm2 (eb e))
                  (Nrm2 (ec e)) _ _ s1 s'
                  (Forall_impl _ (gate_later LS ctrl) (iterations_later _)) Hr)
        as [Hn _].
      rewrite Hn. apply Hfirst. left. reflexivity.
    + intros Hr. injection Hr as <-. apply Hfirst. right. reflexivity.
Qed.


Definition toySparseConverged : IPFCtrl unit :=
  mkCtrl unit false false false (1 / 10) FULL_KKT 5 1 1 false
    (mkQSD 0 0 0 0) tt.

Lemma toySparse_loop_converges :
  snd (IPF_sparse_loop toySparse toySparseConverged Sequential A1
         [1] [1] [1] [0] [1])
  = Returned toySparseIterate.
Proof.
  change (snd (IPF_sparse_loop toySparse toySparseConverged Sequential A1
                 [1] [1] [1] [0] [1]))
    with (ForBreak
            (sparse_iteration toySparse toySparseConverged Sequential A1
               [1] [1] (Nrm2 [1]) (Nrm2 [1])
               (regVector toySparseConverged 1 1))
            (iterations 5) toySparseIterate).
  rewrite iterations_first by lia. cbn [ForBreak].
  unfold sparse_iteration. rewrite body_converged; try exact toy_in_cone.
  - reflexivity.
  - change (relError DenseOps A1 [1] [1] (Nrm2 [1]) (Nrm2 [1]) [1] [0] [1]
            <= 1).
    rewrite toy_relError. lra.
Qed.

Lemma nested_dissection_at_most_once_witness :
  ndCalls (aux toySparseIterate) = [] \/
  ndCalls (aux toySparseIterate) = [0%Z].
Proof.
  exact (nested_dissection_at_most_once unit toySparse toySparseConverged
           Sequential A1 [1] [1] [1] [0] [1] toySparseIterate
           toySparse_loop_converges).
Defined.

(** *** The relative error of the dense overload and optimality *)

Lemma Dot_self_nonneg v : 0 <= Dot v v.
Proof. induction v as [|a v IH]; cbn; [lra | nra]. Qed.

Lemma Dot_self_zero v : Dot v v = 0 <-> Forall (fun a => a = 0) v.
Proof.
  induction v as [|a v IH]; cbn.
  - split; [constructor | reflexivity].
  - pose proof (Dot_self_nonneg v) as Hv. split.
    + intros E. assert (a = 0) by nra. assert (Dot v v = 0) by nra.
      constructor; [assumption | apply IH; assumption].
    + intros Hf. inversion Hf as [|? ? Ha Hf']; subst.
      apply IH in Hf'. rewrite Hf'. ring.
Qed.

Lemma Nrm2_nonneg v : 0 <= Nrm2 v.
Proof. apply sqrt_pos. Qed.

Lemma Nrm2_zero v : Nrm2 v = 0 <-> Forall (fun a => a = 0) v.
Proof.
  unfold Nrm2. rewrite <- Dot_self_zero. split.
  - apply sqrt_eq_0. apply Dot_self_nonneg.
  - intros ->. apply sqrt_0.
Qed.

Lemma ratio_nonneg a p : 0 <= a -> 0 <= p -> 0 <= a / (1 + p).
Proof.
  intros Ha Hp. unfold Rdiv.
  apply Rmult_le_pos; [exact Ha|]. left. apply Rinv_0_lt_compat. lra.
Qed.

Lemma ratio_zero a p : 0 <= p -> (a / (1 + p) = 0 <-> a = 0).
Proof.
  intros Hp. split.
  - intros E. replace a with (a / (1 + p) * (1 + p)) by (field; lra).
    rewrite E. ring.
  - intros ->. field. lra.
Qed.

Lemma Rmax_zero a b : 0 <= a -> 0 <= b -> (Rmax a b = 0 <-> a = 0 /\ b = 0).
Proof.
  intros Ha Hb. unfold Rmax. destruct (Rle_dec a b); split; intros; lra.
Qed.

Lemma Forall_map_seq (f : nat -> R) n :
  Forall (fun a => a = 0) (map f (seq 0 n)) <->
  forall i, (i < n)%nat -> f i = 0.
Proof.
  rewrite Forall_forall. split.
  - intros Hf i Hi. apply Hf. apply in_map. apply in_seq. lia.
  - intros Hf a Ha. apply in_map_iff in Ha. destruct Ha as (i & <- & Hi).
    apply in_seq in Hi. apply Hf. lia.
Qed.

(** X16. In the dense overload the relative error is never negative, and
    it is zero exactly when the iterate is primal feasible ([A x = b]),
    dual feasible ([A^T y - z + c = 0]) and has no duality gap
    ([c.x = - b.y]). *)
Theorem relError_zero_iff_optimal (D : Matrix) (b c x y z : Vector) :
  length z = mWidth D ->
  0 <= relError DenseOps D b c (Nrm2 b) (Nrm2 c) x y z /\
  (relError DenseOps D b c (Nrm2 b) (Nrm2 c) x y z = 0 <->
   Dot c x = - Dot b y /\
   (forall i, (i < mHeight D)%nat ->
      Rsum (mWidth D) (fun j => Get D i j * nth j x 0) = nth i b 0) /\
   (forall j, (j < mWidth D)%nat ->
      Rsum (mHeight D) (fun i => Get D i j * nth i y 0) - nth j z 0
      + nth j c 0 = 0)).
Proof.
  intros Hz. rewrite relError_dense by exact Hz. unfold spec_relError.
  set (o := Rabs (Dot c x - - Dot b y) / (1 + Rabs (Dot c x))).
  set (rb := Nrm2 (Ax_minus_b D x b) / (1 + Nrm2 b)).
  set (rc := Nrm2 (ATy_minus_z_plus_c D y z c) / (1 + Nrm2 c)).
  assert (Ho : 0 <= o) by (apply ratio_nonneg; apply Rabs_pos).
  assert (Hrb : 0 <= rb) by (apply ratio_nonneg; apply Nrm2_nonneg).
  assert (Hrc : 0 <= rc) by (apply ratio_nonneg; apply Nrm2_nonneg).
  assert (Hm : 0 <= Rmax o rb).
  { eapply Rle_trans; [exact Ho | apply Rmax_l]. }
  split.
  - eapply Rle_trans; [exact Hm | apply Rmax_l].
  - rewrite (Rmax_zero _ _ Hm Hrc), (Rmax_zero _ _ Ho Hrb).
    unfold o, rb, rc.
    rewrite (ratio_zero _ _ (Rabs_pos (Dot c x))).
    rewrite !(ratio_zero _ _ (Nrm2_nonneg _)).
    rewrite !Nrm2_zero. unfold Ax_minus_b, ATy_minus_z_plus_c.
    rewrite !Forall_map_seq.
    split.
    + intros [[H1 H2] H3]. split; [|split].
      * destruct (Req_dec (Dot c x - - Dot b y) 0) as [E|E]; [lra|].
        apply Rabs_no_R0 in E. contradiction.
      * intros i Hi. specialize (H2 i Hi). lra.
      * exact H3.
    + intros (H1 & H2 & H3). split; [split|].
      * rewrite H1. replace (- Dot b y - - Dot b y) with 0 by ring.
        apply Rabs_R0.
      * intros i Hi. rewrite (H2 i Hi). ring.
      * exact H3.
Qed.

Lemma relError_zero_iff_optimal_witness :
  relError DenseOps A1 [1] [1] (Nrm2 [1]) (Nrm2 [1]) [1] [-1] [0] = 0.
Proof.
  apply (proj2 (relError_zero_iff_optimal A1 [1] [1] [1] [-1] [0] eq_refl)).
  split; [|split].
  - cbn. lra.
  - intros i Hi. cbn in Hi. destruct i as [|i]; [cbn; lra | lia].
  - intros j Hj. cbn in Hj. destruct j as [|j]; [cbn; lra | lia].
Defined.



(** X17. What each error of the loop tells, in exact arithmetic (the
    relative error is a real number, so each comparison with a tolerance
    holds or its opposite does). When the loop throws, the passes
    [0, ..., numIts - 1] fell through and gave an iterate [t], and the pass
    [numIts] on [t] threw the error. The logic error carries the numbers of
    non-positive entries of [x] and [z] of [t], one of them positive. The
    two runtime errors are thrown with [t] in the cone and
    [relError t > max(targetTol, minTol)]: for the one about the iteration
    limit the pass is the last one, [numIts = maxIts]; for the one about
    the minimum tolerance it is an earlier one, and in it the solve failed
    or the step was zero. *)
Theorem error_postcondition
    (LineSearchCtrl M Aux : Type) (ops : MatrixOps M)
    (MaxStep : Vector -> Vector -> R -> R)
    (LineSearch : M -> Vector -> Vector -> Vector -> Vector -> Vector ->
                  Vector -> Vector -> Vector -> R -> R -> R ->
                  LineSearchCtrl -> R)
    (direction : Z -> Aux -> Vector -> Vector -> Vector -> Vector ->
                 Vector -> Vector -> Aux * option Direction)
    (ctrl : IPFCtrl LineSearchCtrl) (A : M) (b c : Vector)
    (bNrm2 cNrm2 : R) (s0 : Iterate Aux) (e : Error) :
  let body :=
    iteration ops MaxStep LineSearch direction ctrl A b c bNrm2 cNrm2 in
  let relErr t := relError ops A b c bNrm2 cNrm2 (ix t) (iy t) (iz t) in
  ForBreak body (iterations (maxIts ctrl)) s0 = Thrown e ->
  exists (numIts : Z) (t : Iterate Aux),
    (0 <= numIts <= maxIts ctrl)%Z /\
    continues body (iterations (numIts - 1)) s0 = Some t /\
    body numIts t = Throw e /\
    match e with
    | LogicError_NonPositive nx nz =>
        nx = NumNonPositive (ix t) /\ nz = NumNonPositive (iz t) /\
        (Exists (fun a => a <= 0) (ix t) \/ Exists (fun a => a <= 0) (iz t))
    | RuntimeError_MaxIts =>
        numIts = maxIts ctrl /\
        Forall (fun a => 0 < a) (ix t) /\ Forall (fun a => 0 < a) (iz t) /\
        Rmax (targetTol ctrl) (minTol ctrl) < relErr t
    | RuntimeError_MinTol =>
        numIts <> maxIts ctrl /\
        Forall (fun a => 0 < a) (ix t) /\ Forall (fun a => 0 < a) (iz t) /\
        Rmax (targetTol ctrl) (minTol ctrl) < relErr t /\
        (snd (direction_at ops direction ctrl A b c numIts t) = None \/
         exists d,
           snd (direction_at ops direction ctrl A b c numIts t) = Some d /\
           step_length MaxStep LineSearch ctrl A b c bNrm2 cNrm2 t d = 0)
    end.
Proof.
  intros body relErr Hr. apply loop_throw in Hr.
  destruct Hr as (k & t & Hk & Hc & Hb & He). exists k, t.
  split; [exact Hk|]. split; [exact Hc|]. split; [exact Hb|].
  destruct e as [nx nz| |]; cbn [error_state] in He.
  - destruct He as (-> & -> & Hp). repeat split.
    destruct Hp as [Hp|Hp]; [left|right]; apply NumNonPositive_pos; exact Hp.
  - destruct He as (Hn & [Hx Hz] & H1 & H2). repeat split; try assumption.
    unfold relErr. apply Rmax_lub_lt; assumption.
  - destruct He as (Hn & [Hx Hz] & H1 & H2 & Hd).
    repeat split; try assumption.
    unfold relErr. apply Rmax_lub_lt; assumption.
Qed.

Lemma toy_loop_fails :
  ForBreak (iteration DenseOps
              (MaxStepInPositiveCone (toyKernels (fun _ _ => None) (fun a => a)))
              (IPFLineSearch (toyKernels (fun _ _ => None) (fun a => a)))
              (dense_direction (toyKernels (fun _ _ => None) (fun a => a))
                 (toyCtrl false 5 (1 / 4) (1 / 3)) A1 [1])
              (toyCtrl false 5 (1 / 4) (1 / 3)) A1 [1] [1]
              (Nrm2 [1]) (Nrm2 [1]))
    (iterations (maxIts (toyCtrl false 5 (1 / 4) (1 / 3)))) toyIterate
  = Thrown RuntimeError_MinTol.
Proof.
  rewrite iterations_first by (cbn; lia). cbn [ForBreak].
  rewrite body_direction by (apply toy_reaches; [lra | discriminate]).
  cbn -[Rle_dec]. unfold acceptOrThrow. cbn [minTol toyCtrl].
  change (relError DenseOps A1 [1] [1] (Nrm2 [1]) (Nrm2 [1])
            (ix toyIterate) (iy toyIterate) (iz toyIterate))
    with (relError DenseOps A1 [1] [1] (Nrm2 [1]) (Nrm2 [1]) [1] [0] [1]).
  rewrite toy_relError.
  destruct (Rle_dec (1 / 2) (1 / 3)); [lra | reflexivity].
Qed.

Lemma error_postcondition_witness :
  exists (numIts : Z) (t : Iterate unit),
    (0 <= numIts <= 5)%Z /\
    continues
      (iteration DenseOps
         (MaxStepInPositiveCone (toyKernels (fun _ _ => None) (fun a => a)))
         (IPFLineSearch (toyKernels (fun _ _ => None) (fun a => a)))
         (dense_direction (toyKernels (fun _ _ => None) (fun a => a))
            (toyCtrl false 5 (1 / 4) (1 / 3)) A1 [1])
         (toyCtrl false 5 (1 / 4) (1 / 3)) A1 [1] [1] (Nrm2 [1]) (Nrm2 [1]))
      (iterations (numIts - 1)) toyIterate = Some t /\
    numIts <> 5%Z /\
    Rmax (1 / 4) (1 / 3)
    < relError DenseOps A1 [1] [1] (Nrm2 [1]) (Nrm2 [1]) (ix t) (iy t) (iz t).
Proof.
  destruct (error_postcondition unit Matrix unit DenseOps _ _ _
              (toyCtrl false 5 (1 / 4) (1 / 3)) A1 [1] [1]
              (Nrm2 [1]) (Nrm2 [1]) toyIterate RuntimeError_MinTol
              toy_loop_fails)
    as (k & t & Hk & Hc & _ & Hn & _ & _ & Hr & _).
  exists k, t. repeat split; try assumption; apply Hk.
Defined.

End IPFProofs.
